(** * The r600 "sfn" ALU instruction model (sfn_instr_alu.cpp)

    A shallow embedding of [AluInstr]: construction, the text form
    ([do_print] / [from_string]), copy-propagation legality, source
    replacement, [split], the scheduler-readiness predicate and the
    [emit_alu_op2] lowering.

    The classes the file only consumes (virtual values and registers, the
    [Instr] base class, the opcode tables, the read-port reservation, the
    value factory) are not defined in sfn_instr_alu.cpp; they enter the
    development as interfaces, one operation per call the source makes. *)

From Stdlib Require Import ZArith String Ascii List Bool Lia.
From stdpp Require Import base decidable countable gmap strings list.

#[local] Set Warnings "-clear-no-such-hyp".

Local Open Scope string_scope.
Local Open Scope list_scope.
Local Open Scope Z_scope.

(** ** Outcomes

    The source stops a computation in four ways: [ASSERT_OR_THROW], a plain
    [assert], [unreachable(...)], and behaviour C++ leaves undefined (a null
    pointer or an index past the end).  An outcome records which. *)

Inductive fault : Type :=
  | Thrown (msg : string)
  | AssertFailed (msg : string)
  | Unreachable (msg : string)
  | Undefined (msg : string).

Inductive outcome (A : Type) : Type :=
  | Done (a : A)
  | Fault (f : fault).

Arguments Done {A} a.
Arguments Fault {A} f.

Definition obind {A B : Type} (x : outcome A) (k : A -> outcome B) : outcome B :=
  match x with
  | Done a => k a
  | Fault f => Fault f
  end.

Notation "'let?' x ':=' e 'in' k" := (obind e (fun x => k))
  (at level 10, x pattern, e at level 100, k at level 200).

Definition is_done {A : Type} (x : outcome A) : bool :=
  match x with Done _ => true | Fault _ => false end.

(** ** Enumerations *)

(** [enum Pin]: the seven pin constraints the source names. *)
Inductive Pin : Type :=
  | pin_none | pin_chan | pin_array | pin_group | pin_chgr | pin_fully | pin_free.

#[global] Instance Pin_eq_dec : EqDecision Pin.
Proof. solve_decision. Defined.

(** [enum AluModifiers]: the modifiers sfn_instr_alu.cpp names. *)
Inductive AluModifiers : Type :=
  | alu_src0_neg | alu_src0_abs | alu_src0_rel
  | alu_src1_neg | alu_src1_abs | alu_src1_rel
  | alu_src2_neg | alu_src2_rel
  | alu_dst_clamp
  | alu_last_instr | alu_update_exec | alu_update_pred | alu_write
  | alu_op3 | alu_is_trans | alu_is_cayman_trans | alu_is_lds
  | alu_no_schedule_bias | alu_64bit_op.

#[global] Instance AluModifiers_eq_dec : EqDecision AluModifiers.
Proof. solve_decision. Defined.

Definition AluModifiers_index (f : AluModifiers) : nat :=
  match f with
  | alu_src0_neg => 0 | alu_src0_abs => 1 | alu_src0_rel => 2
  | alu_src1_neg => 3 | alu_src1_abs => 4 | alu_src1_rel => 5
  | alu_src2_neg => 6 | alu_src2_rel => 7
  | alu_dst_clamp => 8
  | alu_last_instr => 9 | alu_update_exec => 10 | alu_update_pred => 11
  | alu_write => 12
  | alu_op3 => 13 | alu_is_trans => 14 | alu_is_cayman_trans => 15
  | alu_is_lds => 16
  | alu_no_schedule_bias => 17 | alu_64bit_op => 18
  end%nat.

Definition all_AluModifiers : list AluModifiers :=
  [ alu_src0_neg; alu_src0_abs; alu_src0_rel;
    alu_src1_neg; alu_src1_abs; alu_src1_rel;
    alu_src2_neg; alu_src2_rel;
    alu_dst_clamp;
    alu_last_instr; alu_update_exec; alu_update_pred; alu_write;
    alu_op3; alu_is_trans; alu_is_cayman_trans; alu_is_lds;
    alu_no_schedule_bias; alu_64bit_op ].

Lemma AluModifiers_index_lookup (f : AluModifiers) :
  all_AluModifiers !! AluModifiers_index f = Some f.
Proof. destruct f; reflexivity. Qed.

#[global] Instance AluModifiers_countable : Countable AluModifiers.
Proof.
  apply (inj_countable AluModifiers_index (fun n => all_AluModifiers !! n)).
  exact AluModifiers_index_lookup.
Defined.

(** [std::bitset] indexed by [AluModifiers] and [std::set<AluModifiers>]
    are both finite sets of modifiers. *)
Abbreviation AluOpFlags := (gset AluModifiers).

(** [enum AluBankSwizzle]; [++bs] steps through the six permutations and
    ends at [alu_vec_unknown]. *)
Inductive AluBankSwizzle : Type :=
  | alu_vec_012 | alu_vec_021 | alu_vec_120 | alu_vec_102
  | alu_vec_201 | alu_vec_210 | alu_vec_unknown.

#[global] Instance AluBankSwizzle_eq_dec : EqDecision AluBankSwizzle.
Proof. solve_decision. Defined.

Definition bank_swizzle_next (bs : AluBankSwizzle) : AluBankSwizzle :=
  match bs with
  | alu_vec_012 => alu_vec_021
  | alu_vec_021 => alu_vec_120
  | alu_vec_120 => alu_vec_102
  | alu_vec_102 => alu_vec_201
  | alu_vec_201 => alu_vec_210
  | alu_vec_210 => alu_vec_unknown
  | alu_vec_unknown => alu_vec_unknown
  end.

(** The swizzles from [bs] up to, not including, [alu_vec_unknown]. *)
Definition bank_swizzles_from (bs : AluBankSwizzle) : list AluBankSwizzle :=
  match bs with
  | alu_vec_012 => [alu_vec_012; alu_vec_021; alu_vec_120; alu_vec_102; alu_vec_201; alu_vec_210]
  | alu_vec_021 => [alu_vec_021; alu_vec_120; alu_vec_102; alu_vec_201; alu_vec_210]
  | alu_vec_120 => [alu_vec_120; alu_vec_102; alu_vec_201; alu_vec_210]
  | alu_vec_102 => [alu_vec_102; alu_vec_201; alu_vec_210]
  | alu_vec_201 => [alu_vec_201; alu_vec_210]
  | alu_vec_210 => [alu_vec_210]
  | alu_vec_unknown => []
  end.

(** [enum ECFAluOpCode]: the control-flow annotations the source names. *)
Inductive ECFAluOpCode : Type :=
  | cf_alu | cf_alu_push_before | cf_alu_pop_after | cf_alu_pop2_after
  | cf_alu_extended | cf_alu_continue | cf_alu_break | cf_alu_else_after.

#[global] Instance ECFAluOpCode_eq_dec : EqDecision ECFAluOpCode.
Proof. solve_decision. Defined.

(** Instructions and groups live in arenas and are addressed by index:
    an [Instr*] is an [InstrPtr], an [AluGroup*] a [GroupPtr]. *)
Abbreviation InstrPtr := nat (only parsing).
Abbreviation GroupPtr := nat (only parsing).

(** ** The collaborators, as interfaces *)

(** Virtual values, registers and the [Instr] base class
    (sfn_virtualvalues, sfn_instr).  A [PVirtualValue] or [PRegister] is a
    pointer; what the pointee holds that this file never changes (its kind,
    channel, SSA flag, address operand) is read off the pointer, and what
    it does change or only the scheduler knows (pins, use and parent lists,
    readiness, block positions) is read from a [World]. *)
Class Values : Type := {
  PVirtualValue : Type;
  PRegister : Type;
  PUniform : Type;
  World : Type;
  (** the implicit conversion [Register*] to [VirtualValue*] *)
  reg_value : PRegister -> PVirtualValue;
  as_register : PVirtualValue -> option PRegister;
  as_uniform : PVirtualValue -> option PUniform;
  (** [UniformValue::buf_addr()] *)
  buf_addr : PUniform -> option PVirtualValue;
  (** [VirtualValue::get_addr()] *)
  get_addr : PVirtualValue -> option PVirtualValue;
  (** [static_cast<LocalArrayValue *>(r)->addr()] *)
  array_addr : PVirtualValue -> option PVirtualValue;
  chan : PRegister -> Z;
  has_flag_ssa : PRegister -> bool;
  pin : World -> PVirtualValue -> Pin;
  set_pin : PRegister -> Pin -> World -> World;
  equal_to : World -> PVirtualValue -> PVirtualValue -> bool;
  uses : World -> PRegister -> list InstrPtr;
  add_use : PRegister -> InstrPtr -> World -> World;
  del_use : PRegister -> InstrPtr -> World -> World;
  add_parent : PRegister -> InstrPtr -> World -> World;
  del_parent : PRegister -> InstrPtr -> World -> World;
  (** [VirtualValue::ready(block, index)] *)
  ready : World -> PVirtualValue -> Z -> Z -> bool;
  (** [operator<<] on a value and on a pin *)
  print_value : World -> PVirtualValue -> string;
  print_pin : Pin -> string;
  (** [Instr::block_id()], [index()], [is_scheduled()], [required_instr()]
      and [set_blockid] *)
  block_id : World -> InstrPtr -> Z;
  index : World -> InstrPtr -> Z;
  is_scheduled : World -> InstrPtr -> bool;
  required_instr : World -> InstrPtr -> list InstrPtr;
  set_blockid : InstrPtr -> Z -> Z -> World -> World
}.

Coercion reg_value : PRegister >-> PVirtualValue.

(** One row of [alu_ops] and of [lds_ops]: the two columns the file reads. *)
Record AluOp : Type := mkAluOp { nsrc : Z; name : string }.
Record LDSOp : Type := mkLDSOp { lds_nsrc : Z; lds_name : string }.

(** The opcode enumerations and the two opcode tables (sfn_alu_defines).
    A [std::map] is listed in key order, which is the order a range-for
    visits it in. *)
Class OpTables : Type := {
  EAluOp : Type;
  EAluOp_eq_dec :: EqDecision EAluOp;
  ESDOp : Type;
  ESDOp_eq_dec :: EqDecision ESDOp;
  alu_ops : list (EAluOp * AluOp);
  lds_ops : list (ESDOp * LDSOp);
  op1_mov : EAluOp;
  op2_add : EAluOp;
  op_invalid : EAluOp;
  (** the default member initialisers of [m_opcode] and [m_lds_opcode] *)
  m_opcode_default : EAluOp;
  m_lds_opcode_default : ESDOp;
  (** the bits of [AluInstr::Op2Options] *)
  op2_opt_none : Z;
  op2_opt_reverse : Z;
  op2_opt_neg_src1 : Z
}.

(** [AluReadportReservation]: its default constructor and
    [schedule_vec_src], which answers and updates the reservation. *)
Class Readports `{Values} : Type := {
  AluReadportReservation : Type;
  new_reservation : AluReadportReservation;
  schedule_vec_src :
    AluReadportReservation -> list PVirtualValue -> Z -> AluBankSwizzle ->
    bool * AluReadportReservation
}.

(** ** AluInstr *)

Record AluInstr `{Values} `{OpTables} : Type := mkAluInstr {
  m_opcode : EAluOp;
  m_lds_opcode : ESDOp;
  m_dest : option PRegister;
  m_src : list PVirtualValue;
  m_alu_flags : AluOpFlags;
  m_bank_swizzle : AluBankSwizzle;
  m_cf_type : ECFAluOpCode;
  m_alu_slots : Z;
  m_fallback_chan : Z;
  m_extra_dependencies : list PRegister;
  m_parent_group : option GroupPtr
}.

(** Modelled from the spec: AluGroup (sfn_instr_alugroup), "fixed-capacity
    ordered collection of up to N AluInstr", tracking "a shared
    AluReadportReservation for the whole group". *)
Record AluGroup `{Readports} : Type := mkAluGroup {
  g_instrs : list InstrPtr;
  g_readport_reserer : AluReadportReservation;
  g_block_id : Z;
  g_index : Z
}.

(** What the lowering reads of a [nir_alu_instr]: the destination's
    SSA-ness, component count, write mask and saturate bit, and each
    source's negate and abs bits ([src_id] stands for the rest of the
    source, which only the value factory looks at). *)
Record nir_dest : Type := mk_nir_dest {
  is_ssa : bool;
  num_components : Z
}.

Record nir_alu_dest : Type := mk_nir_alu_dest {
  dest : nir_dest;
  write_mask : Z;
  saturate : bool
}.

Record nir_alu_src : Type := mk_nir_alu_src {
  src_id : Z;
  negate : bool;
  abs : bool
}.

Record nir_alu_instr : Type := mk_nir_alu_instr {
  alu_dest : nir_alu_dest;
  alu_src : list nir_alu_src
}.

(** The value factory and the slot test of a group.  [src_from_string]
    and [dest_from_string] answer null ([None]) for a text they cannot
    place. *)
Class Factory `{Values} `{OpTables} `{!Readports} : Type := {
  dummy_dest : Z -> World -> PRegister * World;
  src_from_string : string -> World -> option PVirtualValue * World;
  dest_from_string : string -> World -> option PRegister * World;
  (** [ValueFactory::dest(alu.dest.dest, i, pin)] and [src(src, i)] *)
  vf_dest : nir_dest -> Z -> Pin -> World -> PRegister * World;
  vf_src : nir_alu_src -> Z -> World -> PVirtualValue * World;
  (** whether [AluGroup::add_instruction] finds a slot and read ports *)
  group_accepts : World -> list AluInstr -> AluInstr -> bool
}.

Section Model.
Context `{V : Values} `{T : OpTables} `{R : !Readports} `{F : !Factory}.

(** *** Field updates *)

Definition with_alu_flags (fl : AluOpFlags) (i : AluInstr) : AluInstr :=
  mkAluInstr _ _ (m_opcode i) (m_lds_opcode i) (m_dest i) (m_src i) fl
    (m_bank_swizzle i) (m_cf_type i) (m_alu_slots i) (m_fallback_chan i)
    (m_extra_dependencies i) (m_parent_group i).

Definition with_src (src : list PVirtualValue) (i : AluInstr) : AluInstr :=
  mkAluInstr _ _ (m_opcode i) (m_lds_opcode i) (m_dest i) src (m_alu_flags i)
    (m_bank_swizzle i) (m_cf_type i) (m_alu_slots i) (m_fallback_chan i)
    (m_extra_dependencies i) (m_parent_group i).

Definition with_fallback_chan (c : Z) (i : AluInstr) : AluInstr :=
  mkAluInstr _ _ (m_opcode i) (m_lds_opcode i) (m_dest i) (m_src i) (m_alu_flags i)
    (m_bank_swizzle i) (m_cf_type i) (m_alu_slots i) c
    (m_extra_dependencies i) (m_parent_group i).

(** [set_bank_swizzle] and [set_cf_type] *)
Definition set_bank_swizzle (bs : AluBankSwizzle) (i : AluInstr) : AluInstr :=
  mkAluInstr _ _ (m_opcode i) (m_lds_opcode i) (m_dest i) (m_src i) (m_alu_flags i)
    bs (m_cf_type i) (m_alu_slots i) (m_fallback_chan i)
    (m_extra_dependencies i) (m_parent_group i).

Definition set_cf_type (cf : ECFAluOpCode) (i : AluInstr) : AluInstr :=
  mkAluInstr _ _ (m_opcode i) (m_lds_opcode i) (m_dest i) (m_src i) (m_alu_flags i)
    (m_bank_swizzle i) cf (m_alu_slots i) (m_fallback_chan i)
    (m_extra_dependencies i) (m_parent_group i).

(** [has_alu_flag], [set_alu_flag], [reset_alu_flag] *)
Definition has_alu_flag (i : AluInstr) (f : AluModifiers) : bool :=
  bool_decide (f ∈ m_alu_flags i).

Definition set_alu_flag (f : AluModifiers) (i : AluInstr) : AluInstr :=
  with_alu_flags (m_alu_flags i ∪ {[ f ]}) i.

Definition reset_alu_flag (f : AluModifiers) (i : AluInstr) : AluInstr :=
  with_alu_flags (m_alu_flags i ∖ {[ f ]}) i.

(** [dest_chan()]: the destination's channel, or the fallback channel. *)
Definition dest_chan (i : AluInstr) : Z :=
  match m_dest i with
  | Some d => chan d
  | None => m_fallback_chan i
  end.

(** *** The opcode tables *)

Fixpoint map_find {K A : Type} `{EqDecision K} (k : K) (l : list (K * A)) : option A :=
  match l with
  | [] => None
  | (k', a) :: l' => if decide (k' = k) then Some a else map_find k l'
  end.

(** [alu_ops.at(opcode)] throws when the table has no such key. *)
Definition alu_ops_at (opcode : EAluOp) : outcome AluOp :=
  match map_find opcode alu_ops with
  | Some d => Done d
  | None => Fault (Thrown "map::at")
  end.

Definition lds_ops_at (opcode : ESDOp) : outcome LDSOp :=
  match map_find opcode lds_ops with
  | Some d => Done d
  | None => Fault (Thrown "map::at")
  end.

(** [static_cast<size_t>] of an [int]. *)
Definition size_t_of_int (z : Z) : Z := z mod 2 ^ 64.

(** No [std::vector] of pointers is longer than this. *)
Definition SrcValues_max_size : Z := (2 ^ 63 - 1) / 8.

(** [static_cast<unsigned>] arithmetic. *)
Definition unsigned_of (z : Z) : Z := z mod 2 ^ 32.

(** *** update_uses *)

(** [if (addr && addr->as_register()) addr->as_register()->add_use(this)] *)
Definition add_use_of_addr (this : InstrPtr) (addr : option PVirtualValue)
    (w : World) : World :=
  match addr with
  | Some a =>
      match as_register a with
      | Some ar => add_use ar this w
      | None => w
      end
  | None => w
  end.

Definition update_uses_src (this : InstrPtr) (w : World) (s : PVirtualValue) : World :=
  let w1 :=
    match as_register s with
    | Some r =>
        let w' := add_use r this w in
        if decide (pin w' r = pin_array)
        then add_use_of_addr this (array_addr r) w'
        else w'
    | None => w
    end in
  match as_uniform s with
  | Some u => add_use_of_addr this (buf_addr u) w1
  | None => w1
  end.

Definition update_uses (this : InstrPtr) (i : AluInstr) (w : World) : World :=
  let w1 := fold_left (update_uses_src this) (m_src i) w in
  match m_dest i with
  | Some d =>
      if has_alu_flag i alu_write then
        let w2 := add_parent d this w1 in
        if decide (pin w2 d = pin_array)
        then add_use_of_addr this (array_addr d) w2
        else w2
      else w1
  | None => w1
  end.

(** *** Constructors

    [this] is the address the object is constructed at. *)

(** [AluInstr(EAluOp, PRegister, SrcValues, const std::set<AluModifiers>&, int)] *)
Definition AluInstr_ctor (this : InstrPtr) (opcode : EAluOp) (dest : option PRegister)
    (src : list PVirtualValue) (flags : AluOpFlags) (slots : Z) (w : World)
    : outcome (AluInstr * World) :=
  let op3 : AluOpFlags := if decide (length src = 3%nat) then {[ alu_op3 ]} else ∅ in
  let i :=
    mkAluInstr _ _ opcode m_lds_opcode_default dest src (op3 ∪ flags)
      alu_vec_unknown cf_alu slots 0 [] None in
  let? op := alu_ops_at opcode in
  if decide (Z.of_nat (length src) = size_t_of_int (nsrc op * slots)) then
    if has_alu_flag i alu_write && bool_decide (dest = None)
    then Fault (Thrown "Write flag is set, but no destination register is given")
    else Done (i, update_uses this i w)
  else Fault (Thrown "Unexpected number of source values").

(** [AluInstr(EAluOp opcode)]: [SrcValues(nsrc)] holds [nsrc] null pointers,
    which [update_uses] dereferences. *)
Definition AluInstr_ctor_op (this : InstrPtr) (opcode : EAluOp) (w : World)
    : outcome (AluInstr * World) :=
  let? op := alu_ops_at opcode in
  if decide (nsrc op = 0) then AluInstr_ctor this opcode None [] ∅ 1 w
  else if decide (nsrc op < 0) then Fault (Thrown "vector")
  else Fault (Undefined "null source").

(** [AluInstr(EAluOp opcode, int chan)] *)
Definition AluInstr_ctor_chan (this : InstrPtr) (opcode : EAluOp) (c : Z) (w : World)
    : outcome (AluInstr * World) :=
  let? (i, w') := AluInstr_ctor this opcode None [] ∅ 1 w in
  Done (with_fallback_chan c i, w').

(** The one-, two- and three-source constructors. *)
Definition AluInstr_ctor1 (this : InstrPtr) (opcode : EAluOp) (dest : option PRegister)
    (src0 : PVirtualValue) (m_flags : AluOpFlags) (w : World)
    : outcome (AluInstr * World) :=
  AluInstr_ctor this opcode dest [src0] m_flags 1 w.

Definition AluInstr_ctor2 (this : InstrPtr) (opcode : EAluOp) (dest : option PRegister)
    (src0 src1 : PVirtualValue) (m_flags : AluOpFlags) (w : World)
    : outcome (AluInstr * World) :=
  AluInstr_ctor this opcode dest [src0; src1] m_flags 1 w.

Definition AluInstr_ctor3 (this : InstrPtr) (opcode : EAluOp) (dest : option PRegister)
    (src0 src1 src2 : PVirtualValue) (m_flags : AluOpFlags) (w : World)
    : outcome (AluInstr * World) :=
  AluInstr_ctor this opcode dest [src0; src1; src2] m_flags 1 w.

(** The members an LDS constructor leaves to their default initialisers. *)
Definition AluInstr_lds_default (op : ESDOp) (src : list PVirtualValue)
    (flags : AluOpFlags) : AluInstr :=
  mkAluInstr _ _ m_opcode_default op None src flags alu_vec_unknown cf_alu 1 0 [] None.

(** [AluInstr(ESDOp op, PVirtualValue src0, PVirtualValue src1,
    PVirtualValue address)]; [src0] and [src1] may be null. *)
Definition AluInstr_ctor_lds (this : InstrPtr) (op : ESDOp)
    (src0 src1 : option PVirtualValue) (address : PVirtualValue) (w : World)
    : outcome (AluInstr * World) :=
  let src :=
    [address] ++
    match src0 with
    | Some s0 => [s0] ++ match src1 with Some s1 => [s1] | None => [] end
    | None => []
    end in
  let i := AluInstr_lds_default op src {[ alu_is_lds ]} in
  Done (i, update_uses this i w).

(** [AluInstr(ESDOp op, const SrcValues& src, const std::set<AluModifiers>& flags)] *)
Definition AluInstr_ctor_lds_src (this : InstrPtr) (op : ESDOp)
    (src : list PVirtualValue) (flags : AluOpFlags) (w : World)
    : outcome (AluInstr * World) :=
  let i := AluInstr_lds_default op src (flags ∪ {[ alu_is_lds ]}) in
  Done (i, update_uses this i w).

(** *** Copy-propagation legality *)

Definition can_copy_propagate (i : AluInstr) : bool :=
  if negb (bool_decide (m_opcode i = op1_mov)) then false
  else if has_alu_flag i alu_src0_abs || has_alu_flag i alu_src0_neg ||
          has_alu_flag i alu_dst_clamp then false
  else has_alu_flag i alu_write.

Definition pin_is (w : World) (v : PVirtualValue) (p : Pin) : bool :=
  bool_decide (pin w v = p).

Definition can_propagate_src (w : World) (i : AluInstr) : outcome bool :=
  if negb (can_copy_propagate i) then Done false
  else
    match m_src i !! 0%nat with
    | None => Fault (Undefined "m_src[0]")
    | Some s0 =>
        match as_register s0 with
        | None => Done true
        | Some src_reg =>
            match m_dest i with
            | None => Fault (AssertFailed "m_dest")
            | Some d =>
                if negb (has_flag_ssa d) then Done false
                else if pin_is w d pin_fully then Done (equal_to w d src_reg)
                else if pin_is w d pin_chan then
                  Done (pin_is w src_reg pin_none ||
                        (pin_is w src_reg pin_chan && bool_decide (chan src_reg = chan d)))
                else Done (pin_is w d pin_none || pin_is w d pin_free)
            end
        end
    end.

Definition can_propagate_dest (w : World) (i : AluInstr) : outcome bool :=
  if negb (can_copy_propagate i) then Done false
  else
    match m_src i !! 0%nat with
    | None => Fault (Undefined "m_src[0]")
    | Some s0 =>
        match as_register s0 with
        | None => Done false
        | Some src_reg =>
            match m_dest i with
            | None => Fault (AssertFailed "m_dest")
            | Some d =>
                if pin_is w src_reg pin_fully then Done false
                else if negb (has_flag_ssa src_reg) then Done false
                else if pin_is w src_reg pin_chan then
                  Done (pin_is w d pin_none || pin_is w d pin_free ||
                        ((pin_is w d pin_chan || pin_is w d pin_group) &&
                         bool_decide (chan src_reg = chan d)))
                else Done (pin_is w src_reg pin_none || pin_is w src_reg pin_free)
            end
        end
    end.

(** *** is_equal_to *)

Fixpoint srcs_equal_to (w : World) (a b : list PVirtualValue) : bool :=
  match a, b with
  | [], _ => true
  | x :: a', y :: b' => if negb (equal_to w x y) then false else srcs_equal_to w a' b'
  | _ :: _, [] => false
  end.

(** [i.is_equal_to(lhs)] *)
Definition is_equal_to (w : World) (i lhs : AluInstr) : bool :=
  if negb (bool_decide (m_opcode lhs = m_opcode i)) ||
     negb (bool_decide (m_bank_swizzle lhs = m_bank_swizzle i)) ||
     negb (bool_decide (m_cf_type lhs = m_cf_type i)) ||
     negb (bool_decide (m_alu_flags lhs = m_alu_flags i))
  then false
  else
    let dest_ok :=
      match m_dest i, m_dest lhs with
      | Some d, None => false
      | Some d, Some ld =>
          if has_alu_flag i alu_write then equal_to w d ld
          else bool_decide (chan d = chan ld)
      | None, Some _ => false
      | None, None => true
      end in
    if negb dest_ok then false
    else if negb (bool_decide (length (m_src i) = length (m_src lhs))) then false
    else srcs_equal_to w (m_src i) (m_src lhs).

(** *** do_ready *)

Definition src_ready (w : World) (this : InstrPtr) (s : PVirtualValue) : bool :=
  (match as_register s with
   | Some r => ready w r (block_id w this) (index w this)
   | None => true
   end) &&
  (match as_uniform s with
   | Some u =>
       match buf_addr u with
       | Some a =>
           match as_register a with
           | Some ar => ready w ar (block_id w this) (index w this)
           | None => true
           end
       | None => true
       end
   | None => true
   end).

Definition dest_ready (w : World) (this : InstrPtr) (d : PRegister) : bool :=
  (if pin_is w d pin_array then
     match array_addr d with
     | Some addr =>
         negb (negb (ready w addr (block_id w this) (index w this)) ||
               negb (ready w d (block_id w this) (index w this - 1)))
     | None => true
     end
   else true) &&
  forallb (fun u =>
             negb ((block_id w u <=? block_id w this) &&
                   (index w u <? index w this) &&
                   negb (is_scheduled w u)))
          (uses w d).

Definition do_ready (w : World) (this : InstrPtr) (i : AluInstr) : bool :=
  if negb (forallb (is_scheduled w) (required_instr w this)) then false
  else if negb (forallb (src_ready w this) (m_src i)) then false
  else if negb (match m_dest i with
                | Some d => if negb (has_flag_ssa d) then dest_ready w this d else true
                | None => true
                end) then false
  else forallb (fun r : PRegister => ready w r (block_id w this) (index w this))
               (m_extra_dependencies i).

(** *** do_print *)

(** [cf_map] and [bank_swizzle_map]: [find] answers [None] for a key the
    map does not hold. *)
Definition cf_map (cf : ECFAluOpCode) : option string :=
  match cf with
  | cf_alu_break => Some "BREAK"
  | cf_alu_continue => Some "CONT"
  | cf_alu_else_after => Some "ELSE_AFTER"
  | cf_alu_extended => Some "EXTENDED"
  | cf_alu_pop_after => Some "POP_AFTER"
  | cf_alu_pop2_after => Some "POP2_AFTER"
  | cf_alu_push_before => Some "PUSH_BEFORE"
  | cf_alu => None
  end.

Definition bank_swizzle_map (bs : AluBankSwizzle) : option string :=
  match bs with
  | alu_vec_012 => Some "VEC_012"
  | alu_vec_021 => Some "VEC_021"
  | alu_vec_102 => Some "VEC_102"
  | alu_vec_120 => Some "VEC_120"
  | alu_vec_201 => Some "VEC_201"
  | alu_vec_210 => Some "VEC_210"
  | alu_vec_unknown => None
  end.

(** [src_abs_flags[2]], [src_neg_flags[3]], [src_rel_flags[3]]: reading
    past the end of the array is undefined. *)
Definition src_abs_flags (k : nat) : outcome AluModifiers :=
  match k with
  | 0%nat => Done alu_src0_abs
  | 1%nat => Done alu_src1_abs
  | _ => Fault (Undefined "src_abs_flags")
  end.

Definition src_neg_flags (k : nat) : outcome AluModifiers :=
  match k with
  | 0%nat => Done alu_src0_neg
  | 1%nat => Done alu_src1_neg
  | 2%nat => Done alu_src2_neg
  | _ => Fault (Undefined "src_neg_flags")
  end.

Definition src_rel_flags (k : nat) : outcome AluModifiers :=
  match k with
  | 0%nat => Done alu_src0_rel
  | 1%nat => Done alu_src1_rel
  | 2%nat => Done alu_src2_rel
  | _ => Fault (Undefined "src_rel_flags")
  end.

(** [const char swzchar[] = "xyzw01?_"]: nine chars with the terminator. *)
Definition swzchar (c : Z) : outcome string :=
  if decide (0 <= c < 8) then
    match String.get (Z.to_nat c) "xyzw01?_" with
    | Some a => Done (String a "")
    | None => Fault (Undefined "swzchar")
    end
  else if decide (c = 8) then Done (String Ascii.zero "")
  else Fault (Undefined "swzchar").

(** The print flags of source [k] of a slot, at position [i] of [m_src]:
    [has_neg] and [has_abs] ([is_rel] is computed and not printed). *)
Definition src_marks (instr : AluInstr) (k i : nat) : outcome (bool * bool) :=
  let? nf := src_neg_flags k in
  let? rf := src_rel_flags k in
  let has_neg := has_alu_flag instr nf in
  let is_rel := has_alu_flag instr rf in
  let? has_abs :=
    if (i <? 2)%nat then
      let? af := src_abs_flags k in Done (has_alu_flag instr af)
    else Done false in
  Done (has_neg, has_abs).

(** A source as printed: [-] for negate, [|...|] for abs. *)
Definition src_token (w : World) (v : PVirtualValue) (has_neg has_abs : bool) : string :=
  (if has_neg then "-" else "") +:+
  (if has_abs then "|" else "") +:+
  print_value w v +:+
  (if has_abs then "|" else "").

(** The body of the inner loop. *)
Definition print_src (w : World) (instr : AluInstr) (k i : nat) : outcome string :=
  let? (has_neg, has_abs) := src_marks instr k i in
  match m_src instr !! i with
  | None => Fault (Undefined "m_src[i]")
  | Some v =>
      Done ((if bool_decide (i = 0%nat) then "" else " ") +:+
            src_token w v has_neg has_abs)
  end.

(** The inner loop from [k], [n] sources to go; answers the text and the
    position [i] reached. *)
Fixpoint print_slot (w : World) (instr : AluInstr) (n k i : nat)
    : outcome (string * nat) :=
  match n with
  | O => Done ("", i)
  | S n' =>
      let? t := print_src w instr k i in
      let? (rest, i') := print_slot w instr n' (S k) (S i) in
      Done (t +:+ rest, i')
  end.

(** The outer loop from slot [s], [slots] slots to go. *)
Fixpoint print_slots (w : World) (instr : AluInstr) (n_source_per_slot : nat)
    (slots s i : nat) : outcome string :=
  match slots with
  | O => Done ""
  | S slots' =>
      let? (t, i') := print_slot w instr n_source_per_slot 0 i in
      let? rest := print_slots w instr n_source_per_slot slots' (S s) i' in
      Done ((if bool_decide (s = 0%nat) then "" else " +") +:+ t +:+ rest)
  end.

(** A destination as printed: the register when the instruction writes
    it, and otherwise the blank name with the channel and the pin. *)
Definition dest_token (w : World) (instr : AluInstr) (d : PRegister) : outcome string :=
  let? head :=
    if has_alu_flag instr alu_write then Done (print_value w d)
    else let? c := swzchar (chan d) in Done ("__" +:+ "." +:+ c) in
  Done (head +:+
        (if negb (has_alu_flag instr alu_write) && negb (pin_is w d pin_none)
         then "@" +:+ print_pin (pin w d) else "")).

Definition print_dest (w : World) (instr : AluInstr) : outcome string :=
  match m_dest instr with
  | Some d =>
      let? t := dest_token w instr d in
      Done (" " +:+ t +:+ " : ")
  | None =>
      let? c := swzchar (dest_chan instr) in
      Done ("__." +:+ c +:+ " : ")
  end.

Definition print_flags (instr : AluInstr) : string :=
  " {" +:+
  (if has_alu_flag instr alu_write then "W" else "") +:+
  (if has_alu_flag instr alu_last_instr then "L" else "") +:+
  (if has_alu_flag instr alu_update_exec then "E" else "") +:+
  (if has_alu_flag instr alu_update_pred then "P" else "") +:+
  "}".

Definition print_tail (instr : AluInstr) : string :=
  print_flags instr +:+
  (match bank_swizzle_map (m_bank_swizzle instr) with
   | Some bs_name => " " +:+ bs_name
   | None => ""
   end) +:+
  (match cf_map (m_cf_type instr) with
   | Some cf_name => " " +:+ cf_name
   | None => ""
   end).

Definition do_print (w : World) (instr : AluInstr) : outcome string :=
  let? head :=
    if has_alu_flag instr alu_is_lds then
      let? op := lds_ops_at (m_lds_opcode instr) in
      Done ("LDS " +:+ lds_name op +:+ " __.x : ")
    else
      let? op := alu_ops_at (m_opcode instr) in
      let? d := print_dest w instr in
      Done (name op +:+
            (if has_alu_flag instr alu_dst_clamp then " CLAMP" else "") +:+ d) in
  let? n_source_per_slot :=
    if has_alu_flag instr alu_is_lds then Done (Z.of_nat (length (m_src instr)))
    else let? op := alu_ops_at (m_opcode instr) in Done (nsrc op) in
  let? srcs :=
    print_slots w instr (Z.to_nat n_source_per_slot)
      (Z.to_nat (m_alu_slots instr)) 0 0 in
  Done ("ALU " +:+ head +:+ srcs +:+ print_tail instr).

(** *** The machine state

    The instruction and group arenas, the collaborators' [World], the two
    file-level name tables of [from_string], and the shader's stream. *)

(** [struct OpDescr]: the union keeps which member was written. *)
Inductive OpDescr_opcode : Type :=
  | alu_opcode (o : EAluOp)
  | lds_opcode (o : ESDOp).

Record OpDescr : Type := mkOpDescr {
  OpDescr_op : OpDescr_opcode;
  OpDescr_nsrc : Z
}.

Record Machine : Type := mkMachine {
  objs : list AluInstr;
  groups : list AluGroup;
  world : World;
  s_alu_map_by_name : gmap string OpDescr;
  s_lds_map_by_name : gmap string OpDescr;
  (** Modelled from the spec: the shader's instruction stream, which
      [Shader::emit_instruction] appends to. *)
  shader_instrs : list InstrPtr
}.

Definition M (A : Type) : Type := Machine -> outcome (A * Machine).

Definition mret {A : Type} (a : A) : M A := fun m => Done (a, m).

Definition mbind {A B : Type} (x : M A) (k : A -> M B) : M B :=
  fun m =>
    match x m with
    | Done (a, m') => k a m'
    | Fault f => Fault f
    end.

Notation "'let*' x ':=' e 'in' k" := (mbind e (fun x => k))
  (at level 10, x pattern, e at level 100, k at level 200).

Definition mfault {A : Type} (f : fault) : M A := fun _ => Fault f.

Definition lift {A : Type} (x : outcome A) : M A :=
  fun m => match x with Done a => Done (a, m) | Fault f => Fault f end.

Definition with_world (w : World) (m : Machine) : Machine :=
  mkMachine (objs m) (groups m) w (s_alu_map_by_name m) (s_lds_map_by_name m)
    (shader_instrs m).

Definition with_objs (o : list AluInstr) (m : Machine) : Machine :=
  mkMachine o (groups m) (world m) (s_alu_map_by_name m) (s_lds_map_by_name m)
    (shader_instrs m).

Definition with_groups (g : list AluGroup) (m : Machine) : Machine :=
  mkMachine (objs m) g (world m) (s_alu_map_by_name m) (s_lds_map_by_name m)
    (shader_instrs m).

Definition with_alu_map (t : gmap string OpDescr) (m : Machine) : Machine :=
  mkMachine (objs m) (groups m) (world m) t (s_lds_map_by_name m) (shader_instrs m).

Definition with_shader_instrs (l : list InstrPtr) (m : Machine) : Machine :=
  mkMachine (objs m) (groups m) (world m) (s_alu_map_by_name m)
    (s_lds_map_by_name m) l.

(** Read the world, or run a collaborator's operation on it. *)
Definition get_world : M World := fun m => Done (world m, m).

Definition on_world {A : Type} (f : World -> A * World) : M A :=
  fun m => let '(a, w') := f (world m) in Done (a, with_world w' m).

Definition update_world (f : World -> World) : M unit :=
  fun m => Done (tt, with_world (f (world m)) m).

(** [*p] for an instruction and for a group pointer. *)
Definition read_instr (p : InstrPtr) : M AluInstr :=
  fun m =>
    match objs m !! p with
    | Some i => Done (i, m)
    | None => Fault (Undefined "dangling AluInstr pointer")
    end.

Definition modify_instr (p : InstrPtr) (f : AluInstr -> AluInstr) : M unit :=
  fun m =>
    match objs m !! p with
    | Some i => Done (tt, with_objs (<[p := f i]> (objs m)) m)
    | None => Fault (Undefined "dangling AluInstr pointer")
    end.

Definition read_group (g : GroupPtr) : M AluGroup :=
  fun m =>
    match groups m !! g with
    | Some x => Done (x, m)
    | None => Fault (Undefined "dangling AluGroup pointer")
    end.

Definition modify_group (g : GroupPtr) (f : AluGroup -> AluGroup) : M unit :=
  fun m =>
    match groups m !! g with
    | Some x => Done (tt, with_groups (<[g := f x]> (groups m)) m)
    | None => Fault (Undefined "dangling AluGroup pointer")
    end.

(** [new AluInstr(...)]: the object is constructed at the next free index
    of the arena. *)
Definition new_AluInstr (ctor : InstrPtr -> World -> outcome (AluInstr * World))
    : M InstrPtr :=
  fun m =>
    let this := length (objs m) in
    match ctor this (world m) with
    | Done (i, w') => Done (this, with_world w' (with_objs (objs m ++ [i]) m))
    | Fault f => Fault f
    end.

(** [new AluGroup()] *)
Definition new_AluGroup : M GroupPtr :=
  fun m =>
    Done (length (groups m),
          with_groups (groups m ++ [mkAluGroup _ _ [] new_reservation 0 0]) m).

(** Modelled from the spec: [AluGroup::add_instruction], answering a bool,
    "false if slot/port conflict"; an accepted instruction takes the next
    place of the group. *)
Definition add_instruction (g : GroupPtr) (p : InstrPtr) : M bool :=
  fun m =>
    match groups m !! g, objs m !! p with
    | Some grp, Some instr =>
        let members := omap (fun q => objs m !! q) (g_instrs grp) in
        if group_accepts (world m) members instr then
          Done (true,
                with_groups
                  (<[g := mkAluGroup _ _ (g_instrs grp ++ [p]) (g_readport_reserer grp)
                            (g_block_id grp) (g_index grp)]> (groups m)) m)
        else Done (false, m)
    | _, _ => Fault (Undefined "dangling pointer")
    end.

(** The instructions a group holds, in the order they were added. *)
Definition group_members (m : Machine) (g : GroupPtr) : list AluInstr :=
  match groups m !! g with
  | Some grp => omap (fun p => objs m !! p) (g_instrs grp)
  | None => []
  end.

(** Modelled from the spec: [Shader::emit_instruction] puts the
    instruction at the end of the shader's instruction stream. *)
Definition emit_instruction (p : InstrPtr) : M unit :=
  fun m => Done (tt, with_shader_instrs (shader_instrs m ++ [p]) m).

(** *** check_readport_validation and replace_source *)

(** The sources of slot [s], read one by one as [m_src[k + nsrc * s]];
    an index past the end is undefined. *)
Fixpoint slot_sources (src : list PVirtualValue) (nsrc s : nat) (n k : nat)
    : outcome (list PVirtualValue) :=
  match n with
  | O => Done []
  | S n' =>
      match src !! (k + nsrc * s)%nat with
      | None => Fault (Undefined "m_src[i + nsrc * s]")
      | Some v =>
          let? rest := slot_sources src nsrc s n' (S k) in
          Done (v :: rest)
      end
  end.

(** The bank-swizzle loop of [check_readport_validation]: each trial starts
    from a copy of [rpr_sum]; a failed trial clears [success] for good. *)
Fixpoint check_slot_swizzles (srcs : list PVirtualValue) (nsrc : Z)
    (bss : list AluBankSwizzle) (rpr_sum : AluReadportReservation) (success : bool)
    : AluReadportReservation * bool :=
  match bss with
  | [] => (rpr_sum, success)
  | bs :: rest =>
      let '(ok, rpr) := schedule_vec_src rpr_sum srcs nsrc bs in
      if ok then (rpr, success)
      else check_slot_swizzles srcs nsrc rest rpr_sum false
  end.

Fixpoint check_slots (w : World) (src : list PVirtualValue) (old_src : PRegister)
    (new_src : PVirtualValue) (nsrc : nat) (slots s : nat)
    (rpr_sum : AluReadportReservation) (success : bool) : outcome bool :=
  match slots with
  | O => Done success
  | S slots' =>
      if success then
        let? ireg := slot_sources src nsrc s nsrc 0 in
        let sv := map (fun v => if equal_to w old_src v then new_src else v) ireg in
        let '(rpr_sum', success') :=
          check_slot_swizzles sv (Z.of_nat nsrc) (bank_swizzles_from alu_vec_012)
            rpr_sum success in
        check_slots w src old_src new_src nsrc slots' (S s) rpr_sum' success'
      else Done success
  end.

Definition check_readport_validation (w : World) (i : AluInstr)
    (old_src : PRegister) (new_src : PVirtualValue) : outcome bool :=
  if (length (m_src i) <? 3)%nat then Done true
  else
    let? op := alu_ops_at (m_opcode i) in
    let nsrc := unsigned_of (nsrc op) in
    if negb (bool_decide (unsigned_of (nsrc * m_alu_slots i) = Z.of_nat (length (m_src i))))
    then Fault (AssertFailed "nsrc * m_alu_slots == m_src.size()")
    else if bool_decide (3 < nsrc) && bool_decide (0 < m_alu_slots i)
    then Fault (Undefined "s[3]")
    else
      check_slots w (m_src i) old_src new_src (Z.to_nat nsrc)
        (Z.to_nat (m_alu_slots i)) 0 new_reservation true.

(** The bank-swizzle loop of [replace_source]: the one reservation is
    handed from trial to trial. *)
Fixpoint try_swizzles (srcs : list PVirtualValue) (nsrc : Z)
    (bss : list AluBankSwizzle) (read_port_check : AluReadportReservation)
    : bool * AluReadportReservation :=
  match bss with
  | [] => (false, read_port_check)
  | bs :: rest =>
      let '(ok, rpc) := schedule_vec_src read_port_check srcs nsrc bs in
      if ok then (true, rpc) else try_swizzles srcs nsrc rest rpc
  end.

Fixpoint replace_source_slots (w : World) (src : list PVirtualValue)
    (old_src : PRegister) (new_src : PVirtualValue) (nsrc : Z) (slots s : nat)
    (read_port_check : AluReadportReservation)
    : outcome (bool * AluReadportReservation) :=
  match slots with
  | O => Done (true, read_port_check)
  | S slots' =>
      if bool_decide (3 < nsrc) then Fault (Undefined "src[3]")
      else
        let? old_s := slot_sources src (Z.to_nat nsrc) s (Z.to_nat nsrc) 0 in
        let sv := map (fun v => if equal_to w v old_src then new_src else v) old_s in
        let '(ok, rpc) :=
          try_swizzles sv nsrc (bank_swizzles_from alu_vec_012) read_port_check in
        if ok then replace_source_slots w src old_src new_src nsrc slots' (S s) rpc
        else Done (false, rpc)
  end.

(** "can't have two different indirect addresses in the same instr" *)
Definition has_other_addr (w : World) (i : AluInstr) (new_src : PVirtualValue) : bool :=
  match get_addr new_src with
  | Some na =>
      existsb (fun s =>
                 match get_addr s with
                 | Some addr => negb (equal_to w addr na)
                 | None => false
                 end) (m_src i)
  | None => false
  end.

(** "We don't allow src and dst with rel and different indirect register
    addresses" *)
Definition dest_addr_differs (w : World) (i : AluInstr) (new_src : PVirtualValue) : bool :=
  match m_dest i with
  | Some d =>
      if pin_is w d pin_array && pin_is w new_src pin_array then
        match array_addr d, array_addr new_src with
        | Some dav, Some sav =>
            bool_decide (is_Some (as_register dav)) && negb (equal_to w dav sav)
        | _, _ => false
        end
      else false
  | None => false
  end.

(** "Check the readports": the block that runs when the instruction has
    more than two sources or sits in a group. *)
Definition replace_source_ports (i : AluInstr) (old_src : PRegister)
    (new_src : PVirtualValue) (w : World) (op : AluOp) : M bool :=
  if bool_decide (2 < m_alu_slots i * nsrc op) ||
     bool_decide (is_Some (m_parent_group i)) then
    let* read_port_check :=
      match m_parent_group i with
      | None => mret new_reservation
      | Some g => let* grp := read_group g in mret (g_readport_reserer grp)
      end in
    let* (ok, rpc) :=
      lift (replace_source_slots w (m_src i) old_src new_src (nsrc op)
              (Z.to_nat (m_alu_slots i)) 0 read_port_check) in
    if ok then
      match m_parent_group i with
      | Some g =>
          let* _ := modify_group g (fun grp =>
            mkAluGroup _ _ (g_instrs grp) rpc (g_block_id grp) (g_index grp)) in
          mret true
      | None => mret true
      end
    else mret false
  else mret true.

(** The last part: every matching slot takes [new_src], and the use lists
    follow when a slot changed. *)
Definition replace_source_apply (this : InstrPtr) (i : AluInstr)
    (old_src : PRegister) (new_src : PVirtualValue) (w : World) : M bool :=
  let process := existsb (equal_to w old_src) (m_src i) in
  let* _ := modify_instr this
              (with_src (map (fun s => if equal_to w old_src s then new_src else s)
                             (m_src i))) in
  if process then
    let* _ := update_world (fun w =>
                let w1 := match as_register new_src with
                          | Some r => add_use r this w
                          | None => w
                          end in
                del_use old_src this w1) in
    mret true
  else mret false.

Definition replace_source (this : InstrPtr) (old_src : PRegister)
    (new_src : PVirtualValue) : M bool :=
  let* i := read_instr this in
  let* w := get_world in
  let* valid := lift (check_readport_validation w i old_src new_src) in
  if negb valid then mret false
  else if pin_is w old_src pin_array then mret false
  else if has_other_addr w i new_src then mret false
  else if dest_addr_differs w i new_src then mret false
  else
    let* op := lift (alu_ops_at (m_opcode i)) in
    let* ports := replace_source_ports i old_src new_src w op in
    if negb ports then mret false
    else replace_source_apply this i old_src new_src w.

(** *** split *)

(** "Make it easy for the scheduler and pin the register to the channel" *)
Definition pin_split_source (old_src : PVirtualValue) (w : World) : World :=
  match as_register old_src with
  | Some r =>
      if pin_is w r pin_free || pin_is w r pin_none then set_pin r pin_chan w
      else if pin_is w r pin_group then set_pin r pin_chgr w
      else w
  | None => w
  end.

(** The source loop of one slot: [n] sources to go from [k]. *)
Fixpoint split_slot_sources (src : list PVirtualValue) (nsrc s : nat) (n k : nat)
    (w : World) : outcome (list PVirtualValue * World) :=
  match n with
  | O => Done ([], w)
  | S n' =>
      match src !! (s * nsrc + k)%nat with
      | None => Fault (Undefined "m_src[s * nsrc + i]")
      | Some old_src =>
          let? (rest, w') :=
            split_slot_sources src nsrc s n' (S k) (pin_split_source old_src w) in
          Done (old_src :: rest, w')
      end
  end.

(** The flags [split] copies onto the instruction of slot [s]. *)
Definition split_copy_flags (i : AluInstr) (s : Z) (instr : AluInstr) : AluInstr :=
  let instr1 :=
    if bool_decide (s = 0) || negb (has_alu_flag i alu_64bit_op) then
      let a := if has_alu_flag i alu_src0_neg then set_alu_flag alu_src0_neg instr else instr in
      let b := if has_alu_flag i alu_src1_neg then set_alu_flag alu_src1_neg a else a in
      let c := if has_alu_flag i alu_src2_neg then set_alu_flag alu_src2_neg b else b in
      let d := if has_alu_flag i alu_src0_abs then set_alu_flag alu_src0_abs c else c in
      if has_alu_flag i alu_src1_abs then set_alu_flag alu_src1_abs d else d
    else instr in
  if has_alu_flag i alu_dst_clamp then set_alu_flag alu_dst_clamp instr1 else instr1.

(** The body of the slot loop. *)
Definition split_slot (this : InstrPtr) (group : GroupPtr) (i : AluInstr)
    (m_dest_reg : PRegister) (s : Z) : M unit :=
  let* dst :=
    if bool_decide (chan m_dest_reg = s) then mret m_dest_reg
    else on_world (dummy_dest s) in
  let* _ := update_world (fun w =>
    if negb (pin_is w dst pin_chgr) then
      set_pin dst
        (if pin_is w dst pin_group && bool_decide (chan m_dest_reg = s)
         then pin_chgr else pin_chan) w
    else w) in
  let* op := lift (alu_ops_at (m_opcode i)) in
  let* w := get_world in
  let* (src, w') :=
    lift (split_slot_sources (m_src i) (Z.to_nat (nsrc op)) (Z.to_nat s)
            (Z.to_nat (nsrc op)) 0 w) in
  let* _ := update_world (fun _ => w') in
  let* instr :=
    new_AluInstr (fun p w => AluInstr_ctor p (m_opcode i) (Some dst) src ∅ 1 w) in
  let* _ := update_world (fun w => set_blockid instr (block_id w this) (index w this) w) in
  let* _ := modify_instr instr (split_copy_flags i s) in
  let* _ :=
    if bool_decide (s = chan m_dest_reg)
    then modify_instr instr (set_alu_flag alu_write)
    else mret tt in
  let* _ := update_world (add_parent m_dest_reg instr) in
  let* added := add_instruction group instr in
  if negb added then mfault (Unreachable "Invalid group instruction")
  else mret tt.

Fixpoint split_slots (this : InstrPtr) (group : GroupPtr) (i : AluInstr)
    (m_dest_reg : PRegister) (slots : nat) (s : Z) : M unit :=
  match slots with
  | O => mret tt
  | S slots' =>
      let* _ := split_slot this group i m_dest_reg s in
      split_slots this group i m_dest_reg slots' (s + 1)
  end.

Definition split (this : InstrPtr) : M (option GroupPtr) :=
  let* i := read_instr this in
  if bool_decide (m_alu_slots i = 1) then mret None
  else
    let* group := new_AluGroup in
    match m_dest i with
    | None => mfault (Undefined "m_dest->del_parent")
    | Some d =>
        let* _ := update_world (del_parent d this) in
        let* _ := split_slots this group i d (Z.to_nat (m_alu_slots i)) 0 in
        let* w := get_world in
        let* _ := modify_group group (fun grp =>
          mkAluGroup _ _ (g_instrs grp) (g_readport_reserer grp)
            (block_id w this) (index w this)) in
        let* _ := update_world (fun w =>
          fold_left (fun w s =>
                       match as_register s with
                       | Some r => del_use r this w
                       | None => w
                       end) (m_src i) w) in
        mret (Some group)
    end.

(** The body of the slot loop up to the call of [add_instruction]: the
    instruction of slot [s] as the group is offered it. *)
Definition split_slot_build (this : InstrPtr) (i : AluInstr)
    (m_dest_reg : PRegister) (s : Z) : M InstrPtr :=
  let* dst :=
    if bool_decide (chan m_dest_reg = s) then mret m_dest_reg
    else on_world (dummy_dest s) in
  let* _ := update_world (fun w =>
    if negb (pin_is w dst pin_chgr) then
      set_pin dst
        (if pin_is w dst pin_group && bool_decide (chan m_dest_reg = s)
         then pin_chgr else pin_chan) w
    else w) in
  let* op := lift (alu_ops_at (m_opcode i)) in
  let* w := get_world in
  let* (src, w') :=
    lift (split_slot_sources (m_src i) (Z.to_nat (nsrc op)) (Z.to_nat s)
            (Z.to_nat (nsrc op)) 0 w) in
  let* _ := update_world (fun _ => w') in
  let* instr :=
    new_AluInstr (fun p w => AluInstr_ctor p (m_opcode i) (Some dst) src ∅ 1 w) in
  let* _ := update_world (fun w => set_blockid instr (block_id w this) (index w this) w) in
  let* _ := modify_instr instr (split_copy_flags i s) in
  let* _ :=
    if bool_decide (s = chan m_dest_reg)
    then modify_instr instr (set_alu_flag alu_write)
    else mret tt in
  let* _ := update_world (add_parent m_dest_reg instr) in
  mret instr.

(** Whether [group->add_instruction(instr)] answers true each time the
    slot loop calls it: slot by slot, the instruction built is offered to
    the group as it then is, in the world as it then is.  A slot that
    cannot be built makes no offer. *)
Fixpoint split_offers_accepted (this : InstrPtr) (group : GroupPtr) (i : AluInstr)
    (m_dest_reg : PRegister) (slots : nat) (s : Z) (m : Machine) : bool :=
  match slots with
  | O => true
  | S slots' =>
      match split_slot_build this i m_dest_reg s m with
      | Done (instr, m1) =>
          match add_instruction group instr m1 with
          | Done (true, m2) =>
              split_offers_accepted this group i m_dest_reg slots' (s + 1) m2
          | Done (false, _) => false
          | Fault _ => true
          end
      | Fault _ => true
      end
  end.

(** The same for a call of [split]: the offers of the slot loop, begun
    with the new group and the destination's parent taken out. *)
Definition split_accepted (this : InstrPtr) (m : Machine) : bool :=
  match objs m !! this with
  | Some i =>
      match m_dest i, new_AluGroup m with
      | Some d, Done (group, m1) =>
          split_offers_accepted this group i d (Z.to_nat (m_alu_slots i)) 0
            (with_world (del_parent d this (world m1)) m1)
      | _, _ => true
      end
  | None => true
  end.

(** *** emit_alu_op2 *)

Definition pin_for_components (alu : nir_alu_instr) : Pin :=
  if is_ssa (dest (alu_dest alu)) &&
     bool_decide (num_components (dest (alu_dest alu)) = 1)
  then pin_free else pin_none.

(** [alu.dest.write_mask & (1 << i)] *)
Definition enabled_bit (alu : nir_alu_instr) (i : Z) : bool :=
  bool_decide (Z.land (write_mask (alu_dest alu)) (Z.shiftl 1 i) <> 0).

(** The destination components the write mask enables, in loop order. *)
Definition enabled_components (alu : nir_alu_instr) : list Z :=
  List.filter (enabled_bit alu)
    (map Z.of_nat (seq 0 (Z.to_nat (num_components (dest (alu_dest alu)))))).

(** The body of the component loop; [ir] is the last instruction built. *)
Definition emit_alu_op2_comp (alu : nir_alu_instr) (opcode : EAluOp)
    (src0 src1 : nir_alu_src) (src1_negate : bool) (pin : Pin) (i : Z)
    (ir : option InstrPtr) : M (option InstrPtr) :=
  if enabled_bit alu i then
    let* d := on_world (vf_dest (dest (alu_dest alu)) i pin) in
    let* s0 := on_world (vf_src src0 i) in
    let* s1 := on_world (vf_src src1 i) in
    let* p := new_AluInstr (fun this w =>
                AluInstr_ctor2 this opcode (Some d) s0 s1 {[ alu_write ]} w) in
    let* _ := if negate src0 then modify_instr p (set_alu_flag alu_src0_neg) else mret tt in
    let* _ := if abs src0 then modify_instr p (set_alu_flag alu_src0_abs) else mret tt in
    let* _ := if src1_negate then modify_instr p (set_alu_flag alu_src1_neg) else mret tt in
    let* _ := if abs src1 then modify_instr p (set_alu_flag alu_src1_abs) else mret tt in
    let* _ := if saturate (alu_dest alu)
              then modify_instr p (set_alu_flag alu_dst_clamp) else mret tt in
    let* _ := emit_instruction p in
    mret (Some p)
  else mret ir.

Fixpoint emit_alu_op2_loop (alu : nir_alu_instr) (opcode : EAluOp)
    (src0 src1 : nir_alu_src) (src1_negate : bool) (pin : Pin) (n : nat) (i : Z)
    (ir : option InstrPtr) : M (option InstrPtr) :=
  match n with
  | O => mret ir
  | S n' =>
      let* ir' := emit_alu_op2_comp alu opcode src0 src1 src1_negate pin i ir in
      emit_alu_op2_loop alu opcode src0 src1 src1_negate pin n' (i + 1) ir'
  end.

Definition emit_alu_op2 (alu : nir_alu_instr) (opcode : EAluOp) (opts : Z) : M bool :=
  match alu_src alu !! 0%nat, alu_src alu !! 1%nat with
  | Some a0, Some a1 =>
      let reverse := bool_decide (Z.land opts op2_opt_reverse <> 0) in
      let src0 := if reverse then a1 else a0 in
      let src1 := if reverse then a0 else a1 in
      let src1_negate :=
        bool_decide (Z.lxor (Z.land opts op2_opt_neg_src1) (Z.b2z (negate src1)) <> 0) in
      let pin := pin_for_components alu in
      let* ir :=
        emit_alu_op2_loop alu opcode src0 src1 src1_negate pin
          (Z.to_nat (num_components (dest (alu_dest alu)))) 0 None in
      let* _ :=
        match ir with
        | Some p => modify_instr p (set_alu_flag alu_last_instr)
        | None => mret tt
        end in
      mret true
  | _, _ => mfault (Undefined "alu.src")
  end.

(** [from_nir], case [nir_op_fadd] of an instruction that is not a 64 bit
    operation: [emit_alu_op2] with its default options. *)
Definition from_nir_fadd (alu : nir_alu_instr) : M bool :=
  emit_alu_op2 alu op2_add op2_opt_none.

(** *** from_string *)

(** What [operator>>] skips between tokens. *)
Definition is_space (c : ascii) : bool :=
  let n := N_of_ascii c in
  ((n =? 32) || ((9 <=? n) && (n <=? 13)))%N.

(** The token loop: [cur] is the token being read. *)
Fixpoint tokenize_from (cur : string) (s : string) : list string :=
  match s with
  | EmptyString => if bool_decide (cur = "") then [] else [cur]
  | String c r =>
      if is_space c then
        if bool_decide (cur = "") then tokenize_from "" r
        else cur :: tokenize_from "" r
      else tokenize_from (cur +:+ String c "") r
  end.

Definition tokenize (s : string) : list string := tokenize_from "" s.

(** [srcstr[0] == c] *)
Definition starts_with (c : ascii) (s : string) : bool :=
  match s with
  | String a _ => bool_decide (a = c)
  | EmptyString => false
  end.

(** The opcode lookup of a regular instruction: the name table first, then
    the first row of [alu_ops] with that name, which is entered in the name
    table. *)
Fixpoint find_alu_by_name (opstr : string) (l : list (EAluOp * AluOp)) : option OpDescr :=
  match l with
  | [] => None
  | (opcode, opdescr) :: l' =>
      if bool_decide (opstr = name opdescr)
      then Some (mkOpDescr (alu_opcode opcode) (nsrc opdescr))
      else find_alu_by_name opstr l'
  end.

Fixpoint find_lds_by_name (opstr : string) (l : list (ESDOp * LDSOp)) : option OpDescr :=
  match l with
  | [] => None
  | (opcode, opdescr) :: l' =>
      if bool_decide (opstr = lds_name opdescr)
      then Some (mkOpDescr (lds_opcode opcode) (lds_nsrc opdescr))
      else find_lds_by_name opstr l'
  end.

(** Both branches enter what they find in [s_alu_map_by_name]. *)
Definition lookup_op (is_lds : bool) (opstr : string) : M OpDescr :=
  fun m =>
    let memo := if is_lds then s_lds_map_by_name m else s_alu_map_by_name m in
    match memo !! opstr with
    | Some d => Done (d, m)
    | None =>
        let found :=
          if is_lds then find_lds_by_name opstr lds_ops
          else find_alu_by_name opstr alu_ops in
        match found with
        | Some d =>
            if bool_decide (OpDescr_nsrc d = -1)
            then Fault (Unreachable "Unknown opcode")
            else Done (d, with_alu_map (<[opstr := d]> (s_alu_map_by_name m)) m)
        | None => Fault (Unreachable "Unknown opcode")
        end
    end.

(** The leading [-] of a source token: in the first slot it sets the
    negate flag of source [i], in a later slot the flag is asserted. *)
Definition strip_neg (i : nat) (slots : Z) (srcstr : string) (flags : AluOpFlags)
    : outcome (string * AluOpFlags) :=
  if starts_with "-" srcstr then
    let? nf := src_neg_flags i in
    if bool_decide (slots = 0) then
      Done (substring 1 (String.length srcstr - 1) srcstr, flags ∪ {[ nf ]})
    else if bool_decide (nf ∈ flags) then
      Done (substring 1 (String.length srcstr - 1) srcstr, flags)
    else Fault (AssertFailed "src_neg_flags")
  else Done (srcstr, flags).

(** The enclosing [|...|], likewise for the abs flag. *)
Definition strip_abs (i : nat) (slots : Z) (srcstr : string) (flags : AluOpFlags)
    : outcome (string * AluOpFlags) :=
  if starts_with "|" srcstr then
    if negb (bool_decide (String.get (String.length srcstr - 1) srcstr = Some "|"%char))
    then Fault (AssertFailed "srcstr[srcstr.length() - 1] == '|'")
    else
      let? af := src_abs_flags i in
      if bool_decide (slots = 0) then
        Done (substring 1 (String.length srcstr - 2) srcstr, flags ∪ {[ af ]})
      else if bool_decide (af ∈ flags) then
        Done (substring 1 (String.length srcstr - 2) srcstr, flags)
      else Fault (AssertFailed "src_abs_flags")
  else Done (srcstr, flags).

(** One source token: the [-] and [|...|] marks, then the value factory. *)
Definition parse_src (i : nat) (slots : Z) (srcstr : string) (flags : AluOpFlags)
    (w : World) : outcome (PVirtualValue * AluOpFlags * World) :=
  let? (srcstr1, flags1) := strip_neg i slots srcstr flags in
  let? (srcstr2, flags2) := strip_abs i slots srcstr1 flags1 in
  match src_from_string srcstr2 w with
  | (Some src, w') => Done (src, flags2, w')
  | (None, _) => Fault (AssertFailed "src")
  end.

(** The source loop of one slot: [n] sources to go from [i]; [t] is the
    token cursor. *)
Fixpoint parse_slot (n i : nat) (slots : Z) (t : list string) (flags : AluOpFlags)
    (sources : list PVirtualValue) (w : World)
    : outcome (list string * AluOpFlags * list PVirtualValue * World) :=
  match n with
  | O => Done (t, flags, sources, w)
  | S n' =>
      match t with
      | [] => Fault (Undefined "*t++")
      | srcstr :: t' =>
          let? (src, flags', w') := parse_src i slots srcstr flags w in
          parse_slot n' (S i) slots t' flags' (sources ++ [src]) w'
      end
  end.

(** The [do ... while (t != tokens.end() && *t == "+")] loop; every round
    steps over one token, so [fuel] rounds suffice for [fuel] tokens. *)
Fixpoint parse_slots (fuel : nat) (nsrc : Z) (slots : Z) (t : list string)
    (flags : AluOpFlags) (sources : list PVirtualValue) (w : World)
    : outcome (list string * AluOpFlags * list PVirtualValue * Z * World) :=
  match fuel with
  | O => Fault (Undefined "++t")
  | S fuel' =>
      match t with
      | [] => Fault (Undefined "++t")
      | _ :: t1 =>
          let? (t2, flags', sources', w') :=
            parse_slot (Z.to_nat nsrc) 0 slots t1 flags sources w in
          match t2 with
          | tok :: _ =>
              if bool_decide (tok = "+")
              then parse_slots fuel' nsrc (slots + 1) t2 flags' sources' w'
              else Done (t2, flags', sources', slots + 1, w')
          | [] => Done (t2, flags', sources', slots + 1, w')
          end
      end
  end.

(** The characters of a [{...}] token after the brace. *)
Fixpoint parse_flag_chars (s : string) (flags : AluOpFlags) : AluOpFlags :=
  match s with
  | EmptyString => flags
  | String c r =>
      if bool_decide (c = "}"%char) then flags
      else
        parse_flag_chars r
          (if bool_decide (c = "L"%char) then flags ∪ {[ alu_last_instr ]}
           else if bool_decide (c = "W"%char) then flags ∪ {[ alu_write ]}
           else if bool_decide (c = "E"%char) then flags ∪ {[ alu_update_exec ]}
           else if bool_decide (c = "P"%char) then flags ∪ {[ alu_update_pred ]}
           else flags)
  end.

Definition parse_bank_swizzle (bs : string) : outcome AluBankSwizzle :=
  if bool_decide (bs = "VEC_012") then Done alu_vec_012
  else if bool_decide (bs = "VEC_021") then Done alu_vec_021
  else if bool_decide (bs = "VEC_102") then Done alu_vec_102
  else if bool_decide (bs = "VEC_120") then Done alu_vec_120
  else if bool_decide (bs = "VEC_201") then Done alu_vec_201
  else if bool_decide (bs = "VEC_210") then Done alu_vec_210
  else Fault (Unreachable "Unknowe bankswizzle given").

Definition parse_cf (cf_str : string) : outcome ECFAluOpCode :=
  if bool_decide (cf_str = "PUSH_BEFORE") then Done cf_alu_push_before
  else if bool_decide (cf_str = "POP_AFTER") then Done cf_alu_pop_after
  else if bool_decide (cf_str = "POP2_AFTER") then Done cf_alu_pop2_after
  else if bool_decide (cf_str = "EXTENDED") then Done cf_alu_extended
  else if bool_decide (cf_str = "BREAK") then Done cf_alu_break
  else if bool_decide (cf_str = "CONT") then Done cf_alu_continue
  else if bool_decide (cf_str = "ELSE_AFTER") then Done cf_alu_else_after
  else Fault (Unreachable "Unknown tocken in ALU instruction").

(** The loop over the tokens after the sources. *)
Fixpoint parse_trailer (t : list string) (flags : AluOpFlags)
    (bank_swizzle : AluBankSwizzle) (cf : ECFAluOpCode)
    : outcome (AluOpFlags * AluBankSwizzle * ECFAluOpCode) :=
  match t with
  | [] => Done (flags, bank_swizzle, cf)
  | tok :: t' =>
      match tok with
      | String "{" iflag => parse_trailer t' (parse_flag_chars iflag flags) bank_swizzle cf
      | String "V" _ =>
          let? bs := parse_bank_swizzle tok in
          parse_trailer t' flags bs cf
      | _ =>
          let? cf' := parse_cf tok in
          parse_trailer t' flags bank_swizzle cf'
      end
  end.

(** The head of the token list: [LDS], the opcode, [CLAMP], the
    destination, and the colon the cursor is left on. *)
Definition parse_head (tokens : list string)
    : outcome (bool * string * string * AluOpFlags * list string) :=
  match tokens with
  | [] => Fault (Undefined "*t")
  | t0 :: _ =>
      let is_lds := bool_decide (t0 = "LDS") in
      match (if is_lds then tail tokens else tokens) with
      | opstr :: deststr :: t2 =>
          let? (deststr', flags, t3) :=
            if bool_decide (deststr = "CLAMP") then
              match t2 with
              | d :: t3 => Done (d, ({[ alu_dst_clamp ]} : AluOpFlags), t3)
              | [] => Fault (Undefined "*t++")
              end
            else Done (deststr, (∅ : AluOpFlags), t2) in
          match t3 with
          | colon :: _ =>
              if bool_decide (colon = ":")
              then Done (is_lds, opstr, deststr', flags, t3)
              else Fault (AssertFailed "*t == colon")
          | [] => Fault (Undefined "*t")
          end
      | _ => Fault (Undefined "*t++")
      end
  end.

Definition from_string (text : string) (group : option GroupPtr) : M (option InstrPtr) :=
  let tokens := tokenize text in
  let* (is_lds, opstr, deststr, flags0, t) := lift (parse_head tokens) in
  let* op_descr := lookup_op is_lds opstr in
  let* w := get_world in
  let* (t', flags1, sources, slots, w') :=
    lift (parse_slots (length t) (OpDescr_nsrc op_descr) 0 t flags0 [] w) in
  let* _ := update_world (fun _ => w') in
  let* (flags, bank_swizzle, cf) := lift (parse_trailer t' flags1 alu_vec_unknown cf_alu) in
  let* dest :=
    if bool_decide (deststr <> "(null)") then on_world (dest_from_string deststr)
    else mret None in
  let* retval :=
    if is_lds then
      match OpDescr_op op_descr with
      | lds_opcode o =>
          new_AluInstr (fun this w => AluInstr_ctor_lds_src this o sources flags w)
      | alu_opcode _ => mfault (Undefined "inactive union member")
      end
    else
      match OpDescr_op op_descr with
      | alu_opcode o =>
          new_AluInstr (fun this w => AluInstr_ctor this o dest sources flags slots w)
      | lds_opcode _ => mfault (Undefined "inactive union member")
      end in
  let* _ := modify_instr retval (set_bank_swizzle bank_swizzle) in
  let* _ := modify_instr retval (set_cf_type cf) in
  match group with
  | Some g =>
      let* _ := add_instruction g retval in
      mret None
  | None => mret (Some retval)
  end.

End Model.

Notation "'let*' x ':=' e 'in' k" := (mbind e (fun x => k))
  (at level 10, x pattern, e at level 100, k at level 200).

(** ** A small arena instance of the collaborators

    Registers are named by selector and channel; the world holds their
    pins, use lists and parent lists, the scheduled instructions, and the
    values the factory knows by name.  The instance gives the interfaces
    something to run on: the examples below evaluate the model on it. *)
Module Arena.

Inductive Value : Type :=
  | Reg (sel : nat) (ch : Z) (ssa : bool)
  | ArrayElem (sel : nat) (ch : Z) (addr : option (nat * Z))
  | Uniform (sel : nat) (ch : Z) (buf : option (nat * Z))
  | Literal (v : Z).

#[global] Instance Value_eq_dec : EqDecision Value.
Proof. solve_decision. Defined.

Definition key (v : Value) : nat * Z :=
  match v with
  | Reg s c _ | ArrayElem s c _ | Uniform s c _ => (s, c)
  | Literal _ => (0%nat, 0)
  end.

Record State : Type := mkState {
  pins : gmap (nat * Z) Pin;
  use_lists : gmap (nat * Z) (list InstrPtr);
  parent_lists : gmap (nat * Z) (list InstrPtr);
  scheduled : list InstrPtr;
  positions : gmap InstrPtr (Z * Z);
  required : gmap InstrPtr (list InstrPtr);
  known : list Value
}.

Definition is_reg (v : Value) : bool :=
  match v with Reg _ _ _ | ArrayElem _ _ _ => true | _ => false end.

Definition value_pin (w : State) (v : Value) : Pin :=
  match v with
  | ArrayElem _ _ _ => pin_array
  | Reg _ _ _ => default pin_none (pins w !! key v)
  | _ => pin_none
  end.

Definition addr_value (a : option (nat * Z)) : option Value :=
  match a with
  | Some (s, c) => Some (Reg s c false)
  | None => None
  end.

Definition with_pin (v : Value) (p : Pin) (w : State) : State :=
  mkState (<[key v := p]> (pins w)) (use_lists w) (parent_lists w) (scheduled w)
    (positions w) (required w) (known w).

Definition with_use (f : list InstrPtr -> list InstrPtr) (v : Value) (w : State) : State :=
  mkState (pins w) (<[key v := f (default [] (use_lists w !! key v))]> (use_lists w))
    (parent_lists w) (scheduled w) (positions w) (required w) (known w).

Definition with_parent (f : list InstrPtr -> list InstrPtr) (v : Value) (w : State) : State :=
  mkState (pins w) (use_lists w)
    (<[key v := f (default [] (parent_lists w !! key v))]> (parent_lists w))
    (scheduled w) (positions w) (required w) (known w).

Definition with_position (p : InstrPtr) (b i : Z) (w : State) : State :=
  mkState (pins w) (use_lists w) (parent_lists w) (scheduled w)
    (<[p := (b, i)]> (positions w)) (required w) (known w).

Definition chan_name (c : Z) : string :=
  if decide (c = 0) then "x" else if decide (c = 1) then "y"
  else if decide (c = 2) then "z" else "w".

Definition pin_name (p : Pin) : string :=
  match p with
  | pin_none => "none" | pin_chan => "chan" | pin_array => "array"
  | pin_group => "group" | pin_chgr => "chgr" | pin_fully => "fully"
  | pin_free => "free"
  end.

Definition digit (n : nat) : string :=
  match n with
  | 0 => "0" | 1 => "1" | 2 => "2" | 3 => "3" | 4 => "4"
  | 5 => "5" | 6 => "6" | 7 => "7" | 8 => "8" | _ => "9"
  end%nat.

Fixpoint decimal (fuel n : nat) : string :=
  match fuel with
  | O => ""
  | S fuel' =>
      if (n <? 10)%nat then digit n
      else decimal fuel' (n / 10) +:+ digit (n mod 10)
  end.

Definition nat_text (n : nat) : string := decimal (S n) n.

Definition Z_text (z : Z) : string :=
  (if z <? 0 then "m" else "") +:+ nat_text (Z.abs_nat z).

Definition value_text (w : State) (v : Value) : string :=
  match v with
  | Reg s c ssa =>
      (if ssa then "S" else "R") +:+ nat_text s +:+ "." +:+ chan_name c +:+
      (match value_pin w v with
       | pin_none => ""
       | p => "@" +:+ pin_name p
       end)
  | ArrayElem s c _ => "A" +:+ nat_text s +:+ "." +:+ chan_name c
  | Uniform s c _ => "KC0[" +:+ nat_text s +:+ "]." +:+ chan_name c
  | Literal v => "L[" +:+ Z_text v +:+ "]"
  end.

Definition scheduled_in (w : State) (p : InstrPtr) : bool :=
  bool_decide (p ∈ scheduled w).

(** A register is ready once every instruction writing it is scheduled. *)
Definition value_ready (w : State) (v : Value) (b i : Z) : bool :=
  forallb (scheduled_in w) (default [] (parent_lists w !! key v)).

Definition find_by_text (w : State) (s : string) : option Value :=
  List.find (fun v => bool_decide (value_text w v = s)) (known w).

#[global] Instance values : Values := {|
  PVirtualValue := Value;
  PRegister := Value;
  PUniform := Value;
  World := State;
  reg_value := fun r => r;
  as_register := fun v => if is_reg v then Some v else None;
  as_uniform := fun v => match v with Uniform _ _ _ => Some v | _ => None end;
  buf_addr := fun v => match v with Uniform _ _ b => addr_value b | _ => None end;
  get_addr := fun v =>
    match v with
    | ArrayElem _ _ a => addr_value a
    | Uniform _ _ b => addr_value b
    | _ => None
    end;
  array_addr := fun v => match v with ArrayElem _ _ a => addr_value a | _ => None end;
  chan := fun v => snd (key v);
  has_flag_ssa := fun v => match v with Reg _ _ ssa => ssa | _ => false end;
  pin := value_pin;
  set_pin := with_pin;
  equal_to := fun _ a b => bool_decide (a = b);
  uses := fun w r => default [] (use_lists w !! key r);
  add_use := fun r p => with_use (fun l => l ++ [p]) r;
  del_use := fun r p => with_use (filter (fun q => q <> p)) r;
  add_parent := fun r p => with_parent (fun l => l ++ [p]) r;
  del_parent := fun r p => with_parent (filter (fun q => q <> p)) r;
  ready := value_ready;
  print_value := value_text;
  print_pin := pin_name;
  block_id := fun w p => fst (default (0, 0) (positions w !! p));
  index := fun w p => snd (default (0, 0) (positions w !! p));
  is_scheduled := scheduled_in;
  required_instr := fun w p => default [] (required w !! p);
  set_blockid := with_position
|}.

Inductive Op : Type := NOP | MOV | ADD | MULADD | DOT4 | INVALID.

#[global] Instance Op_eq_dec : EqDecision Op.
Proof. solve_decision. Defined.

Inductive LdsOp : Type := DS_ADD | DS_READ_RET | DS_INVALID.

#[global] Instance LdsOp_eq_dec : EqDecision LdsOp.
Proof. solve_decision. Defined.

#[global] Instance tables : OpTables := {|
  EAluOp := Op;
  ESDOp := LdsOp;
  alu_ops :=
    [ (ADD, mkAluOp 2 "ADD"); (MOV, mkAluOp 1 "MOV"); (NOP, mkAluOp 0 "NOP");
      (DOT4, mkAluOp 2 "DOT4"); (MULADD, mkAluOp 3 "MULADD") ];
  lds_ops := [ (DS_ADD, mkLDSOp 2 "ADD"); (DS_READ_RET, mkLDSOp 1 "READ_RET") ];
  op1_mov := MOV;
  op2_add := ADD;
  op_invalid := INVALID;
  m_opcode_default := NOP;
  m_lds_opcode_default := DS_INVALID;
  op2_opt_none := 0;
  op2_opt_reverse := 1;
  op2_opt_neg_src1 := 2
|}.

(** The place an instruction takes in a group: the channel of its
    destination, or its fallback channel when it has none. *)
Definition slot_of (x : AluInstr) : Z :=
  match m_dest x with
  | Some d => snd (key d)
  | None => m_fallback_chan x
  end.

(** A group has four places, one a channel, and twelve read ports: it
    refuses a fifth instruction, an instruction whose place is taken, and
    one with which the group would read more than twelve registers. *)
Definition group_takes (members : list AluInstr) (x : AluInstr) : bool :=
  (length members <? 4)%nat &&
  negb (bool_decide (slot_of x ∈ map slot_of members)) &&
  (length (List.filter is_reg (concat (map m_src (members ++ [x])))) <=? 12)%nat.

(** A reservation counts the register reads booked so far; four read
    ports are to be had. *)
#[global] Instance readports : Readports := {|
  AluReadportReservation := nat;
  new_reservation := 0%nat;
  schedule_vec_src := fun rpr srcs n bs =>
    let reads := length (List.filter is_reg srcs) in
    if (rpr + reads <=? 4)%nat then (true, (rpr + reads)%nat) else (false, rpr)
|}.

#[global] Instance factory : Factory := {|
  dummy_dest := fun c w => (Reg 126 c false, w);
  src_from_string := fun s w => (find_by_text w s, w);
  dest_from_string := fun s w =>
    (match find_by_text w s with
     | Some v => if is_reg v then Some v else None
     | None => None
     end, w);
  vf_dest := fun d i p w =>
    (Reg 1 i (is_ssa d), with_pin (Reg 1 i (is_ssa d)) p w);
  vf_src := fun s i w => (Reg (Z.to_nat (src_id s)) i true, w);
  group_accepts := fun w members instr => group_takes members instr
|}.

Definition empty_state : State := mkState ∅ ∅ ∅ [] ∅ ∅ [].

Definition state_knowing (vs : list Value) : State := mkState ∅ ∅ ∅ [] ∅ ∅ vs.

Definition machine_of (w : State) : Machine := mkMachine [] [] w ∅ ∅ [].

(** A machine holding one instruction at address 0. *)
Definition machine_with (i : AluInstr) (w : State) : Machine :=
  mkMachine [i] [] w ∅ ∅ [].

(** [split] of the instruction at address 0: for each instruction of the
    group, whether it carries flag [f]. *)
Definition split_report (f : AluModifiers) (m : Machine) : outcome (list bool) :=
  match split 0%nat m with
  | Done (Some g, m') => Done (map (fun x => has_alu_flag x f) (group_members m' g))
  | Done (None, _) => Done []
  | Fault e => Fault e
  end.

(** A four-slot dot product writing R0.y, last of its group. *)
Definition dot4_srcs : list Value :=
  [ Reg 1 0 true; Reg 2 0 true; Reg 1 1 true; Reg 2 1 true;
    Reg 1 2 true; Reg 2 2 true; Reg 1 3 true; Reg 2 3 true ].

Definition dot4_dest : Value := Reg 0 1 false.

Definition dot4_instr : AluInstr :=
  mkAluInstr _ _ DOT4 DS_INVALID (Some dot4_dest) dot4_srcs
    {[ alu_write; alu_last_instr ]} alu_vec_unknown cf_alu 4 0 [] None.

End Arena.

(** ** The other members of AluInstr and the one- and three-source
    lowerings

    What these read of the collaborators beyond [Values], [OpTables] and
    [Factory]. *)

(** Registers are told apart by their address ([std::set<PRegister>]
    holds each pointer once); [accept] dispatches on the dynamic type of a
    value, of which [indirect_addr] tells a [LocalArray] and a
    [LocalArrayValue] from the rest; [as_inline_const] and
    [InlineConstant::sel()] (sfn_virtualvalues). *)
Class ValueKinds `{Values} : Type := {
  PRegister_eq_dec :: EqDecision PRegister;
  is_local_array : PVirtualValue -> bool;
  is_local_array_value : PVirtualValue -> bool;
  PInlineConstant : Type;
  as_inline_const : PVirtualValue -> option PInlineConstant;
  sel : PInlineConstant -> Z
}.

(** The opcodes and inline-constant selectors the members name
    (sfn_alu_defines). *)
Class MoreOps `{OpTables} : Type := {
  op2_interp_x : EAluOp;
  op2_interp_xy : EAluOp;
  op2_interp_z : EAluOp;
  op2_interp_zw : EAluOp;
  ALU_SRC_LDS_OQ_A_POP : Z;
  ALU_SRC_LDS_OQ_B_POP : Z
}.

(** [ValueFactory::dest(alu.dest, i, pin)], the overload over a
    [nir_alu_dest]. *)
Class AluDestFactory `{Values} : Type := {
  vf_dest_alu : nir_alu_dest -> Z -> Pin -> World -> PRegister * World
}.

Section ModelMore.
Context `{V : Values} `{T : OpTables} `{R : !Readports} `{F : !Factory}.
Context `{VK : !ValueKinds} `{MO : !MoreOps} `{DF : !AluDestFactory}.

Definition with_dest (d : option PRegister) (i : AluInstr) : AluInstr :=
  mkAluInstr _ _ (m_opcode i) (m_lds_opcode i) d (m_src i) (m_alu_flags i)
    (m_bank_swizzle i) (m_cf_type i) (m_alu_slots i) (m_fallback_chan i)
    (m_extra_dependencies i) (m_parent_group i).

Definition with_alu_slots (n : Z) (i : AluInstr) : AluInstr :=
  mkAluInstr _ _ (m_opcode i) (m_lds_opcode i) (m_dest i) (m_src i) (m_alu_flags i)
    (m_bank_swizzle i) (m_cf_type i) n (m_fallback_chan i)
    (m_extra_dependencies i) (m_parent_group i).

Definition with_extra_dependencies (l : list PRegister) (i : AluInstr) : AluInstr :=
  mkAluInstr _ _ (m_opcode i) (m_lds_opcode i) (m_dest i) (m_src i) (m_alu_flags i)
    (m_bank_swizzle i) (m_cf_type i) (m_alu_slots i) (m_fallback_chan i)
    l (m_parent_group i).

(** *** allowed_dest_chan_mask

    [1 << alu_slots()] is an [int] shift, defined for a count the result
    of which an [int] holds; the answer is cut to [uint8_t]. *)
Definition allowed_dest_chan_mask (i : AluInstr) : outcome Z :=
  if negb (bool_decide (m_alu_slots i = 1)) then
    if has_alu_flag i alu_is_cayman_trans then
      if decide (0 <= m_alu_slots i <= 30)
      then Done ((Z.shiftl 1 (m_alu_slots i) - 1) mod 2 ^ 8)
      else Fault (Undefined "1 << alu_slots()")
    else Done 0
  else Done 15.

(** *** set_sources *)
Definition set_sources (this : InstrPtr) (src : list PVirtualValue) : M unit :=
  let* i := read_instr this in
  let* _ := update_world (fun w =>
    fold_left (fun w s =>
                 match as_register s with
                 | Some r => del_use r this w
                 | None => w
                 end) (m_src i) w) in
  let* _ := modify_instr this (with_src src) in
  update_world (fun w =>
    fold_left (fun w s =>
                 match as_register s with
                 | Some r => add_use r this w
                 | None => w
                 end) src w).

(** *** replace_dest

    [move_instr] is another instruction, or this one. *)
Definition replace_dest_cayman (this : InstrPtr) (new_dest : PRegister) : M unit :=
  let* i := read_instr this in
  if has_alu_flag i alu_is_cayman_trans then
    if bool_decide (chan new_dest = 3) && bool_decide (m_alu_slots i < 4) then
      let* _ := modify_instr this (with_alu_slots 4) in
      if negb (bool_decide (length (m_src i) = 3%nat))
      then mfault (AssertFailed "m_src.size() == 3")
      else
        match m_src i !! 0%nat with
        | Some s0 => modify_instr this (fun x => with_src (m_src x ++ [s0]) x)
        | None => mfault (Undefined "m_src[0]")
        end
    else mret tt
  else mret tt.

Definition replace_dest (this : InstrPtr) (new_dest : PRegister)
    (move_instr : InstrPtr) : M bool :=
  let* i := read_instr this in
  match m_dest i with
  | None => mfault (Undefined "m_dest->equal_to")
  | Some d =>
      let* w := get_world in
      if equal_to w d new_dest then mret false
      else if bool_decide (1 < length (uses w d))%nat then mret false
      else if pin_is w new_dest pin_array then mret false
      else if pin_is w d pin_chan && negb (bool_decide (chan new_dest = chan d))
      then mret false
      else
        let* _ :=
          if pin_is w d pin_chan then
            update_world (fun w =>
              if pin_is w new_dest pin_group then set_pin new_dest pin_chgr w
              else set_pin new_dest pin_chan w)
          else mret tt in
        let* _ := modify_instr this (with_dest (Some new_dest)) in
        let* mv := read_instr move_instr in
        let* _ :=
          if negb (has_alu_flag mv alu_last_instr)
          then modify_instr this (reset_alu_flag alu_last_instr)
          else mret tt in
        let* _ := replace_dest_cayman this new_dest in
        mret true
  end.

(** *** pin_sources_to_chan *)
Definition pin_source_to_chan (w : World) (s : PVirtualValue) : World :=
  match as_register s with
  | Some r =>
      if pin_is w r pin_free then set_pin r pin_chan w
      else if pin_is w r pin_group then set_pin r pin_chgr w
      else w
  | None => w
  end.

Definition pin_sources_to_chan (i : AluInstr) (w : World) : World :=
  fold_left pin_source_to_chan (m_src i) w.

(** *** add_extra_dependency

    [m_extra_dependencies] is a [std::set] of register pointers: a
    register is held once.  The list keeps them in the order they came
    in; the set walks them in the order of their addresses, which the
    embedding does not have. *)
Definition add_extra_dependency (value : PVirtualValue) (i : AluInstr) : AluInstr :=
  match as_register value with
  | Some reg =>
      if decide (reg ∈ m_extra_dependencies i) then i
      else with_extra_dependencies (m_extra_dependencies i ++ [reg]) i
  | None => i
  end.

(** *** indirect_addr

    [ResolveIndirectArrayAddr]: the one visitor is handed from operand to
    operand, so what it holds is kept between visits. *)
Record ResolveIndirectArrayAddr : Type := mkResolve {
  addr : option PRegister;
  is_index : bool
}.

Definition resolve_visit (v : PVirtualValue) (st : ResolveIndirectArrayAddr)
    : outcome ResolveIndirectArrayAddr :=
  if is_local_array v then Fault (Unreachable "An array can't be used as address")
  else if is_local_array_value v then
    match array_addr v with
    | Some a => Done (mkResolve (as_register a) (is_index st))
    | None => Done st
    end
  else
    match as_uniform v with
    | Some u =>
        match buf_addr u with
        | Some a => Done (mkResolve (as_register a) true)
        | None => Done st
        end
    | None => Done st
    end.

Fixpoint indirect_addr_srcs (srcs : list PVirtualValue) (st : ResolveIndirectArrayAddr)
    : outcome (option PRegister * bool * bool) :=
  match srcs with
  | [] => Done (None, false, false)
  | s :: rest =>
      let? st' := resolve_visit s st in
      match addr st' with
      | Some a => Done (Some a, negb (is_index st'), is_index st')
      | None => indirect_addr_srcs rest st'
      end
  end.

Definition indirect_addr (i : AluInstr) : outcome (option PRegister * bool * bool) :=
  let visitor := mkResolve None false in
  match m_dest i with
  | Some d =>
      let? st := resolve_visit d visitor in
      match addr st with
      | Some a => Done (Some a, false, false)
      | None => indirect_addr_srcs (m_src i) st
      end
  | None => indirect_addr_srcs (m_src i) visitor
  end.

(** *** register_priority *)
Definition pending_uses (w : World) (r : PRegister) : Z :=
  Z.of_nat (length (List.filter (fun b => negb (is_scheduled w b)) (uses w r))).

Definition source_priority (w : World) (priority : Z) (s : PVirtualValue) : Z :=
  let p1 :=
    match as_register s with
    | Some r =>
        if has_flag_ssa r then
          if bool_decide (pending_uses w r = 1) then priority + 1 else priority
        else priority
    | None => priority
    end in
  if bool_decide (is_Some (as_uniform s)) then p1 + 1 else p1.

Definition register_priority (w : World) (i : AluInstr) : Z :=
  if negb (has_alu_flag i alu_no_schedule_bias) then
    let p0 :=
      match m_dest i with
      | Some d =>
          if has_flag_ssa d && has_alu_flag i alu_write then
            if negb (pin_is w d pin_group) && negb (pin_is w d pin_chgr)
            then -1 else 0
          else 1
      | None => 0
      end in
    fold_left (source_priority w) (m_src i) p0
  else 0.

(** *** propagate_death *)
Definition is_interp_op (opcode : EAluOp) : bool :=
  bool_decide (opcode = op2_interp_x) || bool_decide (opcode = op2_interp_xy) ||
  bool_decide (opcode = op2_interp_z) || bool_decide (opcode = op2_interp_zw).

Definition propagate_death (this : InstrPtr) : M bool :=
  let* i := read_instr this in
  match m_dest i with
  | None => mret true
  | Some d =>
      let* w := get_world in
      if (pin_is w d pin_group || pin_is w d pin_chan) && is_interp_op (m_opcode i)
      then
        let* _ := modify_instr this (reset_alu_flag alu_write) in
        mret false
      else if pin_is w d pin_array then mret false
      else if has_alu_flag i alu_is_cayman_trans then mret false
      else
        let* _ := update_world (fun w =>
          fold_left (fun w src =>
                       match as_register src with
                       | Some reg => del_use reg this w
                       | None => w
                       end) (m_src i) w) in
        mret true
  end.

(** *** has_lds_access and has_lds_queue_read *)
Definition has_lds_queue_read (i : AluInstr) : bool :=
  existsb (fun s =>
             match as_inline_const s with
             | Some ic =>
                 bool_decide (sel ic = ALU_SRC_LDS_OQ_A_POP) ||
                 bool_decide (sel ic = ALU_SRC_LDS_OQ_B_POP)
             | None => false
             end) (m_src i).

Definition has_lds_access (i : AluInstr) : bool :=
  has_alu_flag i alu_is_lds || has_lds_queue_read i.

(** *** emit_alu_op1

    The arguments of [new AluInstr(...)] are evaluated here in the order
    they are written, the destination first. *)
Definition emit_alu_op1_comp (alu : nir_alu_instr) (opcode : EAluOp)
    (flags : AluOpFlags) (pin : Pin) (i : Z) (ir : option InstrPtr)
    : M (option InstrPtr) :=
  if enabled_bit alu i then
    match alu_src alu !! 0%nat with
    | None => mfault (Undefined "alu.src[0]")
    | Some src0 =>
        let* d := on_world (vf_dest_alu (alu_dest alu) i pin) in
        let* s0 := on_world (vf_src src0 i) in
        let* p := new_AluInstr (fun this w =>
                    AluInstr_ctor1 this opcode (Some d) s0 {[ alu_write ]} w) in
        let* _ :=
          if bool_decide (alu_src0_abs ∈ flags) || abs src0
          then modify_instr p (set_alu_flag alu_src0_abs) else mret tt in
        let* _ :=
          if xorb (negate src0) (bool_decide (alu_src0_neg ∈ flags))
          then modify_instr p (set_alu_flag alu_src0_neg) else mret tt in
        let* _ :=
          if bool_decide (alu_dst_clamp ∈ flags) || saturate (alu_dest alu)
          then modify_instr p (set_alu_flag alu_dst_clamp) else mret tt in
        let* _ := emit_instruction p in
        mret (Some p)
    end
  else mret ir.

Fixpoint emit_alu_op1_loop (alu : nir_alu_instr) (opcode : EAluOp)
    (flags : AluOpFlags) (pin : Pin) (n : nat) (i : Z) (ir : option InstrPtr)
    : M (option InstrPtr) :=
  match n with
  | O => mret ir
  | S n' =>
      let* ir' := emit_alu_op1_comp alu opcode flags pin i ir in
      emit_alu_op1_loop alu opcode flags pin n' (i + 1) ir'
  end.

Definition emit_alu_op1 (alu : nir_alu_instr) (opcode : EAluOp) (flags : AluOpFlags)
    : M bool :=
  let pin := pin_for_components alu in
  let* ir :=
    emit_alu_op1_loop alu opcode flags pin
      (Z.to_nat (num_components (dest (alu_dest alu)))) 0 None in
  let* _ :=
    match ir with
    | Some p => modify_instr p (set_alu_flag alu_last_instr)
    | None => mret tt
    end in
  mret true.

(** [from_nir], cases [nir_op_mov], [nir_op_fneg], [nir_op_fabs] and
    [nir_op_fsat] of an instruction that is not a 64 bit operation. *)
Definition from_nir_mov (alu : nir_alu_instr) : M bool := emit_alu_op1 alu op1_mov ∅.
Definition from_nir_fneg (alu : nir_alu_instr) : M bool :=
  emit_alu_op1 alu op1_mov {[ alu_src0_neg ]}.
Definition from_nir_fabs (alu : nir_alu_instr) : M bool :=
  emit_alu_op1 alu op1_mov {[ alu_src0_abs ]}.
Definition from_nir_fsat (alu : nir_alu_instr) : M bool :=
  emit_alu_op1 alu op1_mov {[ alu_dst_clamp ]}.

(** [from_nir], case [nir_op_fsub]. *)
Definition from_nir_fsub (alu : nir_alu_instr) : M bool :=
  emit_alu_op2 alu op2_add op2_opt_neg_src1.

(** *** emit_alu_op2_int *)
Definition emit_alu_op2_int (alu : nir_alu_instr) (opcode : EAluOp) (opts : Z) : M bool :=
  match alu_src alu !! 0%nat, alu_src alu !! 1%nat with
  | Some a0, Some a1 =>
      if abs a0 then mfault (AssertFailed "!alu.src[0].abs")
      else if negate a0 then mfault (AssertFailed "!alu.src[0].negate")
      else if abs a1 then mfault (AssertFailed "!alu.src[1].abs")
      else if negate a1 then mfault (AssertFailed "!alu.src[1].negate")
      else emit_alu_op2 alu opcode opts
  | _, _ => mfault (Undefined "alu.src")
  end.

(** *** emit_alu_op3 *)
Definition shuffled_src (alu : nir_alu_instr) (k : Z) : option nir_alu_src :=
  if decide (0 <= k) then alu_src alu !! Z.to_nat k else None.

Definition emit_alu_op3_comp (alu : nir_alu_instr) (opcode : EAluOp)
    (src0 src1 src2 : nir_alu_src) (pin : Pin) (i : Z) (ir : option InstrPtr)
    : M (option InstrPtr) :=
  if enabled_bit alu i then
    let* d := on_world (vf_dest (dest (alu_dest alu)) i pin) in
    let* s0 := on_world (vf_src src0 i) in
    let* s1 := on_world (vf_src src1 i) in
    let* s2 := on_world (vf_src src2 i) in
    let* p := new_AluInstr (fun this w =>
                AluInstr_ctor3 this opcode (Some d) s0 s1 s2 {[ alu_write ]} w) in
    let* _ := if negate src0 then modify_instr p (set_alu_flag alu_src0_neg) else mret tt in
    let* _ := if negate src1 then modify_instr p (set_alu_flag alu_src1_neg) else mret tt in
    let* _ := if negate src2 then modify_instr p (set_alu_flag alu_src2_neg) else mret tt in
    if abs src0 then mfault (AssertFailed "!src[0]->abs")
    else if abs src1 then mfault (AssertFailed "!src[1]->abs")
    else if abs src2 then mfault (AssertFailed "!src[2]->abs")
    else
      let* _ := if saturate (alu_dest alu)
                then modify_instr p (set_alu_flag alu_dst_clamp) else mret tt in
      let* _ := modify_instr p (set_alu_flag alu_write) in
      let* _ := emit_instruction p in
      mret (Some p)
  else mret ir.

Fixpoint emit_alu_op3_loop (alu : nir_alu_instr) (opcode : EAluOp)
    (src0 src1 src2 : nir_alu_src) (pin : Pin) (n : nat) (i : Z)
    (ir : option InstrPtr) : M (option InstrPtr) :=
  match n with
  | O => mret ir
  | S n' =>
      let* ir' := emit_alu_op3_comp alu opcode src0 src1 src2 pin i ir in
      emit_alu_op3_loop alu opcode src0 src1 src2 pin n' (i + 1) ir'
  end.

Definition emit_alu_op3 (alu : nir_alu_instr) (opcode : EAluOp)
    (src_shuffle : Z * Z * Z) : M bool :=
  let '(k0, k1, k2) := src_shuffle in
  match shuffled_src alu k0, shuffled_src alu k1, shuffled_src alu k2 with
  | Some src0, Some src1, Some src2 =>
      let pin := pin_for_components alu in
      let* ir :=
        emit_alu_op3_loop alu opcode src0 src1 src2 pin
          (Z.to_nat (num_components (dest (alu_dest alu)))) 0 None in
      let* _ :=
        match ir with
        | Some p => modify_instr p (set_alu_flag alu_last_instr)
        | None => mret tt
        end in
      mret true
  | _, _, _ => mfault (Undefined "alu.src")
  end.

End ModelMore.

(** ** The arena instance of the further collaborators *)
Module ArenaMore.
Import Arena.

(** The arena has no array value and no inline constant; an array element
    is its [LocalArrayValue]. *)
#[global] Instance value_kinds : ValueKinds := {|
  PRegister_eq_dec := Value_eq_dec;
  is_local_array := fun _ => false;
  is_local_array_value := fun v =>
    match v with ArrayElem _ _ _ => true | _ => false end;
  PInlineConstant := Z;
  as_inline_const := fun _ => None;
  sel := fun z => z
|}.

#[global] Instance alu_dest_factory : AluDestFactory := {|
  vf_dest_alu := fun d i p w => vf_dest (dest d) i p w
|}.

(** An opcode table with the four interpolation opcodes. *)
Inductive InterpOp : Type :=
  | I_NOP | I_MOV | I_ADD | INTERP_X | INTERP_XY | INTERP_Z | INTERP_ZW | I_INVALID.

#[global] Instance InterpOp_eq_dec : EqDecision InterpOp.
Proof. solve_decision. Defined.

Definition interp_tables : OpTables := {|
  EAluOp := InterpOp;
  ESDOp := LdsOp;
  alu_ops :=
    [ (I_ADD, mkAluOp 2 "ADD"); (I_MOV, mkAluOp 1 "MOV"); (I_NOP, mkAluOp 0 "NOP");
      (INTERP_X, mkAluOp 2 "INTERP_X"); (INTERP_XY, mkAluOp 2 "INTERP_XY");
      (INTERP_Z, mkAluOp 2 "INTERP_Z"); (INTERP_ZW, mkAluOp 2 "INTERP_ZW") ];
  lds_ops := [ (DS_ADD, mkLDSOp 2 "ADD"); (DS_READ_RET, mkLDSOp 1 "READ_RET") ];
  op1_mov := I_MOV;
  op2_add := I_ADD;
  op_invalid := I_INVALID;
  m_opcode_default := I_NOP;
  m_lds_opcode_default := DS_INVALID;
  op2_opt_none := 0;
  op2_opt_reverse := 1;
  op2_opt_neg_src1 := 2
|}.

Definition interp_ops : @MoreOps interp_tables := {|
  op2_interp_x := INTERP_X : @EAluOp interp_tables;
  op2_interp_xy := INTERP_XY : @EAluOp interp_tables;
  op2_interp_z := INTERP_Z : @EAluOp interp_tables;
  op2_interp_zw := INTERP_ZW : @EAluOp interp_tables;
  ALU_SRC_LDS_OQ_A_POP := 221;
  ALU_SRC_LDS_OQ_B_POP := 222
|}.

End ArenaMore.

(** * Properties *)

Section Construction.
Context `{V : Values} `{T : OpTables} `{R : !Readports} `{F : !Factory}.

Lemma size_t_of_int_eq (len z : Z) :
  0 <= len <= SrcValues_max_size ->
  - 2 ^ 31 <= z < 2 ^ 31 ->
  len = size_t_of_int z <-> len = z.
Proof.
  unfold size_t_of_int, SrcValues_max_size.
  intros Hlen Hz.
  assert (Hmax : (2 ^ 63 - 1) / 8 < 2 ^ 63) by (apply Z.div_lt_upper_bound; lia).
  destruct (Z_lt_le_dec z 0) as [Hneg | Hpos].
  - replace (z mod 2 ^ 64) with (z + 2 ^ 64).
    + lia.
    + apply Z.mod_unique with (q := -1); lia.
  - rewrite Z.mod_small by lia. reflexivity.
Qed.

Lemma AluInstr_ctor_fields this opcode dest src flags slots w i w' :
  AluInstr_ctor this opcode dest src flags slots w = Done (i, w') ->
  m_opcode i = opcode /\ m_dest i = dest /\ m_src i = src /\
  m_alu_slots i = slots /\
  m_alu_flags i = (if decide (length src = 3%nat) then {[ alu_op3 ]} else ∅) ∪ flags /\
  m_bank_swizzle i = alu_vec_unknown /\ m_cf_type i = cf_alu.
Proof.
  unfold AluInstr_ctor.
  destruct (alu_ops_at opcode) as [op |]; simpl; [| discriminate].
  destruct (decide _); [| discriminate].
  destruct (_ && _); [discriminate |].
  intros [= <- <-]. simpl. repeat split; reflexivity.
Qed.

(** C8: with a regular opcode, the constructor fails on the assertion
    "Unexpected number of source values" unless the number of sources is
    nsrc(opcode) * slots; so an instruction it does build has exactly
    nsrc(opcode) * slot_count sources. *)
Theorem ctor_checks_source_count
    (this : InstrPtr) (opcode : EAluOp) (dest : option PRegister)
    (src : list PVirtualValue) (flags : AluOpFlags) (slots : Z) (w : World)
    (op : AluOp) :
  alu_ops_at opcode = Done op ->
  Z.of_nat (length src) <= SrcValues_max_size ->
  - 2 ^ 31 <= nsrc op * slots < 2 ^ 31 ->
  (Z.of_nat (length src) <> nsrc op * slots ->
   AluInstr_ctor this opcode dest src flags slots w =
     Fault (Thrown "Unexpected number of source values")) /\
  (forall i w',
     AluInstr_ctor this opcode dest src flags slots w = Done (i, w') ->
     alu_ops_at (m_opcode i) = Done op /\
     Z.of_nat (length (m_src i)) = nsrc op * m_alu_slots i).
Proof.
  intros Hop Hlen Hprod.
  pose proof (size_t_of_int_eq (Z.of_nat (length src)) (nsrc op * slots)
                ltac:(lia) Hprod) as Hcast.
  split.
  - intros Hne. unfold AluInstr_ctor. rewrite Hop. simpl.
    destruct (decide _) as [Heq | _]; [| reflexivity].
    apply Hcast in Heq. contradiction.
  - intros i w' Hctor.
    destruct (AluInstr_ctor_fields _ _ _ _ _ _ _ _ _ Hctor)
      as (-> & _ & -> & -> & _).
    split; [exact Hop |].
    unfold AluInstr_ctor in Hctor. rewrite Hop in Hctor. simpl in Hctor.
    destruct (decide _) as [Heq | _]; [| discriminate].
    apply Hcast. exact Heq.
Qed.

Lemma AluInstr_ctor_done this opcode dest src flags slots w op :
  alu_ops_at opcode = Done op ->
  Z.of_nat (length src) = nsrc op * slots ->
  nsrc op * slots < 2 ^ 64 ->
  (alu_write ∈ flags -> is_Some dest) ->
  exists i w', AluInstr_ctor this opcode dest src flags slots w = Done (i, w').
Proof.
  intros Hop Hlen Hlt Hw. unfold AluInstr_ctor. rewrite Hop. simpl.
  rewrite decide_True.
  2: { unfold size_t_of_int. rewrite Z.mod_small by lia. exact Hlen. }
  destruct (has_alu_flag _ _ && bool_decide (dest = None)) eqn:Hbad.
  - apply andb_true_iff in Hbad as [Hf Hd].
    apply bool_decide_eq_true in Hf, Hd. simpl in Hf.
    destruct Hw as [r Hr]; [| congruence].
    destruct (decide (length src = 3%nat)); set_solver.
  - eexists _, _. reflexivity.
Qed.

Lemma has_alu_flag_true (i : AluInstr) (f : AluModifiers) :
  has_alu_flag i f = true <-> f ∈ m_alu_flags i.
Proof. unfold has_alu_flag. apply bool_decide_eq_true. Qed.

Lemma has_alu_flag_false (i : AluInstr) (f : AluModifiers) :
  has_alu_flag i f = false <-> f ∉ m_alu_flags i.
Proof. unfold has_alu_flag. apply bool_decide_eq_false. Qed.

(** C10: the two LDS constructors always build an instruction, whatever
    the LDS opcode, the number of sources and the flags: the instruction
    carries the is-LDS flag, has no destination, and keeps the sources and
    the flags it was given (the write flag too), with no look at the LDS
    opcode table. *)
Theorem lds_ctors_never_fail (this : InstrPtr) (op : ESDOp) (w : World) :
  (forall (src0 src1 : option PVirtualValue) (address : PVirtualValue),
     exists i w',
       AluInstr_ctor_lds this op src0 src1 address w = Done (i, w') /\
       has_alu_flag i alu_is_lds = true /\
       m_lds_opcode i = op /\ m_dest i = None /\
       m_src i =
         address ::
         match src0 with
         | Some s0 => s0 :: match src1 with Some s1 => [s1] | None => [] end
         | None => []
         end) /\
  (forall (src : list PVirtualValue) (flags : AluOpFlags),
     exists i w',
       AluInstr_ctor_lds_src this op src flags w = Done (i, w') /\
       has_alu_flag i alu_is_lds = true /\
       m_lds_opcode i = op /\ m_dest i = None /\ m_src i = src /\
       (forall f, f ∈ flags -> has_alu_flag i f = true)).
Proof.
  split.
  - intros src0 src1 address.
    eexists _, _. split; [reflexivity |].
    split; [apply has_alu_flag_true; simpl; set_solver |].
    split; [reflexivity |]. split; [reflexivity |].
    destruct src0 as [s0 |]; [destruct src1 as [s1 |] |]; reflexivity.
  - intros src flags.
    eexists _, _. split; [reflexivity |].
    split; [apply has_alu_flag_true; simpl; set_solver |].
    split; [reflexivity |]. split; [reflexivity |]. split; [reflexivity |].
    intros f Hf. apply has_alu_flag_true. simpl. set_solver.
Qed.

End Construction.

Section Propagation.
Context `{V : Values} `{T : OpTables} `{R : !Readports} `{F : !Factory}.

Lemma pin_is_true (w : World) (v : PVirtualValue) (p : Pin) :
  pin_is w v p = true <-> pin w v = p.
Proof. unfold pin_is. apply bool_decide_eq_true. Qed.

(** What the specification says of [can_propagate_src] for a register
    source. *)
Definition propagate_src_legal (w : World) (d src_reg : PRegister) : Prop :=
  has_flag_ssa d = true /\
  ((pin w d = pin_fully /\ equal_to w d src_reg = true) \/
   (pin w d = pin_chan /\
    (pin w src_reg = pin_none \/
     (pin w src_reg = pin_chan /\ chan src_reg = chan d))) \/
   (pin w d = pin_none \/ pin w d = pin_free)).

(** What the specification says of [can_propagate_dest] for a register
    source: false for a fully pinned or non-SSA source; for a channel
    pinned source the destination decides; otherwise the source pin does. *)
Definition propagate_dest_legal (w : World) (d src_reg : PRegister) : Prop :=
  pin w src_reg <> pin_fully /\ has_flag_ssa src_reg = true /\
  (if decide (pin w src_reg = pin_chan) then
     pin w d = pin_none \/ pin w d = pin_free \/
     ((pin w d = pin_chan \/ pin w d = pin_group) /\ chan src_reg = chan d)
   else pin w src_reg = pin_none \/ pin w src_reg = pin_free).

(** C5: for an instruction that satisfies [can_copy_propagate],
    [can_propagate_src] answers true when source 0 is not a register, and
    otherwise answers true exactly when the destination is SSA and the
    destination is fully pinned and register-equal to the source, or is
    channel pinned with the source unpinned or pinned to the same channel,
    or is unpinned or free. *)
Theorem can_propagate_src_spec (w : World) (i : AluInstr) (s0 : PVirtualValue) :
  can_copy_propagate i = true ->
  m_src i !! 0%nat = Some s0 ->
  (as_register s0 = None -> can_propagate_src w i = Done true) /\
  (forall src_reg d,
     as_register s0 = Some src_reg ->
     m_dest i = Some d ->
     exists b, can_propagate_src w i = Done b /\
               (b = true <-> propagate_src_legal w d src_reg)).
Proof.
  intros Hcp Hs0. unfold can_propagate_src. rewrite Hcp, Hs0. simpl.
  split.
  - intros ->. reflexivity.
  - intros src_reg d -> ->. unfold propagate_src_legal.
    destruct (has_flag_ssa d) eqn:Hssa; simpl.
    2: { eexists; split; [reflexivity |]. split; [discriminate | intros [? _]; discriminate]. }
    destruct (pin_is w d pin_fully) eqn:Hfully.
    { apply pin_is_true in Hfully. eexists; split; [reflexivity |].
      rewrite Hfully. split.
      - intros Heq. split; [reflexivity |]. left. split; [reflexivity | exact Heq].
      - intros [_ [[_ Heq] | [[? _] | [? | ?]]]]; [exact Heq | discriminate ..]. }
    apply bool_decide_eq_false in Hfully.
    destruct (pin_is w d pin_chan) eqn:Hchan.
    { apply pin_is_true in Hchan. eexists; split; [reflexivity |].
      rewrite Hchan. rewrite orb_true_iff, andb_true_iff, !pin_is_true, bool_decide_eq_true.
      split.
      - intros Hsrc. split; [reflexivity |]. right. left. split; [reflexivity | exact Hsrc].
      - intros [_ [[? _] | [[_ Hsrc] | [? | ?]]]]; [discriminate | exact Hsrc | discriminate ..]. }
    apply bool_decide_eq_false in Hchan.
    eexists; split; [reflexivity |].
    rewrite orb_true_iff, !pin_is_true. split.
    + intros Hd. split; [reflexivity |]. right. right. exact Hd.
    + intros [_ [[? _] | [[? _] | Hd]]]; [contradiction .. | exact Hd].
Qed.

(** C6: for an instruction that satisfies [can_copy_propagate],
    [can_propagate_dest] answers false when source 0 is not a register;
    for a register source it answers false when the source is fully pinned
    or not SSA, for a channel pinned source true exactly when the
    destination is unpinned or free or is channel or group pinned with the
    source's channel, and otherwise true exactly when the source is
    unpinned or free. *)
Theorem can_propagate_dest_spec (w : World) (i : AluInstr) (s0 : PVirtualValue) :
  can_copy_propagate i = true ->
  m_src i !! 0%nat = Some s0 ->
  (as_register s0 = None -> can_propagate_dest w i = Done false) /\
  (forall src_reg d,
     as_register s0 = Some src_reg ->
     m_dest i = Some d ->
     exists b, can_propagate_dest w i = Done b /\
               (b = true <-> propagate_dest_legal w d src_reg)).
Proof.
  intros Hcp Hs0. unfold can_propagate_dest. rewrite Hcp, Hs0. simpl.
  split.
  - intros ->. reflexivity.
  - intros src_reg d -> ->. unfold propagate_dest_legal.
    destruct (pin_is w src_reg pin_fully) eqn:Hfully.
    { apply pin_is_true in Hfully. eexists; split; [reflexivity |].
      split; [discriminate | intros [Hne _]; contradiction]. }
    apply bool_decide_eq_false in Hfully.
    destruct (has_flag_ssa src_reg) eqn:Hssa; simpl.
    2: { eexists; split; [reflexivity |].
         split; [discriminate | intros (_ & ? & _); discriminate]. }
    destruct (pin_is w src_reg pin_chan) eqn:Hchan.
    { apply pin_is_true in Hchan. eexists; split; [reflexivity |].
      destruct (decide _) as [_ | Hne]; [| contradiction].
      rewrite !orb_true_iff, andb_true_iff, orb_true_iff, !pin_is_true,
        bool_decide_eq_true.
      split.
      - intros Hd. repeat split; [exact Hfully |]. tauto.
      - intros (_ & _ & Hd). tauto. }
    apply bool_decide_eq_false in Hchan.
    eexists; split; [reflexivity |].
    destruct (decide _) as [Heq | _]; [contradiction |].
    rewrite orb_true_iff, !pin_is_true. split.
    + intros Hs. repeat split; [exact Hfully | exact Hs].
    + intros (_ & _ & Hs). exact Hs.
Qed.

End Propagation.

Section Readiness.
Context `{V : Values} `{T : OpTables} `{R : !Readports} `{F : !Factory}.

(** C7: [do_ready] answers false when some entry of [required_instr()] is
    not scheduled, and true for an instruction with no sources, no
    destination, no extra dependencies and no required instructions. *)
Theorem do_ready_required_and_base (w : World) (this : InstrPtr) (i : AluInstr) :
  ((exists p, p ∈ required_instr w this /\ is_scheduled w p = false) ->
   do_ready w this i = false) /\
  (required_instr w this = [] -> m_src i = [] -> m_dest i = None ->
   m_extra_dependencies i = [] -> do_ready w this i = true).
Proof.
  split.
  - intros (p & Hin & Hp). unfold do_ready.
    destruct (forallb (is_scheduled w) (required_instr w this)) eqn:Hall;
      [| reflexivity].
    rewrite forallb_forall in Hall.
    apply list_elem_of_In in Hin. apply Hall in Hin. congruence.
  - intros Hreq Hsrc Hdest Hextra. unfold do_ready.
    rewrite Hreq, Hsrc, Hdest, Hextra. reflexivity.
Qed.

End Readiness.

Section ReplaceSource.
Context `{V : Values} `{T : OpTables} `{R : !Readports} `{F : !Factory}.

Lemma with_src_same (i : AluInstr) : with_src (m_src i) i = i.
Proof. destruct i; reflexivity. Qed.

Lemma map_subst_no_match {A : Type} (p : A -> bool) (y : A) (l : list A) :
  existsb p l = false -> map (fun s => if p s then y else s) l = l.
Proof.
  induction l as [| x l IH]; simpl; [reflexivity |].
  rewrite orb_false_iff. intros [Hx Hl]. rewrite Hx, IH by exact Hl. reflexivity.
Qed.

(** The read-port block of [replace_source] touches groups only. *)
Lemma replace_source_ports_objs i old_src new_src w op m b m' :
  replace_source_ports i old_src new_src w op m = Done (b, m') ->
  objs m' = objs m.
Proof.
  unfold replace_source_ports, mbind, read_group, modify_group, lift, mret.
  destruct (_ || _); [| intros [= _ <-]; reflexivity].
  destruct (m_parent_group i) as [g |] eqn:Hg.
  - destruct (groups m !! g) as [grp |] eqn:Hgrp; [| discriminate].
    destruct (replace_source_slots _ _ _ _ _ _ _ _) as [[ok rpc] |]; [| discriminate].
    destruct ok.
    + rewrite Hgrp. intros [= _ <-]. reflexivity.
    + intros [= _ <-]. reflexivity.
  - destruct (replace_source_slots _ _ _ _ _ _ _ _) as [[ok rpc] |]; [| discriminate].
    destruct ok; intros [= _ <-]; reflexivity.
Qed.

(** C2: when [replace_source] answers false, the instruction's source
    list is what it was before the call. *)
Theorem replace_source_false_keeps_sources
    (this : InstrPtr) (old_src : PRegister) (new_src : PVirtualValue)
    (m m' : Machine) (i : AluInstr) :
  objs m !! this = Some i ->
  replace_source this old_src new_src m = Done (false, m') ->
  exists i', objs m' !! this = Some i' /\ m_src i' = m_src i.
Proof.
  intros Hi. unfold replace_source, mbind, read_instr, get_world, lift, mret.
  rewrite Hi.
  destruct (check_readport_validation _ _ _ _) as [valid |]; [| discriminate].
  destruct valid; simpl;
    [| intros [= <-]; exists i; split; [exact Hi | reflexivity]].
  destruct (pin_is _ _ _);
    [intros [= <-]; exists i; split; [exact Hi | reflexivity] |].
  destruct (has_other_addr _ _ _);
    [intros [= <-]; exists i; split; [exact Hi | reflexivity] |].
  destruct (dest_addr_differs _ _ _);
    [intros [= <-]; exists i; split; [exact Hi | reflexivity] |].
  destruct (alu_ops_at (m_opcode i)) as [op |]; [| discriminate].
  destruct (replace_source_ports _ _ _ _ _ m) as [[ports m1] |] eqn:Hports;
    [| discriminate].
  apply replace_source_ports_objs in Hports.
  destruct ports; simpl.
  2: { intros [= <-]. exists i. rewrite Hports. split; [exact Hi | reflexivity]. }
  unfold replace_source_apply, mbind, modify_instr. rewrite Hports, Hi.
  destruct (existsb (equal_to (world m) old_src) (m_src i)) eqn:Hprocess.
  - unfold update_world, mret. discriminate.
  - unfold mret. intros [= <-]. simpl.
    rewrite map_subst_no_match by exact Hprocess.
    rewrite with_src_same, list_insert_id by exact Hi.
    exists i. split; [exact Hi | reflexivity].
Qed.

End ReplaceSource.

Section Split.
Context `{V : Values} `{T : OpTables} `{R : !Readports} `{F : !Factory}.

Ltac msimpl :=
  unfold with_world, with_objs, with_groups, with_alu_map, with_shader_instrs;
  simpl.

Lemma split_slot_sources_spec (src : list PVirtualValue) (nsrc s : nat) :
  forall (n k : nat) (w : World),
    (s * nsrc + k + n <= length src)%nat ->
    exists w',
      split_slot_sources src nsrc s n k w =
        Done (take n (drop (s * nsrc + k) src), w').
Proof.
  induction n as [| n IH]; intros k w Hlen; simpl.
  - eexists. reflexivity.
  - destruct (src !! (s * nsrc + k)%nat) as [v |] eqn:Hv.
    2: { apply lookup_ge_None in Hv. lia. }
    destruct (IH (S k) (pin_split_source v w) ltac:(lia)) as [w' Hrest].
    rewrite Hrest. simpl. exists w'.
    rewrite (drop_S _ _ _ Hv). simpl.
    replace (S (s * nsrc + k)) with (s * nsrc + S k)%nat by lia.
    reflexivity.
Qed.

Lemma split_copy_flags_fields (i : AluInstr) (s : Z) (x : AluInstr) :
  m_opcode (split_copy_flags i s x) = m_opcode x /\
  m_src (split_copy_flags i s x) = m_src x /\
  m_alu_slots (split_copy_flags i s x) = m_alu_slots x /\
  m_alu_flags x ⊆ m_alu_flags (split_copy_flags i s x) /\
  m_alu_flags (split_copy_flags i s x) ⊆
    m_alu_flags x ∪
    {[ alu_src0_neg; alu_src1_neg; alu_src2_neg; alu_src0_abs; alu_src1_abs;
       alu_dst_clamp ]}.
Proof.
  unfold split_copy_flags.
  destruct (_ || _);
    repeat match goal with
           | |- context [if has_alu_flag i ?f then _ else _] =>
               destruct (has_alu_flag i f)
           end;
    simpl; repeat split; set_solver.
Qed.

(** What [split] builds for slot [s] of instruction [i] with destination
    [d]: a one-slot instruction of the same opcode over the slot's sources,
    with the write flag exactly on the destination's channel and no
    last-instruction flag. *)
Definition split_part (i : AluInstr) (d : PRegister) (k : nat) (s : nat)
    (x : AluInstr) : Prop :=
  m_opcode x = m_opcode i /\
  m_alu_slots x = 1 /\
  m_src x = take k (drop (s * k) (m_src i)) /\
  (has_alu_flag x alu_write = true <-> Z.of_nat s = chan d) /\
  has_alu_flag x alu_last_instr = false.

Definition group_push (p : InstrPtr) (grp : AluGroup) : AluGroup :=
  mkAluGroup _ _ (g_instrs grp ++ [p]) (g_readport_reserer grp)
    (g_block_id grp) (g_index grp).

Lemma modify_instr_last o g w am lm sh (x : AluInstr) (f : AluInstr -> AluInstr) :
  modify_instr (length o) f (mkMachine (o ++ [x]) g w am lm sh) =
  Done (tt, mkMachine (o ++ [f x]) g w am lm sh).
Proof.
  unfold modify_instr. simpl.
  rewrite list_lookup_middle by reflexivity.
  rewrite insert_app_r_alt by lia. rewrite Nat.sub_diag. reflexivity.
Qed.

Lemma length_omap_le {A B : Type} (f : A -> option B) (l : list A) :
  (length (omap f l) <= length l)%nat.
Proof.
  induction l as [| a l IH]; cbn; [lia |].
  destruct (f a); cbn in *; lia.
Qed.

(** [split_slot] is [split_slot_build] and the offer to the group. *)
Definition then_offer (group : GroupPtr) (r : outcome (InstrPtr * Machine))
    : outcome (unit * Machine) :=
  match r with
  | Done (instr, m1) =>
      match add_instruction group instr m1 with
      | Done (added, m2) =>
          if negb added then Fault (Unreachable "Invalid group instruction")
          else Done (tt, m2)
      | Fault e => Fault e
      end
  | Fault e => Fault e
  end.

Lemma then_offer_bind {A : Type} (group : GroupPtr) (a : M A)
    (k : A -> M unit) (b : A -> M InstrPtr) (m : Machine) :
  (forall x m', k x m' = then_offer group (b x m')) ->
  mbind a k m = then_offer group (mbind a b m).
Proof.
  intros H. unfold mbind. destruct (a m) as [[x m'] | e]; [apply H | reflexivity].
Qed.

Lemma split_slot_eq (this : InstrPtr) (group : GroupPtr) (i : AluInstr)
    (d : PRegister) (s : Z) (m : Machine) :
  split_slot this group i d s m = then_offer group (split_slot_build this i d s m).
Proof.
  unfold split_slot, split_slot_build.
  apply then_offer_bind. intros dst m1.
  apply then_offer_bind. intros _ m2.
  apply then_offer_bind. intros op m3.
  apply then_offer_bind. intros w m4.
  apply then_offer_bind. intros [src w'] m5.
  apply then_offer_bind. intros _ m6.
  apply then_offer_bind. intros instr m7.
  apply then_offer_bind. intros _ m8.
  apply then_offer_bind. intros _ m9.
  apply then_offer_bind. intros _ m10.
  apply then_offer_bind. intros _ m11.
  unfold mbind, mret, then_offer.
  destruct (add_instruction group instr m11) as [[[|] m12] | e]; reflexivity.
Qed.

Lemma add_instruction_outcome (group : GroupPtr) (p : InstrPtr) (m : Machine)
    (grp : AluGroup) (x : AluInstr) :
  groups m !! group = Some grp ->
  objs m !! p = Some x ->
  add_instruction group p m =
  if group_accepts (world m) (group_members m group) x
  then Done (true, with_groups (<[group := group_push p grp]> (groups m)) m)
  else Done (false, m).
Proof.
  intros Hgrp Hx. unfold add_instruction, group_members. rewrite Hgrp, Hx.
  reflexivity.
Qed.

Lemma split_slot_build_spec (this : InstrPtr) (i : AluInstr)
    (d : PRegister) (op : AluOp) (k s : nat) (m : Machine) :
  alu_ops_at (m_opcode i) = Done op ->
  nsrc op = Z.of_nat k ->
  Z.of_nat k < 2 ^ 64 ->
  (s * k + k <= length (m_src i))%nat ->
  exists m1 x,
    split_slot_build this i d (Z.of_nat s) m = Done (length (objs m), m1) /\
    objs m1 = objs m ++ [x] /\
    groups m1 = groups m /\
    split_part i d k s x.
Proof.
  intros Hop Hk Hk64 Hlen.
  destruct m as [o g w am lm sh]. cbn [objs groups].
  unfold split_slot_build.
  assert (Hdst : exists dst w1,
    (if bool_decide (chan d = Z.of_nat s) then mret d
     else on_world (dummy_dest (Z.of_nat s))) (mkMachine o g w am lm sh) =
    Done (dst, mkMachine o g w1 am lm sh)).
  { destruct (bool_decide _).
    - eexists _, _. reflexivity.
    - unfold on_world. simpl. destruct (dummy_dest _ _) as [dst w1].
      eexists _, _. reflexivity. }
  destruct Hdst as (dst & w1 & Hdst).
  unfold mbind at 1. rewrite Hdst.
  unfold mbind at 1, update_world at 1; msimpl.
  unfold mbind at 1, lift at 1. rewrite Hop.
  unfold mbind at 1, get_world; msimpl.
  rewrite Hk, !Nat2Z.id.
  match goal with
  | |- context [split_slot_sources _ _ _ _ _ ?w2] =>
      destruct (split_slot_sources_spec (m_src i) k s k 0 w2 ltac:(lia)) as [w3 Hsrc]
  end.
  unfold mbind at 1, lift at 1. rewrite Hsrc.
  unfold mbind at 1, update_world at 1; msimpl.
  rewrite Nat.add_0_r in *.
  set (src := take k (drop (s * k) (m_src i))) in *.
  assert (Hsrclen : length src = k).
  { subst src. rewrite length_take, length_drop. lia. }
  destruct (AluInstr_ctor_done (length o) (m_opcode i) (Some dst) src ∅ 1 w3 op Hop)
    as (x0 & w4 & Hctor); [lia | lia | set_solver |].
  unfold mbind at 1, new_AluInstr at 1; msimpl. rewrite Hctor.
  unfold mbind at 1, update_world at 1; msimpl.
  unfold mbind at 1. rewrite modify_instr_last.
  apply AluInstr_ctor_fields in Hctor
    as (Hx_op & Hx_dest & Hx_src & Hx_slots & Hx_flags & _).
  destruct (split_copy_flags_fields i (Z.of_nat s) x0)
    as (Hc_op & Hc_src & Hc_slots & Hc_lo & Hc_hi).
  set (x1 := split_copy_flags i (Z.of_nat s) x0) in *.
  assert (Hx1 : (alu_write ∉ m_alu_flags x1) /\ (alu_last_instr ∉ m_alu_flags x1)).
  { rewrite Hx_flags in Hc_hi. destruct (decide (length src = 3%nat)); set_solver. }
  destruct Hx1 as [Hx1w Hx1l].
  unfold mbind at 1.
  destruct (bool_decide (Z.of_nat s = chan d)) eqn:Hchan.
  - rewrite modify_instr_last.
    unfold mbind, update_world, mret; msimpl.
    eexists _, _. split; [reflexivity |]. cbn [objs groups].
    split; [reflexivity |]. split; [reflexivity |].
    apply bool_decide_eq_true in Hchan.
    unfold split_part. simpl. fold x1. rewrite Hc_op, Hc_src, Hc_slots.
    split; [exact Hx_op |]. split; [exact Hx_slots |]. split; [exact Hx_src |].
    split.
    + split; [intros _; exact Hchan |].
      intros _. apply has_alu_flag_true. simpl. set_solver.
    + apply has_alu_flag_false. simpl. set_solver.
  - unfold mret at 1.
    unfold mbind, update_world, mret; msimpl.
    eexists _, _. split; [reflexivity |]. cbn [objs groups].
    split; [reflexivity |]. split; [reflexivity |].
    apply bool_decide_eq_false in Hchan.
    unfold split_part. rewrite Hc_op, Hc_src, Hc_slots.
    split; [exact Hx_op |]. split; [exact Hx_slots |]. split; [exact Hx_src |].
    split.
    + split; [| intros Hs; contradiction].
      intros Hw. apply has_alu_flag_true in Hw. contradiction.
    + apply has_alu_flag_false. exact Hx1l.
Qed.

Definition group_pushes (ps : list InstrPtr) (grp : AluGroup) : AluGroup :=
  mkAluGroup _ _ (g_instrs grp ++ ps) (g_readport_reserer grp)
    (g_block_id grp) (g_index grp).

(** What the slot loop has done when it ends. *)
Definition slots_split (i : AluInstr) (d : PRegister) (k : nat) (group : GroupPtr)
    (grp : AluGroup) (n s : nat) (m m' : Machine) : Prop :=
  exists xs,
    objs m' = objs m ++ xs /\
    length xs = n /\
    length (groups m') = length (groups m) /\
    groups m' !! group = Some (group_pushes (seq (length (objs m)) n) grp) /\
    (forall j x, xs !! j = Some x -> split_part i d k (s + j) x).

(** The slot loop ends well when the group takes every instruction, and
    in [unreachable] when it refuses one. *)
Lemma split_slots_spec (this : InstrPtr) (group : GroupPtr) (i : AluInstr)
    (d : PRegister) (op : AluOp) (k : nat) :
  alu_ops_at (m_opcode i) = Done op ->
  nsrc op = Z.of_nat k ->
  Z.of_nat k < 2 ^ 64 ->
  forall (n s : nat) (m : Machine) (grp : AluGroup),
    (s * k + n * k <= length (m_src i))%nat ->
    groups m !! group = Some grp ->
    if split_offers_accepted this group i d n (Z.of_nat s) m
    then exists m',
           split_slots this group i d n (Z.of_nat s) m = Done (tt, m') /\
           slots_split i d k group grp n s m m'
    else split_slots this group i d n (Z.of_nat s) m =
         Fault (Unreachable "Invalid group instruction").
Proof.
  intros Hop Hk Hk64.
  induction n as [| n IH]; intros s m grp Hlen Hgrp;
    cbn [split_offers_accepted split_slots].
  - exists m. split; [reflexivity |]. exists []. rewrite app_nil_r.
    split; [reflexivity |]. split; [reflexivity |]. split; [reflexivity |].
    split.
    + rewrite Hgrp. unfold group_pushes. cbn [seq]. rewrite app_nil_r.
      destruct grp; reflexivity.
    + intros j x Hx. rewrite lookup_nil in Hx. discriminate.
  - destruct (split_slot_build_spec this i d op k s m Hop Hk Hk64 ltac:(lia))
      as (m1 & x & Hbuild & Hobjs1 & Hgroups1 & Hx).
    unfold mbind. rewrite split_slot_eq, Hbuild. cbn [then_offer].
    assert (Hgrp1 : groups m1 !! group = Some grp) by (rewrite Hgroups1; exact Hgrp).
    assert (Hx1 : objs m1 !! length (objs m) = Some x).
    { rewrite Hobjs1. apply list_lookup_middle. reflexivity. }
    rewrite (add_instruction_outcome group _ m1 grp x Hgrp1 Hx1).
    destruct (group_accepts (world m1) (group_members m1 group) x); cbn [negb];
      [| reflexivity].
    set (m2 := with_groups _ m1).
    assert (Hgrp2 : groups m2 !! group = Some (group_push (length (objs m)) grp)).
    { subst m2. cbn [groups with_groups]. apply list_lookup_insert_eq.
      apply lookup_lt_Some in Hgrp1. exact Hgrp1. }
    replace (Z.of_nat s + 1) with (Z.of_nat (S s)) by lia.
    specialize (IH (S s) m2 _ ltac:(lia) Hgrp2).
    destruct (split_offers_accepted this group i d n (Z.of_nat (S s)) m2);
      [| exact IH].
    destruct IH as (m' & Hrest & xs & Hobjs & Hxs & Hglen & Hgrp' & Hparts).
    exists m'. split; [exact Hrest |].
    assert (Hobjs2 : objs m2 = objs m ++ [x]) by (subst m2; exact Hobjs1).
    exists (x :: xs).
    split; [rewrite Hobjs, Hobjs2, <- app_assoc; reflexivity |].
    split; [simpl; lia |].
    split.
    { rewrite Hglen. subst m2. cbn [groups with_groups].
      rewrite length_insert, Hgroups1. reflexivity. }
    split.
    + rewrite Hgrp', Hobjs2, length_app. simpl.
      unfold group_pushes, group_push. simpl.
      rewrite <- app_assoc. simpl.
      replace (length (objs m) + 1)%nat with (S (length (objs m))) by lia.
      reflexivity.
    + intros [| j'] y Hy; simpl in Hy.
      * injection Hy as <-. rewrite Nat.add_0_r. exact Hx.
      * replace (s + S j')%nat with (S s + j')%nat by lia. apply Hparts. exact Hy.
Qed.

Lemma split_spec (this : InstrPtr) (m : Machine) (i : AluInstr) (d : PRegister)
    (op : AluOp) (n k : nat) :
  objs m !! this = Some i ->
  m_dest i = Some d ->
  m_alu_slots i = Z.of_nat n ->
  n <> 1%nat ->
  alu_ops_at (m_opcode i) = Done op ->
  nsrc op = Z.of_nat k ->
  Z.of_nat k < 2 ^ 64 ->
  length (m_src i) = (n * k)%nat ->
  if split_accepted this m
  then exists m' xs grp,
         split this m = Done (Some (length (groups m)), m') /\
         objs m' = objs m ++ xs /\
         length xs = n /\
         groups m' !! length (groups m) = Some grp /\
         g_instrs grp = seq (length (objs m)) n /\
         (forall j x, xs !! j = Some x -> split_part i d k j x)
  else split this m = Fault (Unreachable "Invalid group instruction").
Proof.
  intros Hi Hd Hslots Hn Hop Hk Hk64 Hlen.
  set (m1 := with_world
               (del_parent d this
                  (world (with_groups
                            (groups m ++ [mkAluGroup _ _ [] new_reservation 0 0]) m)))
               (with_groups (groups m ++ [mkAluGroup _ _ [] new_reservation 0 0]) m)).
  assert (Hacc : split_accepted this m =
                 split_offers_accepted this (length (groups m)) i d n 0 m1).
  { unfold split_accepted, new_AluGroup. rewrite Hi, Hd, Hslots, Nat2Z.id.
    reflexivity. }
  assert (Hrun0 : split this m =
                  (let* _ := split_slots this (length (groups m)) i d n 0 in
                   let* w := get_world in
                   let* _ := modify_group (length (groups m)) (fun grp =>
                     mkAluGroup _ _ (g_instrs grp) (g_readport_reserer grp)
                       (block_id w this) (index w this)) in
                   let* _ := update_world (fun w =>
                     fold_left (fun w s =>
                                  match as_register s with
                                  | Some r => del_use r this w
                                  | None => w
                                  end) (m_src i) w) in
                   mret (Some (length (groups m)))) m1).
  { unfold split. unfold mbind at 1, read_instr. rewrite Hi.
    rewrite bool_decide_eq_false_2 by lia.
    unfold mbind at 1, new_AluGroup. rewrite Hd.
    unfold mbind at 1, update_world at 1.
    rewrite Hslots, Nat2Z.id. reflexivity. }
  rewrite Hacc, Hrun0. clear Hacc Hrun0.
  assert (Hg1 : groups m1 !! length (groups m) =
                Some (mkAluGroup _ _ [] new_reservation 0 0)).
  { subst m1. msimpl. apply list_lookup_middle. reflexivity. }
  pose proof (split_slots_spec this (length (groups m)) i d op k Hop Hk Hk64
                n 0%nat m1 _ ltac:(lia) Hg1) as Hloop.
  change (Z.of_nat 0) with 0 in Hloop.
  destruct (split_offers_accepted this (length (groups m)) i d n 0 m1).
  2: { unfold mbind at 1. rewrite Hloop. reflexivity. }
  destruct Hloop as (m2 & Hrun & xs & Hobjs & Hxs & Hglen & Hgrp & Hparts).
  unfold mbind at 1. rewrite Hrun.
  unfold mbind at 1, get_world.
  unfold mbind at 1, modify_group. rewrite Hgrp.
  unfold mbind at 1, update_world, mret.
  eexists _, xs, _. split; [reflexivity |]. msimpl.
  split; [rewrite Hobjs; subst m1; reflexivity |].
  split; [exact Hxs |].
  split.
  { apply list_lookup_insert_eq. apply lookup_lt_Some in Hgrp. exact Hgrp. }
  split; [subst m1; reflexivity |].
  exact Hparts.
Qed.

Lemma omap_lookup_seq {A : Type} (xs o : list A) :
  omap (fun p => (o ++ xs) !! p) (seq (length o) (length xs)) = xs.
Proof.
  revert o. induction xs as [| x xs IH]; intros o; simpl; [reflexivity |].
  rewrite list_lookup_middle by reflexivity.
  f_equal.
  specialize (IH (o ++ [x])). rewrite length_app, <- app_assoc in IH. simpl in IH.
  replace (length o + 1)%nat with (S (length o)) in IH by lia.
  exact IH.
Qed.

Lemma four_slices {A : Type} (k : nat) (l : list A) :
  length l = (4 * k)%nat ->
  take k (drop (0 * k) l) ++ take k (drop (1 * k) l) ++
  take k (drop (2 * k) l) ++ take k (drop (3 * k) l) = l.
Proof.
  intros Hl.
  assert (Hstep : forall a, drop (a * k) l =
                            take k (drop (a * k) l) ++ drop (S a * k) l).
  { intros a. rewrite <- (take_drop k (drop (a * k) l)) at 1.
    rewrite drop_drop. do 2 f_equal. lia. }
  assert (Hlast : drop (4 * k) l = []) by (apply drop_ge; lia).
  pose proof (Hstep 0%nat) as H0. pose proof (Hstep 1%nat) as H1.
  pose proof (Hstep 2%nat) as H2. pose proof (Hstep 3%nat) as H3.
  rewrite Hlast, app_nil_r in H3.
  rewrite H3 in H2. rewrite H2 in H1. rewrite H1 in H0.
  rewrite <- H0. reflexivity.
Qed.

Lemma split_members (this : InstrPtr) (m : Machine) (i : AluInstr) (d : PRegister)
    (op : AluOp) (n : nat) :
  objs m !! this = Some i ->
  m_dest i = Some d ->
  m_alu_slots i = Z.of_nat n ->
  (1 < n)%nat ->
  alu_ops_at (m_opcode i) = Done op ->
  0 <= nsrc op ->
  Z.of_nat (length (m_src i)) = nsrc op * Z.of_nat n ->
  Z.of_nat (length (m_src i)) <= SrcValues_max_size ->
  if split_accepted this m
  then exists g m' xs,
         split this m = Done (Some g, m') /\
         group_members m' g = xs /\
         length xs = n /\
         (forall j x, xs !! j = Some x -> split_part i d (Z.to_nat (nsrc op)) j x)
  else split this m = Fault (Unreachable "Invalid group instruction").
Proof.
  intros Hi Hd Hslots Hn Hop Hpos Hlen Hmax.
  assert (Hmax' : SrcValues_max_size < 2 ^ 64).
  { unfold SrcValues_max_size. apply Z.div_lt_upper_bound; lia. }
  set (k := Z.to_nat (nsrc op)).
  assert (Hk : nsrc op = Z.of_nat k) by (subst k; lia).
  assert (Hk64 : Z.of_nat k < 2 ^ 64) by nia.
  assert (Hlen' : length (m_src i) = (n * k)%nat) by nia.
  pose proof (split_spec this m i d op n k Hi Hd Hslots ltac:(lia) Hop Hk Hk64 Hlen')
    as Hsplit.
  destruct (split_accepted this m); [| exact Hsplit].
  destruct Hsplit as (m' & xs & grp & Hrun & Hobjs & Hxs & Hgrp & Hins & Hparts).
  exists (length (groups m)), m', xs.
  split; [exact Hrun |].
  split; [| split; [exact Hxs | exact Hparts]].
  unfold group_members. rewrite Hgrp, Hins, Hobjs, <- Hxs.
  apply omap_lookup_seq.
Qed.

(** C3: [split] on an instruction with four slots, none of the four
    instructions it offers being refused by the group, gives a group of
    exactly four instructions, each of one slot; the instruction of slot
    [s] holds sources s*nsrc to s*nsrc + nsrc - 1 of the original, so the
    four source lists put end to end are the original's; and exactly one
    of them carries the write flag, the one whose slot is the channel of
    the original destination. *)
Theorem split_four_slots (this : InstrPtr) (m : Machine) (i : AluInstr)
    (d : PRegister) (op : AluOp) :
  objs m !! this = Some i ->
  m_alu_slots i = 4 ->
  m_dest i = Some d ->
  0 <= chan d < 4 ->
  alu_ops_at (m_opcode i) = Done op ->
  0 <= nsrc op ->
  Z.of_nat (length (m_src i)) = nsrc op * 4 ->
  Z.of_nat (length (m_src i)) <= SrcValues_max_size ->
  split_accepted this m = true ->
  exists g m' x0 x1 x2 x3,
    split this m = Done (Some g, m') /\
    group_members m' g = [x0; x1; x2; x3] /\
    (forall (s : nat) x,
       [x0; x1; x2; x3] !! s = Some x ->
       m_alu_slots x = 1 /\
       m_src x =
         take (Z.to_nat (nsrc op)) (drop (s * Z.to_nat (nsrc op)) (m_src i)) /\
       (has_alu_flag x alu_write = true <-> Z.of_nat s = chan d)) /\
    m_src x0 ++ m_src x1 ++ m_src x2 ++ m_src x3 = m_src i /\
    length (List.filter (fun x => has_alu_flag x alu_write) [x0; x1; x2; x3]) = 1%nat.
Proof.
  intros Hi Hslots Hd Hchan Hop Hpos Hlen Hmax Hacc.
  pose proof (split_members this m i d op 4 Hi Hd Hslots ltac:(lia) Hop Hpos Hlen Hmax)
    as Hsplit.
  rewrite Hacc in Hsplit.
  destruct Hsplit as (g & m' & xs & Hrun & Hmem & Hxs & Hparts).
  destruct xs as [| x0 [| x1 [| x2 [| x3 [| ? ?]]]]]; try discriminate.
  exists g, m', x0, x1, x2, x3.
  split; [exact Hrun |]. split; [exact Hmem |].
  set (k := Z.to_nat (nsrc op)) in *.
  pose proof (Hparts 0%nat x0 eq_refl) as (_ & Hs0 & Hsrc0 & Hw0 & _).
  pose proof (Hparts 1%nat x1 eq_refl) as (_ & Hs1 & Hsrc1 & Hw1 & _).
  pose proof (Hparts 2%nat x2 eq_refl) as (_ & Hs2 & Hsrc2 & Hw2 & _).
  pose proof (Hparts 3%nat x3 eq_refl) as (_ & Hs3 & Hsrc3 & Hw3 & _).
  split.
  { intros s x Hx. destruct (Hparts s x Hx) as (_ & H1 & H2 & H3 & _). auto. }
  split.
  { rewrite Hsrc0, Hsrc1, Hsrc2, Hsrc3. apply four_slices. subst k. lia. }
  assert (Hc : chan d = 0 \/ chan d = 1 \/ chan d = 2 \/ chan d = 3) by lia.
  simpl List.filter.
  destruct (has_alu_flag x0 alu_write) eqn:E0, (has_alu_flag x1 alu_write) eqn:E1,
           (has_alu_flag x2 alu_write) eqn:E2, (has_alu_flag x3 alu_write) eqn:E3;
    simpl; try reflexivity; exfalso;
    repeat match goal with
           | H : true = true <-> _ |- _ => destruct H as [H _]; specialize (H eq_refl)
           | H : false = true <-> _ |- _ => destruct H as [_ H]
           end;
    simpl in *; try lia;
    destruct Hc as [Hc | [Hc | [Hc | Hc]]];
    repeat match goal with
           | H : _ = chan d -> false = true |- _ =>
               first [ specialize (H ltac:(simpl; lia)); discriminate | clear H ]
           end.
Qed.

(** C4, as the code has it: [split] of a multi-slot instruction that
    carries the last-instruction flag, none of the instructions it offers
    being refused by the group, gives a group in which no instruction
    carries that flag; what goes to the one instruction whose slot is the
    destination's channel is the write flag. *)
Theorem split_sets_no_last_flag (this : InstrPtr) (m : Machine) (i : AluInstr)
    (d : PRegister) (op : AluOp) (n : nat) :
  objs m !! this = Some i ->
  has_alu_flag i alu_last_instr = true ->
  m_alu_slots i = Z.of_nat n ->
  (1 < n)%nat ->
  m_dest i = Some d ->
  alu_ops_at (m_opcode i) = Done op ->
  0 <= nsrc op ->
  Z.of_nat (length (m_src i)) = nsrc op * Z.of_nat n ->
  Z.of_nat (length (m_src i)) <= SrcValues_max_size ->
  split_accepted this m = true ->
  exists g m',
    split this m = Done (Some g, m') /\
    length (group_members m' g) = n /\
    (forall (s : nat) x,
       group_members m' g !! s = Some x ->
       has_alu_flag x alu_last_instr = false /\
       (has_alu_flag x alu_write = true <-> Z.of_nat s = chan d)).
Proof.
  intros Hi _ Hslots Hn Hd Hop Hpos Hlen Hmax Hacc.
  pose proof (split_members this m i d op n Hi Hd Hslots Hn Hop Hpos Hlen Hmax)
    as Hsplit.
  rewrite Hacc in Hsplit.
  destruct Hsplit as (g & m' & xs & Hrun & Hmem & Hxs & Hparts).
  exists g, m'. split; [exact Hrun |].
  rewrite Hmem. split; [exact Hxs |].
  intros s x Hx. destruct (Hparts s x Hx) as (_ & _ & _ & Hw & Hl).
  split; [exact Hl | exact Hw].
Qed.


End Split.

Section Lowering.
Context `{V : Values} `{T : OpTables} `{R : !Readports} `{F : !Factory}.

Ltac msimpl :=
  unfold with_world, with_objs, with_groups, with_alu_map, with_shader_instrs;
  simpl.

Lemma cond_modify_last o g w am lm sh (x : AluInstr) (b : bool)
    (f : AluInstr -> AluInstr) :
  (if b then modify_instr (length o) f else mret tt)
    (mkMachine (o ++ [x]) g w am lm sh) =
  Done (tt, mkMachine (o ++ [if b then f x else x]) g w am lm sh).
Proof.
  destruct b; [| reflexivity].
  unfold modify_instr. simpl.
  rewrite list_lookup_middle by reflexivity.
  rewrite insert_app_r_alt by lia. rewrite Nat.sub_diag. reflexivity.
Qed.

(** What [emit_alu_op2] leaves on an instruction before the last one is
    marked: the write flag from the constructor, the two flags of the
    second source, and no last-instruction flag. *)
Definition emitted_flags (x : AluInstr) : Prop :=
  alu_write ∈ m_alu_flags x /\ alu_src1_neg ∈ m_alu_flags x /\
  alu_src1_abs ∈ m_alu_flags x /\ alu_last_instr ∉ m_alu_flags x.

Lemma emit_alu_op2_comp_spec (alu : nir_alu_instr) (opcode : EAluOp) (op : AluOp)
    (src0 src1 : nir_alu_src) (pin : Pin) (i : Z) (ir : option InstrPtr)
    (m : Machine) :
  alu_ops_at opcode = Done op ->
  nsrc op = 2 ->
  abs src1 = true ->
  enabled_bit alu i = true ->
  exists m' x,
    emit_alu_op2_comp alu opcode src0 src1 true pin i ir m =
      Done (Some (length (objs m)), m') /\
    objs m' = objs m ++ [x] /\
    shader_instrs m' = shader_instrs m ++ [length (objs m)] /\
    emitted_flags x.
Proof.
  intros Hop Hn Habs Hbit.
  destruct m as [o g w am lm sh].
  unfold emit_alu_op2_comp. rewrite Hbit.
  unfold mbind at 1, on_world at 1; msimpl.
  destruct (vf_dest _ _ _ _) as [d w1]. msimpl.
  unfold mbind at 1, on_world at 1; msimpl.
  destruct (vf_src src0 i w1) as [s0 w2]. msimpl.
  unfold mbind at 1, on_world at 1; msimpl.
  destruct (vf_src src1 i w2) as [s1 w3]. msimpl.
  destruct (AluInstr_ctor_done (length o) opcode (Some d) [s0; s1] {[ alu_write ]} 1
              w3 op Hop) as (x0 & w4 & Hctor);
    [simpl; lia | lia | intros _; eexists; reflexivity |].
  unfold mbind at 1, new_AluInstr at 1, AluInstr_ctor2; msimpl. rewrite Hctor.
  apply AluInstr_ctor_fields in Hctor as (_ & _ & _ & _ & Hflags & _).
  simpl in Hflags.
  msimpl.
  unfold mbind at 1. rewrite cond_modify_last.
  unfold mbind at 1. rewrite cond_modify_last.
  unfold mbind at 1. rewrite modify_instr_last.
  unfold mbind at 1. rewrite cond_modify_last.
  unfold mbind at 1. rewrite cond_modify_last.
  unfold mbind, emit_instruction, mret. msimpl.
  eexists _, _. split; [reflexivity |]. simpl.
  split; [reflexivity |]. split; [reflexivity |].
  rewrite Habs. unfold emitted_flags.
  destruct (negate src0), (abs src0), (saturate (alu_dest alu)); simpl;
    rewrite Hflags; set_solver.
Qed.

Lemma emit_alu_op2_loop_spec (alu : nir_alu_instr) (opcode : EAluOp) (op : AluOp)
    (src0 src1 : nir_alu_src) (pin : Pin) :
  alu_ops_at opcode = Done op ->
  nsrc op = 2 ->
  abs src1 = true ->
  forall (n i0 : nat) (ir : option InstrPtr) (m : Machine),
  exists m' xs,
    emit_alu_op2_loop alu opcode src0 src1 true pin n (Z.of_nat i0) ir m =
      Done (match xs with
            | [] => ir
            | _ :: _ => Some (length (objs m) + length xs - 1)%nat
            end, m') /\
    objs m' = objs m ++ xs /\
    shader_instrs m' = shader_instrs m ++ seq (length (objs m)) (length xs) /\
    length xs = length (List.filter (enabled_bit alu) (map Z.of_nat (seq i0 n))) /\
    Forall emitted_flags xs.
Proof.
  intros Hop Hn Habs.
  induction n as [| n IH]; intros i0 ir m; simpl.
  - exists m, []. unfold mret. simpl. rewrite !app_nil_r.
    repeat split. constructor.
  - unfold mbind.
    destruct (enabled_bit alu (Z.of_nat i0)) eqn:Hbit.
    + destruct (emit_alu_op2_comp_spec alu opcode op src0 src1 pin (Z.of_nat i0) ir m
                  Hop Hn Habs Hbit) as (m1 & x & Hcomp & Hobjs1 & Hsh1 & Hx).
      rewrite Hcomp.
      replace (Z.of_nat i0 + 1) with (Z.of_nat (S i0)) by lia.
      destruct (IH (S i0) (Some (length (objs m))) m1)
        as (m' & xs & Hloop & Hobjs & Hsh & Hlen & Hall).
      exists m', (x :: xs). rewrite Hloop.
      split.
      { f_equal. f_equal. destruct xs as [| y ys]; simpl.
        - f_equal. lia.
        - rewrite Hobjs1, length_app. simpl. f_equal. lia. }
      split; [rewrite Hobjs, Hobjs1, <- app_assoc; reflexivity |].
      split.
      { rewrite Hsh, Hsh1, Hobjs1, length_app, <- app_assoc. simpl.
        replace (length (objs m) + 1)%nat with (S (length (objs m))) by lia.
        reflexivity. }
      split; [simpl; rewrite Hlen; reflexivity |].
      constructor; assumption.
    + unfold emit_alu_op2_comp. rewrite Hbit.
      unfold mret at 1.
      replace (Z.of_nat i0 + 1) with (Z.of_nat (S i0)) by lia.
      destruct (IH (S i0) ir m) as (m' & xs & Hloop & Hobjs & Hsh & Hlen & Hall).
      exists m', xs. rewrite Hloop. repeat split; assumption.
Qed.

(** C9: lowering a (32 bit) fadd whose second source is negated and
    absolute-valued emits one instruction per destination component the
    write mask enables; each has the write flag and the negate and abs
    flags of source 1, and the last-instruction flag is on the last one
    emitted and on no other. *)
Theorem emit_alu_op2_fadd_neg_abs (alu : nir_alu_instr) (a0 a1 : nir_alu_src)
    (op : AluOp) (m : Machine) :
  alu_src alu !! 0%nat = Some a0 ->
  alu_src alu !! 1%nat = Some a1 ->
  negate a1 = true ->
  abs a1 = true ->
  alu_ops_at op2_add = Done op ->
  nsrc op = 2 ->
  Z.land op2_opt_none op2_opt_reverse = 0 ->
  Z.land op2_opt_none op2_opt_neg_src1 = 0 ->
  exists m' xs,
    from_nir_fadd alu m = Done (true, m') /\
    objs m' = objs m ++ xs /\
    shader_instrs m' = shader_instrs m ++ seq (length (objs m)) (length xs) /\
    length xs = length (enabled_components alu) /\
    (forall (j : nat) x,
       xs !! j = Some x ->
       has_alu_flag x alu_src1_neg = true /\
       has_alu_flag x alu_src1_abs = true /\
       has_alu_flag x alu_write = true /\
       (has_alu_flag x alu_last_instr = true <-> S j = length xs)).
Proof.
  intros Ha0 Ha1 Hneg Habs Hop Hn Hrev Hnegopt.
  unfold from_nir_fadd, emit_alu_op2. rewrite Ha0, Ha1, Hrev, Hnegopt.
  rewrite bool_decide_eq_false_2 by lia. rewrite Hneg.
  rewrite (bool_decide_eq_true_2 (Z.lxor 0 (Z.b2z true) <> 0)) by (cbv; discriminate).
  destruct (emit_alu_op2_loop_spec alu op2_add op a0 a1 (pin_for_components alu)
              Hop Hn Habs (Z.to_nat (num_components (dest (alu_dest alu)))) 0%nat None m)
    as (m1 & xs & Hloop & Hobjs & Hsh & Hlen & Hall).
  unfold mbind at 1. change 0 with (Z.of_nat 0) at 1. rewrite Hloop.
  destruct xs as [| x0 xs0 _] using rev_ind.
  - unfold mbind, mret. exists m1, []. split; [reflexivity |].
    split; [exact Hobjs |]. split; [exact Hsh |]. split; [exact Hlen |].
    intros j x Hx. rewrite lookup_nil in Hx. discriminate.
  - assert (Hp : match xs0 ++ [x0] with
                 | [] => None
                 | _ :: _ => Some (length (objs m) + length (xs0 ++ [x0]) - 1)%nat
                 end = Some (length (objs m ++ xs0))).
    { rewrite !length_app. simpl. destruct xs0; simpl; f_equal; lia. }
    rewrite Hp. clear Hp.
    destruct m1 as [o1 g1 w1 am1 lm1 sh1]. simpl in Hobjs, Hsh.
    rewrite app_assoc in Hobjs. subst o1.
    unfold mbind at 1. rewrite modify_instr_last. unfold mret.
    eexists _, (xs0 ++ [set_alu_flag alu_last_instr x0]).
    split; [reflexivity |]. simpl.
    split; [rewrite app_assoc; reflexivity |].
    split; [rewrite Hsh, !length_app; reflexivity |].
    split; [unfold enabled_components; rewrite <- Hlen, !length_app; reflexivity |].
    apply Forall_app in Hall as [Hall0 Hlast].
    rewrite Forall_singleton in Hlast. unfold emitted_flags in Hlast.
    destruct Hlast as (Hw & Hn1 & Ha1' & Hl).
    intros j x Hx. rewrite length_app. simpl.
    destruct (decide (j < length xs0)%nat) as [Hlt | Hge].
    + rewrite lookup_app_l in Hx by exact Hlt.
      rewrite Forall_lookup in Hall0.
      pose proof (Hall0 j x Hx) as Hflags. unfold emitted_flags in Hflags.
      destruct Hflags as (Hw' & Hn' & Ha' & Hl').
      rewrite !has_alu_flag_true.
      split; [exact Hn' |]. split; [exact Ha' |]. split; [exact Hw' |].
      split; [intros Hc; contradiction | lia].
    + rewrite lookup_app_r in Hx by lia.
      destruct (j - length xs0)%nat as [| j'] eqn:Hj; simpl in Hx; [| discriminate].
      injection Hx as <-.
      rewrite !has_alu_flag_true. simpl.
      split; [set_solver |]. split; [set_solver |]. split; [set_solver |].
      split; [lia | set_solver].
Qed.

End Lowering.

(** ** The text form *)

Section Tokens.

(** A string with no white space in it, and a token: such a string that is
    not empty. *)
Fixpoint no_space (s : string) : bool :=
  match s with
  | EmptyString => true
  | String c r => negb (is_space c) && no_space r
  end.

Definition is_token (s : string) : bool :=
  negb (bool_decide (s = "")) && no_space s.

(** What the token loop gives out when it meets white space or the end. *)
Definition flush (cur : string) : list string :=
  if bool_decide (cur = "") then [] else [cur].

Lemma string_app_cons (c : ascii) (a b : string) :
  String c a +:+ b = String c (a +:+ b).
Proof. reflexivity. Qed.

Lemma string_app_nil_l (a : string) : "" +:+ a = a.
Proof. reflexivity. Qed.

Lemma string_app_assoc (a b c : string) : (a +:+ b) +:+ c = a +:+ (b +:+ c).
Proof.
  induction a as [| x a IH]; [reflexivity |].
  rewrite !string_app_cons, IH. reflexivity.
Qed.

Lemma string_app_nil_r (a : string) : a +:+ "" = a.
Proof.
  induction a as [| x a IH]; [reflexivity |].
  rewrite string_app_cons, IH. reflexivity.
Qed.

Lemma no_space_app (a b : string) :
  no_space (a +:+ b) = no_space a && no_space b.
Proof.
  induction a as [| x a IH]; [reflexivity |].
  rewrite string_app_cons. cbn [no_space]. rewrite IH, andb_assoc. reflexivity.
Qed.

Lemma flush_token (t : string) : is_token t = true -> flush t = [t].
Proof.
  unfold is_token, flush. intros H. apply andb_true_iff in H as [H _].
  destruct (bool_decide (t = "")); [discriminate | reflexivity].
Qed.

Lemma is_token_app_l (a b : string) :
  is_token a = true -> no_space b = true -> is_token (a +:+ b) = true.
Proof.
  unfold is_token. intros Ha Hb. apply andb_true_iff in Ha as [Hne Hsp].
  rewrite no_space_app, Hsp, Hb.
  destruct a; [discriminate | reflexivity].
Qed.

Lemma is_token_app_r (a b : string) :
  no_space a = true -> is_token b = true -> is_token (a +:+ b) = true.
Proof.
  unfold is_token. intros Ha Hb. apply andb_true_iff in Hb as [Hne Hsp].
  rewrite no_space_app, Hsp, Ha.
  destruct a; [| reflexivity].
  rewrite string_app_nil_l, Hne. reflexivity.
Qed.

(** The token loop over a stretch without white space, over a blank, and
    at the end of the text. *)
Lemma tokenize_from_no_space (t s cur : string) :
  no_space t = true ->
  tokenize_from cur (t +:+ s) = tokenize_from (cur +:+ t) s.
Proof.
  revert cur. induction t as [| c t IH]; intros cur Hns.
  - rewrite string_app_nil_r. reflexivity.
  - cbn in Hns. apply andb_true_iff in Hns as [Hc Ht].
    apply negb_true_iff in Hc.
    rewrite string_app_cons. cbn [tokenize_from]. rewrite Hc.
    rewrite IH by exact Ht. rewrite string_app_assoc. reflexivity.
Qed.

Lemma tokenize_from_blank (s cur : string) :
  tokenize_from cur (" " +:+ s) = flush cur ++ tokenize_from "" s.
Proof.
  unfold flush. change (" " +:+ s) with (String " " s). cbn [tokenize_from].
  change (is_space " ") with true. cbn iota.
  destruct (bool_decide (cur = "")); reflexivity.
Qed.

Lemma tokenize_from_end (cur : string) : tokenize_from cur "" = flush cur.
Proof. reflexivity. Qed.

(** What [parse_src] does to the text of a source. *)
Lemma substring_tail (c : ascii) (s : string) :
  substring 1 (String.length (String c s) - 1) (String c s) = s.
Proof.
  cbn. rewrite Nat.sub_0_r.
  induction s as [| x s IH]; cbn; [reflexivity |].
  f_equal. exact IH.
Qed.

Lemma substring_app_l (s t : string) :
  substring 0 (String.length s) (s +:+ t) = s.
Proof.
  induction s as [| x s IH].
  - destruct t; reflexivity.
  - rewrite string_app_cons. cbn [String.length substring]. f_equal. exact IH.
Qed.

Lemma string_length_app (s t : string) :
  String.length (s +:+ t) = (String.length s + String.length t)%nat.
Proof.
  induction s as [| x s IH]; [reflexivity |].
  rewrite string_app_cons. cbn [String.length]. rewrite IH. reflexivity.
Qed.

Lemma get_app_last (s : string) (c : ascii) :
  String.get (String.length s) (s +:+ String c "") = Some c.
Proof.
  induction s as [| x s IH]; [reflexivity |].
  rewrite string_app_cons. cbn [String.length String.get]. exact IH.
Qed.

End Tokens.

Section PrintTokens.
Context `{V : Values} `{T : OpTables} `{R : !Readports} `{F : !Factory}.

(** A value prints as a token that does not begin with one of the two
    source marks. *)
Definition is_value_token (s : string) : bool :=
  is_token s && negb (starts_with "-" s) && negb (starts_with "|" s).

(** The modifier of source [k] of a slot; the arrays hold three and two. *)
Definition neg_flag (k : nat) : AluModifiers :=
  match k with
  | 0%nat => alu_src0_neg
  | 1%nat => alu_src1_neg
  | _ => alu_src2_neg
  end.

Definition abs_flag (k : nat) : AluModifiers :=
  match k with
  | 0%nat => alu_src0_abs
  | _ => alu_src1_abs
  end.

Definition has_neg (i : AluInstr) (k : nat) : bool := has_alu_flag i (neg_flag k).

Definition has_abs (i : AluInstr) (k idx : nat) : bool :=
  (idx <? 2)%nat && has_alu_flag i (abs_flag k).

Lemma src_marks_done (i : AluInstr) (k idx : nat) :
  (k <= 2)%nat -> (k <= idx)%nat ->
  src_marks i k idx = Done (has_neg i k, has_abs i k idx).
Proof.
  intros Hk Hidx. unfold src_marks, has_neg, has_abs.
  destruct k as [| [| [| k]]]; try lia; simpl.
  - destruct (idx <? 2)%nat; reflexivity.
  - destruct (idx <? 2)%nat; reflexivity.
  - destruct (idx <? 2)%nat eqn:Hlt; [| reflexivity].
    apply Nat.ltb_lt in Hlt. lia.
Qed.

(** The source tokens of a slot, [n] to go from source [k] at position
    [idx], and of the slots from [s] on, each later slot after a [+]. *)
Fixpoint slot_tokens (w : World) (i : AluInstr) (n k idx : nat) : list string :=
  match n with
  | O => []
  | S n' =>
      match m_src i !! idx with
      | Some v =>
          src_token w v (has_neg i k) (has_abs i k idx) ::
          slot_tokens w i n' (S k) (S idx)
      | None => []
      end
  end.

Fixpoint slots_tokens (w : World) (i : AluInstr) (nsrc slots s idx : nat)
    : list string :=
  match slots with
  | O => []
  | S slots' =>
      (if bool_decide (s = 0%nat) then [] else ["+"]) ++
      slot_tokens w i nsrc 0 idx ++
      slots_tokens w i nsrc slots' (S s) (idx + nsrc)
  end.

Lemma src_token_is_token (w : World) (v : PVirtualValue) (neg abs : bool) :
  is_value_token (print_value w v) = true ->
  is_token (src_token w v neg abs) = true.
Proof.
  unfold is_value_token, src_token. intros Hv.
  apply andb_true_iff in Hv as [Hv _]. apply andb_true_iff in Hv as [Hv _].
  apply is_token_app_r; [destruct neg; reflexivity |].
  apply is_token_app_r; [destruct abs; reflexivity |].
  apply is_token_app_l; [exact Hv | destruct abs; reflexivity].
Qed.

(** The [{...}] token and the tokens after it. *)
Definition flags_token (i : AluInstr) : string :=
  "{" +:+
  (if has_alu_flag i alu_write then "W" else "") +:+
  (if has_alu_flag i alu_last_instr then "L" else "") +:+
  (if has_alu_flag i alu_update_exec then "E" else "") +:+
  (if has_alu_flag i alu_update_pred then "P" else "") +:+
  "}".

Definition trailer_tokens (i : AluInstr) : list string :=
  flags_token i ::
  option_list (bank_swizzle_map (m_bank_swizzle i)) ++
  option_list (cf_map (m_cf_type i)).

Lemma flags_token_is_token (i : AluInstr) : is_token (flags_token i) = true.
Proof.
  unfold flags_token.
  destruct (has_alu_flag i alu_write), (has_alu_flag i alu_last_instr),
    (has_alu_flag i alu_update_exec), (has_alu_flag i alu_update_pred);
    reflexivity.
Qed.

Lemma bank_swizzle_name_is_token (bs : AluBankSwizzle) (s : string) :
  bank_swizzle_map bs = Some s -> is_token s = true.
Proof. destruct bs; intros [= <-]; reflexivity. Qed.

Lemma cf_name_is_token (cf : ECFAluOpCode) (s : string) :
  cf_map cf = Some s -> is_token s = true.
Proof. destruct cf; intros [= <-]; reflexivity. Qed.

Lemma tokenize_print_tail (i : AluInstr) :
  tokenize_from "" (flags_token i +:+
                    (match bank_swizzle_map (m_bank_swizzle i) with
                     | Some bs_name => " " +:+ bs_name
                     | None => ""
                     end) +:+
                    (match cf_map (m_cf_type i) with
                     | Some cf_name => " " +:+ cf_name
                     | None => ""
                     end)) = trailer_tokens i.
Proof.
  pose proof (flags_token_is_token i) as Hft.
  pose proof Hft as Hns. apply andb_true_iff in Hns as [_ Hns].
  rewrite tokenize_from_no_space by exact Hns. rewrite string_app_nil_l.
  unfold trailer_tokens.
  destruct (bank_swizzle_map (m_bank_swizzle i)) as [bs |] eqn:Hbs;
    destruct (cf_map (m_cf_type i)) as [cf |] eqn:Hcf.
  - apply bank_swizzle_name_is_token in Hbs. apply cf_name_is_token in Hcf.
    pose proof Hbs as Hbs'. apply andb_true_iff in Hbs' as [_ Hbs'].
    pose proof Hcf as Hcf'. apply andb_true_iff in Hcf' as [_ Hcf'].
    rewrite string_app_assoc, tokenize_from_blank, (flush_token _ Hft).
    rewrite tokenize_from_no_space by exact Hbs'. rewrite string_app_nil_l.
    rewrite <- (string_app_nil_r (" " +:+ cf)), string_app_assoc.
    rewrite tokenize_from_blank, (flush_token _ Hbs).
    rewrite tokenize_from_no_space by exact Hcf'. rewrite string_app_nil_l.
    rewrite tokenize_from_end, (flush_token _ Hcf). reflexivity.
  - apply bank_swizzle_name_is_token in Hbs.
    pose proof Hbs as Hbs'. apply andb_true_iff in Hbs' as [_ Hbs'].
    rewrite string_app_nil_r.
    rewrite <- (string_app_nil_r (" " +:+ bs)), string_app_assoc.
    rewrite tokenize_from_blank, (flush_token _ Hft).
    rewrite tokenize_from_no_space by exact Hbs'. rewrite string_app_nil_l.
    rewrite tokenize_from_end, (flush_token _ Hbs). reflexivity.
  - apply cf_name_is_token in Hcf.
    pose proof Hcf as Hcf'. apply andb_true_iff in Hcf' as [_ Hcf'].
    rewrite string_app_nil_l.
    rewrite <- (string_app_nil_r (" " +:+ cf)), string_app_assoc.
    rewrite tokenize_from_blank, (flush_token _ Hft).
    rewrite tokenize_from_no_space by exact Hcf'. rewrite string_app_nil_l.
    rewrite tokenize_from_end, (flush_token _ Hcf). reflexivity.
  - rewrite string_app_nil_l, tokenize_from_end, (flush_token _ Hft). reflexivity.
Qed.

Section Instr.
Variables (w : World) (i : AluInstr).
Hypothesis Hsrc_ok : forall v, v ∈ m_src i -> is_value_token (print_value w v) = true.

Lemma print_slot_tokens :
  forall (n k idx : nat),
    (k + n <= 3)%nat -> (k <= idx)%nat -> (idx + n <= length (m_src i))%nat ->
    exists text,
      print_slot w i n k idx = Done (text, (idx + n)%nat) /\
      forall cur rest,
        (n <> 0%nat -> idx = 0%nat -> cur = "") ->
        tokenize_from cur (text +:+ " " +:+ rest) =
          flush cur ++ slot_tokens w i n k idx ++ tokenize_from "" rest.
Proof.
  induction n as [| n IH]; intros k idx Hk Hidx Hlen.
  - exists "". split; [simpl; rewrite Nat.add_0_r; reflexivity |].
    intros cur rest _. rewrite string_app_nil_l, tokenize_from_blank. reflexivity.
  - destruct (m_src i !! idx) as [v |] eqn:Hv.
    2: { apply lookup_ge_None in Hv. lia. }
    assert (Htok : is_token (src_token w v (has_neg i k) (has_abs i k idx)) = true).
    { apply src_token_is_token, Hsrc_ok. eapply list_elem_of_lookup_2, Hv. }
    destruct (IH (S k) (S idx) ltac:(lia) ltac:(lia) ltac:(lia)) as (text' & Hrun & Htoks).
    eexists. split.
    + replace (idx + S n)%nat with (S idx + n)%nat by lia.
      cbn [print_slot]. unfold print_src. rewrite src_marks_done by lia.
      cbn [obind]. rewrite Hv. cbn [obind]. rewrite Hrun. reflexivity.
    + intros cur rest Hcur. cbn [slot_tokens]. rewrite Hv.
      rewrite !string_app_assoc.
      pose proof Htok as Hns. apply andb_true_iff in Hns as [_ Hns].
      destruct (bool_decide (idx = 0%nat)) eqn:Hz.
      * apply bool_decide_eq_true in Hz. rewrite (Hcur ltac:(lia) Hz).
        rewrite string_app_nil_l.
        rewrite tokenize_from_no_space by exact Hns. rewrite string_app_nil_l.
        rewrite Htoks by (intros _ ?; lia).
        rewrite (flush_token _ Htok). reflexivity.
      * rewrite tokenize_from_blank.
        rewrite tokenize_from_no_space by exact Hns. rewrite string_app_nil_l.
        rewrite Htoks by (intros _ ?; lia).
        rewrite (flush_token _ Htok). reflexivity.
Qed.

Lemma tokenize_slot_then (text text_rest rest cur : string) (toks : list string) :
  (forall rest', tokenize_from cur (text +:+ " " +:+ rest') =
                 flush cur ++ toks ++ tokenize_from "" rest') ->
  text_rest = "" \/ (exists x, text_rest = " " +:+ x) ->
  tokenize_from cur (text +:+ text_rest +:+ " " +:+ rest) =
    flush cur ++ toks ++ tokenize_from "" (text_rest +:+ " " +:+ rest).
Proof.
  intros Hslot [-> | [x ->]].
  - rewrite string_app_nil_l, Hslot, tokenize_from_blank. reflexivity.
  - rewrite string_app_assoc, Hslot, tokenize_from_blank. reflexivity.
Qed.

Lemma print_slots_tokens (nsrc : nat) :
  (nsrc <= 3)%nat ->
  forall (slots s idx : nat),
    idx = (s * nsrc)%nat ->
    (idx + slots * nsrc <= length (m_src i))%nat ->
    exists text,
      print_slots w i nsrc slots s idx = Done text /\
      (text = "" \/ (exists x, text = " " +:+ x) \/ s = 0%nat) /\
      forall rest,
        tokenize_from "" (text +:+ " " +:+ rest) =
          slots_tokens w i nsrc slots s idx ++ tokenize_from "" rest.
Proof.
  intros Hnsrc. induction slots as [| slots IH]; intros s idx Hidx Hlen.
  - exists "". split; [reflexivity |]. split; [left; reflexivity |].
    intros rest. rewrite string_app_nil_l, tokenize_from_blank. reflexivity.
  - destruct (print_slot_tokens nsrc 0 idx ltac:(lia) ltac:(lia) ltac:(lia))
      as (text_slot & Hslot & Hslot_toks).
    destruct (IH (S s) (idx + nsrc)%nat ltac:(lia) ltac:(lia))
      as (text_rest & Hrest & Hshape & Hrest_toks).
    assert (Hshape' : text_rest = "" \/ (exists x, text_rest = " " +:+ x)).
    { destruct Hshape as [? | [? | ?]]; [left; assumption | right; assumption | lia]. }
    eexists. split.
    { cbn [print_slots]. rewrite Hslot. cbn [obind]. rewrite Hrest. reflexivity. }
    split.
    { destruct (bool_decide (s = 0%nat)) eqn:Hs.
      - right. right. apply bool_decide_eq_true in Hs. exact Hs.
      - right. left. eexists. reflexivity. }
    intros rest. cbn [slots_tokens]. rewrite !string_app_assoc.
    destruct (bool_decide (s = 0%nat)) eqn:Hs.
    + apply bool_decide_eq_true in Hs. rewrite string_app_nil_l.
      rewrite (tokenize_slot_then _ _ _ _ (slot_tokens w i nsrc 0 idx)); [| | exact Hshape'].
      * rewrite Hrest_toks. change (flush "") with (@nil string).
        rewrite <- !app_assoc. reflexivity.
      * intros rest'. apply Hslot_toks. intros _ _. reflexivity.
    + apply bool_decide_eq_false in Hs.
      change (" +" +:+ ?x) with (" " +:+ "+" +:+ x).
      rewrite tokenize_from_blank.
      rewrite (tokenize_from_no_space "+") by reflexivity.
      rewrite string_app_nil_l.
      rewrite (tokenize_slot_then _ _ _ _ (slot_tokens w i nsrc 0 idx)); [| | exact Hshape'].
      * rewrite Hrest_toks. change (flush "") with (@nil string).
        change (flush "+") with ["+"]. rewrite <- !app_assoc. reflexivity.
      * intros rest'. apply Hslot_toks. intros Hn Hz. exfalso.
        destruct s; [contradiction |]. destruct nsrc; [contradiction |]. lia.
Qed.

(** The tokens of an instruction's text after the ALU keyword. *)
Definition instr_tokens (op : AluOp) (dtok : string) (nsrc slots : nat) : list string :=
  name op ::
  (if has_alu_flag i alu_dst_clamp then ["CLAMP"] else []) ++
  dtok :: ":" ::
  slots_tokens w i nsrc slots 0 0 ++ trailer_tokens i.

Lemma do_print_tokens (op : AluOp) (d : PRegister) (dtok : string) (k n : nat) :
  has_alu_flag i alu_is_lds = false ->
  alu_ops_at (m_opcode i) = Done op ->
  is_token (name op) = true ->
  nsrc op = Z.of_nat k ->
  (k <= 3)%nat ->
  m_alu_slots i = Z.of_nat n ->
  length (m_src i) = (n * k)%nat ->
  m_dest i = Some d ->
  dest_token w i d = Done dtok ->
  is_token dtok = true ->
  exists body,
    do_print w i = Done ("ALU " +:+ body) /\
    tokenize body = instr_tokens op dtok k n.
Proof.
  intros Hlds Hop Hname Hk Hk3 Hn Hlen Hd Hdtok Hdtok_ok.
  destruct (print_slots_tokens k Hk3 n 0%nat 0%nat eq_refl ltac:(lia))
    as (text & Hslots & _ & Htoks).
  eexists. split.
  { unfold do_print. rewrite Hlds, Hop. cbn [obind].
    unfold print_dest. rewrite Hd, Hdtok. cbn [obind].
    rewrite Hk, Hn, !Nat2Z.id, Hslots. cbn [obind]. reflexivity. }
  unfold tokenize, instr_tokens.
  pose proof Hname as Hname'. apply andb_true_iff in Hname' as [_ Hname'].
  pose proof Hdtok_ok as Hd'. apply andb_true_iff in Hd' as [_ Hd'].
  rewrite !string_app_assoc.
  rewrite tokenize_from_no_space by exact Hname'. rewrite string_app_nil_l.
  assert (Hrest : forall cur, is_token cur = true ->
            tokenize_from cur (" " +:+ dtok +:+ " : " +:+ text +:+ print_tail i) =
            cur :: dtok :: ":" :: slots_tokens w i k n 0 0 ++ trailer_tokens i).
  { intros cur Hcur.
    rewrite tokenize_from_blank, (flush_token _ Hcur).
    rewrite tokenize_from_no_space by exact Hd'. rewrite string_app_nil_l.
    change (" : " +:+ ?x) with (" " +:+ ":" +:+ " " +:+ x).
    rewrite tokenize_from_blank, (flush_token _ Hdtok_ok).
    rewrite (tokenize_from_no_space ":") by reflexivity. rewrite string_app_nil_l.
    rewrite tokenize_from_blank. change (flush ":") with [":"].
    unfold print_tail, print_flags.
    change (" {" +:+ ?x) with (" " +:+ "{" +:+ x).
    rewrite !string_app_assoc.
    rewrite Htoks. fold (flags_token i).
    pose proof (tokenize_print_tail i) as Htail. unfold flags_token in Htail |- *.
    rewrite !string_app_assoc in Htail. rewrite Htail. reflexivity. }
  destruct (has_alu_flag i alu_dst_clamp).
  - change (" CLAMP" +:+ ?x) with (" " +:+ "CLAMP" +:+ x).
    rewrite tokenize_from_blank, (flush_token _ Hname).
    rewrite (tokenize_from_no_space "CLAMP") by reflexivity. rewrite string_app_nil_l.
    rewrite Hrest by reflexivity. reflexivity.
  - rewrite string_app_nil_l. rewrite Hrest by exact Hname. reflexivity.
Qed.

(** The tokens of an LDS instruction's text after the ALU keyword. *)
Definition lds_instr_tokens (op : LDSOp) : list string :=
  "LDS" :: lds_name op :: "__.x" :: ":" ::
  slots_tokens w i (length (m_src i)) 1 0 0 ++ trailer_tokens i.

Lemma do_print_tokens_lds (op : LDSOp) :
  has_alu_flag i alu_is_lds = true ->
  lds_ops_at (m_lds_opcode i) = Done op ->
  is_token (lds_name op) = true ->
  (length (m_src i) <= 3)%nat ->
  m_alu_slots i = 1 ->
  exists body,
    do_print w i = Done ("ALU " +:+ body) /\
    tokenize body = lds_instr_tokens op.
Proof.
  intros Hlds Hop Hname Hk3 Hn.
  destruct (print_slots_tokens (length (m_src i)) Hk3 1%nat 0%nat 0%nat eq_refl
              ltac:(lia))
    as (text & Hslots & _ & Htoks).
  eexists. split.
  { unfold do_print. rewrite Hlds, Hop. cbn [obind].
    rewrite Hn, Nat2Z.id. change (Z.to_nat 1) with 1%nat.
    rewrite Hslots. cbn [obind]. reflexivity. }
  unfold tokenize, lds_instr_tokens.
  pose proof Hname as Hname'. apply andb_true_iff in Hname' as [_ Hname'].
  rewrite !string_app_assoc.
  change ("LDS " +:+ ?x) with ("LDS" +:+ " " +:+ x).
  rewrite (tokenize_from_no_space "LDS") by reflexivity. rewrite string_app_nil_l.
  rewrite tokenize_from_blank. change (flush "LDS") with ["LDS"].
  rewrite tokenize_from_no_space by exact Hname'. rewrite string_app_nil_l.
  change (" __.x : " +:+ ?x) with (" " +:+ "__.x" +:+ " " +:+ ":" +:+ " " +:+ x).
  rewrite tokenize_from_blank, (flush_token _ Hname).
  rewrite (tokenize_from_no_space "__.x") by reflexivity. rewrite string_app_nil_l.
  rewrite tokenize_from_blank. change (flush "__.x") with ["__.x"].
  rewrite (tokenize_from_no_space ":") by reflexivity. rewrite string_app_nil_l.
  rewrite tokenize_from_blank. change (flush ":") with [":"].
  unfold print_tail, print_flags.
  change (" {" +:+ ?x) with (" " +:+ "{" +:+ x).
  rewrite !string_app_assoc.
  rewrite Htoks. fold (flags_token i).
  pose proof (tokenize_print_tail i) as Htail. unfold flags_token in Htail |- *.
  rewrite !string_app_assoc in Htail. rewrite Htail. reflexivity.
Qed.

End Instr.

End PrintTokens.

Section SourceMarks.
Context `{V : Values} `{T : OpTables} `{R : !Readports} `{F : !Factory}.

Lemma src_neg_flags_done (k : nat) :
  (k <= 2)%nat -> src_neg_flags k = Done (neg_flag k).
Proof. destruct k as [| [| [| k]]]; try lia; reflexivity. Qed.

Lemma src_abs_flags_done (k : nat) :
  (k <= 1)%nat -> src_abs_flags k = Done (abs_flag k).
Proof. destruct k as [| [| k]]; try lia; reflexivity. Qed.

Lemma strip_neg_spec (k : nat) (slots : Z) (neg : bool) (body : string)
    (flags : AluOpFlags) :
  (k <= 2)%nat ->
  starts_with "-" body = false ->
  (slots <> 0 -> neg = true -> neg_flag k ∈ flags) ->
  strip_neg k slots ((if neg then "-" else "") +:+ body) flags =
    Done (body, flags ∪ (if neg then {[ neg_flag k ]} else ∅)).
Proof.
  intros Hk Hbody Hin. unfold strip_neg. destruct neg.
  - change ("-" +:+ body) with (String "-" body).
    cbn [starts_with]. rewrite bool_decide_eq_true_2 by reflexivity.
    rewrite src_neg_flags_done by exact Hk. cbn [obind].
    rewrite substring_tail.
    destruct (bool_decide (slots = 0)) eqn:Hs; [reflexivity |].
    apply bool_decide_eq_false in Hs.
    rewrite bool_decide_eq_true_2 by (apply Hin; [exact Hs | reflexivity]).
    f_equal. f_equal. specialize (Hin Hs eq_refl). set_solver.
  - rewrite string_app_nil_l, Hbody. f_equal. f_equal. set_solver.
Qed.

Lemma strip_abs_spec (k : nat) (slots : Z) (abs : bool) (pv : string)
    (flags : AluOpFlags) :
  (abs = true -> (k <= 1)%nat) ->
  starts_with "|" pv = false ->
  (slots <> 0 -> abs = true -> abs_flag k ∈ flags) ->
  strip_abs k slots
    ((if abs then "|" else "") +:+ pv +:+ (if abs then "|" else "")) flags =
    Done (pv, flags ∪ (if abs then {[ abs_flag k ]} else ∅)).
Proof.
  intros Hk Hpv Hin. unfold strip_abs. destruct abs.
  - change ("|" +:+ pv +:+ "|") with (String "|" (pv +:+ "|")).
    cbn [starts_with]. rewrite bool_decide_eq_true_2 by reflexivity.
    assert (Hlast : String.get (String.length (String "|" (pv +:+ "|")) - 1)
                      (String "|" (pv +:+ "|")) = Some "|"%char).
    { cbn [String.length]. rewrite Nat.sub_succ, Nat.sub_0_r.
      rewrite string_length_app. cbn [String.length].
      rewrite Nat.add_1_r. cbn [String.get]. apply get_app_last. }
    rewrite Hlast, bool_decide_eq_true_2 by reflexivity. cbn [negb].
    rewrite src_abs_flags_done by (apply Hk; reflexivity). cbn [obind].
    assert (Hsub : substring 1 (String.length (String "|" (pv +:+ "|")) - 2)
                     (String "|" (pv +:+ "|")) = pv).
    { cbn [String.length]. rewrite string_length_app. cbn [String.length].
      replace (S (String.length pv + 1) - 2)%nat with (String.length pv) by lia.
      cbn [substring]. apply substring_app_l. }
    rewrite Hsub.
    destruct (bool_decide (slots = 0)) eqn:Hs; [reflexivity |].
    apply bool_decide_eq_false in Hs.
    rewrite bool_decide_eq_true_2 by (apply Hin; [exact Hs | reflexivity]).
    f_equal. f_equal. specialize (Hin Hs eq_refl). set_solver.
  - rewrite string_app_nil_l, string_app_nil_r, Hpv. f_equal. f_equal. set_solver.
Qed.

(** The flags a source token sets when it is read in the first slot. *)
Definition marks (i : AluInstr) (k idx : nat) : AluOpFlags :=
  (if has_neg i k then {[ neg_flag k ]} else ∅) ∪
  (if has_abs i k idx then {[ abs_flag k ]} else ∅).

Fixpoint marks_range (i : AluInstr) (n k idx : nat) : AluOpFlags :=
  match n with
  | O => ∅
  | S n' => marks i k idx ∪ marks_range i n' (S k) (S idx)
  end.

Lemma marks_mono (i : AluInstr) (k idx : nat) :
  (k <= idx)%nat -> marks i k idx ⊆ marks i k k.
Proof.
  intros Hle. unfold marks, has_abs.
  destruct (idx <? 2)%nat eqn:Hidx; [| set_solver].
  apply Nat.ltb_lt in Hidx.
  rewrite (proj2 (Nat.ltb_lt k 2)) by lia. reflexivity.
Qed.

Lemma marks_range_mono (i : AluInstr) (n k idx : nat) :
  (k <= idx)%nat -> marks_range i n k idx ⊆ marks_range i n k k.
Proof.
  revert k idx. induction n as [| n IH]; intros k idx Hle; simpl; [reflexivity |].
  pose proof (marks_mono i k idx Hle).
  pose proof (IH (S k) (S idx) ltac:(lia)).
  set_solver.
Qed.

Lemma parse_src_spec (w wcur w' : World) (i : AluInstr) (k idx : nat) (slots : Z)
    (v v' : PVirtualValue) (flags : AluOpFlags) :
  (k <= 2)%nat -> (k <= idx)%nat ->
  is_value_token (print_value w v) = true ->
  (slots <> 0 -> marks i k idx ⊆ flags) ->
  src_from_string (print_value w v) wcur = (Some v', w') ->
  parse_src k slots (src_token w v (has_neg i k) (has_abs i k idx)) flags wcur =
    Done (v', flags ∪ marks i k idx, w').
Proof.
  intros Hk Hidx Hv Hsub Hfac. unfold parse_src, src_token.
  unfold is_value_token in Hv.
  apply andb_true_iff in Hv as [Hv Hbar]. apply andb_true_iff in Hv as [Htok Hdash].
  apply negb_true_iff in Hbar, Hdash.
  rewrite strip_neg_spec.
  - cbn [obind]. rewrite strip_abs_spec.
    + cbn [obind]. rewrite Hfac. unfold marks.
      f_equal. f_equal. f_equal. set_solver.
    + unfold has_abs. intros Habs. apply andb_true_iff in Habs as [Hlt _].
      apply Nat.ltb_lt in Hlt. lia.
    + exact Hbar.
    + intros Hs Habs. specialize (Hsub Hs). unfold marks in Hsub.
      rewrite Habs in Hsub. set_solver.
  - exact Hk.
  - destruct (has_abs i k idx); [reflexivity |].
    rewrite string_app_nil_l, string_app_nil_r. exact Hdash.
  - intros Hs Hneg. specialize (Hsub Hs). unfold marks in Hsub.
    rewrite Hneg in Hsub. set_solver.
Qed.

End SourceMarks.

Section Frame.
Context `{V : Values} `{T : OpTables} `{R : !Readports} `{F : !Factory}.

(** The flags the [{...}] token carries. *)
Definition status_flags (i : AluInstr) : AluOpFlags :=
  (if has_alu_flag i alu_write then {[ alu_write ]} else ∅) ∪
  (if has_alu_flag i alu_last_instr then {[ alu_last_instr ]} else ∅) ∪
  (if has_alu_flag i alu_update_exec then {[ alu_update_exec ]} else ∅) ∪
  (if has_alu_flag i alu_update_pred then {[ alu_update_pred ]} else ∅).

(** The flag [CLAMP] stands for. *)
Definition clamp_flags (i : AluInstr) : AluOpFlags :=
  if has_alu_flag i alu_dst_clamp then {[ alu_dst_clamp ]} else ∅.

Lemma parse_flag_W (r : string) (flags : AluOpFlags) :
  parse_flag_chars (String "W" r) flags = parse_flag_chars r (flags ∪ {[ alu_write ]}).
Proof. reflexivity. Qed.

Lemma parse_flag_L (r : string) (flags : AluOpFlags) :
  parse_flag_chars (String "L" r) flags = parse_flag_chars r (flags ∪ {[ alu_last_instr ]}).
Proof. reflexivity. Qed.

Lemma parse_flag_E (r : string) (flags : AluOpFlags) :
  parse_flag_chars (String "E" r) flags = parse_flag_chars r (flags ∪ {[ alu_update_exec ]}).
Proof. reflexivity. Qed.

Lemma parse_flag_P (r : string) (flags : AluOpFlags) :
  parse_flag_chars (String "P" r) flags = parse_flag_chars r (flags ∪ {[ alu_update_pred ]}).
Proof. reflexivity. Qed.

Lemma parse_flags_token (i : AluInstr) (flags : AluOpFlags) (t : list string)
    (bs : AluBankSwizzle) (cf : ECFAluOpCode) :
  parse_trailer (flags_token i :: t) flags bs cf =
  parse_trailer t (flags ∪ status_flags i) bs cf.
Proof.
  unfold flags_token, status_flags.
  change ("{" +:+ ?x) with (String "{" x). cbn [parse_trailer].
  f_equal.
  destruct (has_alu_flag i alu_write), (has_alu_flag i alu_last_instr),
    (has_alu_flag i alu_update_exec), (has_alu_flag i alu_update_pred);
    repeat first [ change ("W" +:+ ?x) with (String "W" x)
                 | change ("L" +:+ ?x) with (String "L" x)
                 | change ("E" +:+ ?x) with (String "E" x)
                 | change ("P" +:+ ?x) with (String "P" x)
                 | change ("" +:+ ?x) with x ];
    rewrite ?parse_flag_W, ?parse_flag_L, ?parse_flag_E, ?parse_flag_P;
    change (parse_flag_chars "}" ?f) with f;
    set_solver.
Qed.

Lemma parse_trailer_spec (i : AluInstr) (flags : AluOpFlags) :
  parse_trailer (trailer_tokens i) flags alu_vec_unknown cf_alu =
  Done (flags ∪ status_flags i, m_bank_swizzle i, m_cf_type i).
Proof.
  unfold trailer_tokens. rewrite parse_flags_token.
  generalize (flags ∪ status_flags i). intros fl.
  destruct (m_bank_swizzle i), (m_cf_type i); reflexivity.
Qed.

Lemma trailer_tokens_head (i : AluInstr) :
  forall tok tr', trailer_tokens i = tok :: tr' -> tok <> "+".
Proof.
  unfold trailer_tokens, flags_token. intros tok tr' [= <- _].
  change ("{" +:+ ?x) with (String "{" x). discriminate.
Qed.

(** The head of an instruction's tokens. *)
Lemma parse_head_spec (i : AluInstr) (opname dtok : string) (t : list string) :
  opname <> "LDS" -> dtok <> "CLAMP" ->
  parse_head (opname ::
              (if has_alu_flag i alu_dst_clamp then ["CLAMP"] else []) ++
              dtok :: ":" :: t) =
  Done (false, opname, dtok, clamp_flags i, ":" :: t).
Proof.
  intros Hname Hdtok. unfold parse_head, clamp_flags.
  rewrite (bool_decide_eq_false_2 _ Hname).
  destruct (has_alu_flag i alu_dst_clamp); cbn [app].
  - rewrite bool_decide_eq_true_2 by reflexivity. cbn [obind].
    rewrite bool_decide_eq_true_2 by reflexivity. reflexivity.
  - rewrite (bool_decide_eq_false_2 _ Hdtok). cbn [obind].
    rewrite bool_decide_eq_true_2 by reflexivity. reflexivity.
Qed.

(** The name table answers an opcode's name with the opcode when it holds
    the name so, or holds no such name and the opcode's row is the first
    of that name in [alu_ops]. *)
Definition name_resolves (m : Machine) (opname : string) (d : OpDescr) : Prop :=
  match s_alu_map_by_name m !! opname with
  | Some d' => d' = d
  | None => find_alu_by_name opname alu_ops = Some d
  end.

Lemma lookup_op_spec (m : Machine) (opname : string) (d : OpDescr) :
  name_resolves m opname d ->
  OpDescr_nsrc d <> -1 ->
  exists m',
    lookup_op false opname m = Done (d, m') /\
    world m' = world m /\ objs m' = objs m.
Proof.
  unfold name_resolves, lookup_op. intros Hres Hn.
  destruct (s_alu_map_by_name m !! opname) as [d' |].
  - subst d'. exists m. auto.
  - rewrite Hres. rewrite (bool_decide_eq_false_2 _ Hn).
    eexists. split; [reflexivity |]. split; reflexivity.
Qed.

(** The flags an instruction's text carries, for [k] sources in a slot
    and [n] sources in all: the status flags, the clamp, a source's negate
    flag, the abs flag of the first two sources, and the three-operand
    flag, which the constructor sets for three sources. *)
Definition carried (k n : nat) (f : AluModifiers) : bool :=
  match f with
  | alu_write | alu_last_instr | alu_update_exec | alu_update_pred
  | alu_dst_clamp => true
  | alu_src0_neg | alu_src0_abs => (0 <? k)%nat
  | alu_src1_neg | alu_src1_abs => (1 <? k)%nat
  | alu_src2_neg => (2 <? k)%nat
  | alu_op3 => (n =? 3)%nat
  | _ => false
  end.

Lemma elem_of_if_singleton (b : bool) (f g : AluModifiers) :
  f ∈ (if b then ({[ g ]} : AluOpFlags) else ∅) <-> b = true /\ f = g.
Proof. destruct b; set_solver. Qed.

Lemma has_alu_flag_elem (i : AluInstr) (g : AluModifiers) :
  has_alu_flag i g = true <-> g ∈ m_alu_flags i.
Proof. unfold has_alu_flag. apply bool_decide_eq_true. Qed.

(** The marks of the first slot's sources are the negate and abs flags
    the instruction has for them. *)
Lemma elem_of_marks_range (i : AluInstr) (k : nat) (f : AluModifiers) :
  (k <= 3)%nat ->
  f ∈ marks_range i k 0 0 <->
  f ∈ m_alu_flags i /\
  ((f = alu_src0_neg \/ f = alu_src0_abs) /\ (0 < k)%nat \/
   (f = alu_src1_neg \/ f = alu_src1_abs) /\ (1 < k)%nat \/
   f = alu_src2_neg /\ (2 < k)%nat).
Proof.
  intros Hk.
  destruct k as [| [| [| [| k]]]]; try lia;
    cbn [marks_range]; unfold marks, has_neg, has_abs;
    cbn [neg_flag abs_flag Nat.ltb Nat.leb andb];
    rewrite ?elem_of_union, ?elem_of_if_singleton, ?has_alu_flag_elem, ?elem_of_empty;
    split; intros H; try (destruct H as [H1 H2]);
      repeat match goal with
             | H : _ \/ _ |- _ => destruct H
             | H : _ /\ _ |- _ => destruct H
             end; subst; try lia; try discriminate; try contradiction; auto 10.
Qed.

Lemma carried_flags (i : AluInstr) (k : nat) :
  (k <= 3)%nat ->
  (forall f, f ∈ m_alu_flags i -> carried k (length (m_src i)) f = true) ->
  (length (m_src i) = 3%nat -> alu_op3 ∈ m_alu_flags i) ->
  (if decide (length (m_src i) = 3%nat) then {[ alu_op3 ]} else ∅) ∪
  (clamp_flags i ∪ marks_range i k 0 0 ∪ status_flags i) = m_alu_flags i.
Proof.
  intros Hk Hcar Hop3. apply set_eq. intros f.
  specialize (Hcar f).
  unfold clamp_flags, status_flags.
  rewrite !elem_of_union, !elem_of_if_singleton, !has_alu_flag_elem.
  rewrite (elem_of_marks_range i k f Hk).
  destruct (decide (length (m_src i) = 3%nat)) as [Hlen | Hlen].
  - rewrite elem_of_singleton. split.
    + intros [-> | [[[H ->] | [H _]] | [[[[H ->] | [H ->]] | [H ->]] | [H ->]]]]; auto.
    + intros Hf. specialize (Hcar Hf). destruct f; cbn [carried] in Hcar;
        try discriminate; try apply Nat.ltb_lt in Hcar; auto 20.
  - rewrite elem_of_empty. split.
    + intros [[] | [[[H ->] | [H _]] | [[[[H ->] | [H ->]] | [H ->]] | [H ->]]]]; auto.
    + intros Hf. specialize (Hcar Hf). destruct f; cbn [carried] in Hcar;
        try discriminate; try apply Nat.ltb_lt in Hcar; try apply Nat.eqb_eq in Hcar;
        try contradiction; auto 20.
Qed.

(** The flags the text of an LDS instruction carries: no clamp, and the
    LDS flag the constructor sets. *)
Definition carried_lds (k : nat) (f : AluModifiers) : bool :=
  match f with
  | alu_write | alu_last_instr | alu_update_exec | alu_update_pred
  | alu_is_lds => true
  | alu_src0_neg | alu_src0_abs => (0 <? k)%nat
  | alu_src1_neg | alu_src1_abs => (1 <? k)%nat
  | alu_src2_neg => (2 <? k)%nat
  | _ => false
  end.

Lemma carried_flags_lds (i : AluInstr) (k : nat) :
  (k <= 3)%nat ->
  (forall f, f ∈ m_alu_flags i -> carried_lds k f = true) ->
  alu_is_lds ∈ m_alu_flags i ->
  (∅ ∪ marks_range i k 0 0 ∪ status_flags i) ∪ {[ alu_is_lds ]} = m_alu_flags i.
Proof.
  intros Hk Hcar Hlds. apply set_eq. intros f.
  specialize (Hcar f).
  unfold status_flags.
  rewrite !elem_of_union, !elem_of_if_singleton, !has_alu_flag_elem.
  rewrite (elem_of_marks_range i k f Hk).
  rewrite elem_of_singleton, elem_of_empty. split.
  - intros [[[[] | [H _]] | [[[[H ->] | [H ->]] | [H ->]] | [H ->]]] | ->]; auto.
  - intros Hf. specialize (Hcar Hf). destruct f; cbn [carried_lds] in Hcar;
      try discriminate; try apply Nat.ltb_lt in Hcar; auto 20.
Qed.

(** The head of an LDS instruction's tokens. *)
Lemma parse_head_spec_lds (opname : string) (t : list string) :
  parse_head ("LDS" :: opname :: "__.x" :: ":" :: t) =
  Done (true, opname, "__.x", ∅, ":" :: t).
Proof. reflexivity. Qed.

(** The LDS name table, or the first row of that name in [lds_ops]. *)
Definition lds_name_resolves (m : Machine) (opname : string) (d : OpDescr) : Prop :=
  match s_lds_map_by_name m !! opname with
  | Some d' => d' = d
  | None => find_lds_by_name opname lds_ops = Some d
  end.

Lemma lookup_op_spec_lds (m : Machine) (opname : string) (d : OpDescr) :
  lds_name_resolves m opname d ->
  OpDescr_nsrc d <> -1 ->
  exists m',
    lookup_op true opname m = Done (d, m') /\
    world m' = world m /\ objs m' = objs m.
Proof.
  unfold lds_name_resolves, lookup_op. intros Hres Hn.
  destruct (s_lds_map_by_name m !! opname) as [d' |].
  - subst d'. exists m. auto.
  - rewrite Hres. rewrite (bool_decide_eq_false_2 _ Hn).
    eexists. split; [reflexivity |]. split; reflexivity.
Qed.

(** [from_string] of a regular instruction outside a group, step by step. *)
Lemma from_string_steps (text opstr deststr : string) (m m1 : Machine)
    (flags0 flags1 flags : AluOpFlags) (t t' : list string) (o : EAluOp) (n slots : Z)
    (sources : list PVirtualValue) (w1 w2 w3 : World) (bs : AluBankSwizzle)
    (cf : ECFAluOpCode) (dest : option PRegister) (i0 : AluInstr) :
  parse_head (tokenize text) = Done (false, opstr, deststr, flags0, t) ->
  lookup_op false opstr m = Done (mkOpDescr (alu_opcode o) n, m1) ->
  parse_slots (length t) n 0 t flags0 [] (world m1) =
    Done (t', flags1, sources, slots, w1) ->
  parse_trailer t' flags1 alu_vec_unknown cf_alu = Done (flags, bs, cf) ->
  deststr <> "(null)" ->
  dest_from_string deststr w1 = (dest, w2) ->
  AluInstr_ctor (length (objs m1)) o dest sources flags slots w2 = Done (i0, w3) ->
  from_string text None m =
    Done (Some (length (objs m1)),
          mkMachine (objs m1 ++ [set_cf_type cf (set_bank_swizzle bs i0)])
            (groups m1) w3 (s_alu_map_by_name m1) (s_lds_map_by_name m1)
            (shader_instrs m1)).
Proof.
  intros Hhead Hlook Hslots Htrail Hnull Hdest Hctor.
  unfold from_string.
  unfold mbind at 1. unfold lift at 1. rewrite Hhead.
  unfold mbind at 1. rewrite Hlook. cbn [OpDescr_nsrc OpDescr_op].
  unfold mbind at 1. unfold get_world at 1.
  unfold mbind at 1. unfold lift at 1. rewrite Hslots.
  unfold mbind at 1. unfold update_world at 1.
  unfold mbind at 1. unfold lift at 1. rewrite Htrail.
  rewrite (bool_decide_eq_true_2 _ Hnull).
  unfold mbind at 1. unfold on_world at 1.
  destruct m1 as [o1 g1 wm1 am1 lm1 sh1].
  unfold with_world; cbn [world objs groups s_alu_map_by_name s_lds_map_by_name shader_instrs] in *.
  rewrite Hdest.
  unfold mbind at 1. unfold new_AluInstr at 1.
  unfold with_world, with_objs; cbn [world objs groups s_alu_map_by_name s_lds_map_by_name shader_instrs].
  rewrite Hctor.
  unfold mbind at 1. rewrite modify_instr_last.
  unfold mbind at 1. rewrite modify_instr_last.
  reflexivity.
Qed.

(** [from_string] of an LDS instruction outside a group. *)
Lemma from_string_steps_lds (text opstr deststr : string) (m m1 : Machine)
    (flags0 flags1 flags : AluOpFlags) (t t' : list string) (o : ESDOp) (n slots : Z)
    (sources : list PVirtualValue) (w1 w2 : World) (bs : AluBankSwizzle)
    (cf : ECFAluOpCode) (dest : option PRegister) :
  parse_head (tokenize text) = Done (true, opstr, deststr, flags0, t) ->
  lookup_op true opstr m = Done (mkOpDescr (lds_opcode o) n, m1) ->
  parse_slots (length t) n 0 t flags0 [] (world m1) =
    Done (t', flags1, sources, slots, w1) ->
  parse_trailer t' flags1 alu_vec_unknown cf_alu = Done (flags, bs, cf) ->
  deststr <> "(null)" ->
  dest_from_string deststr w1 = (dest, w2) ->
  from_string text None m =
    Done (Some (length (objs m1)),
          mkMachine
            (objs m1 ++
             [set_cf_type cf
                (set_bank_swizzle bs
                   (AluInstr_lds_default o sources (flags ∪ {[ alu_is_lds ]})))])
            (groups m1)
            (update_uses (length (objs m1))
               (AluInstr_lds_default o sources (flags ∪ {[ alu_is_lds ]})) w2)
            (s_alu_map_by_name m1) (s_lds_map_by_name m1) (shader_instrs m1)).
Proof.
  intros Hhead Hlook Hslots Htrail Hnull Hdest.
  unfold from_string.
  unfold mbind at 1. unfold lift at 1. rewrite Hhead.
  unfold mbind at 1. rewrite Hlook. cbn [OpDescr_nsrc OpDescr_op].
  unfold mbind at 1. unfold get_world at 1.
  unfold mbind at 1. unfold lift at 1. rewrite Hslots.
  unfold mbind at 1. unfold update_world at 1.
  unfold mbind at 1. unfold lift at 1. rewrite Htrail.
  rewrite (bool_decide_eq_true_2 _ Hnull).
  unfold mbind at 1. unfold on_world at 1.
  destruct m1 as [o1 g1 wm1 am1 lm1 sh1].
  unfold with_world; cbn [world objs groups s_alu_map_by_name s_lds_map_by_name shader_instrs] in *.
  rewrite Hdest.
  unfold mbind at 1. unfold new_AluInstr at 1.
  unfold with_world, with_objs; cbn [world objs groups s_alu_map_by_name s_lds_map_by_name shader_instrs].
  unfold AluInstr_ctor_lds_src.
  unfold mbind at 1. rewrite modify_instr_last.
  unfold mbind at 1. rewrite modify_instr_last.
  reflexivity.
Qed.

End Frame.

Section RoundTrip.
Context `{V : Values} `{T : OpTables} `{R : !Readports} `{F : !Factory}.

(** What the round trip asks of the value factory.  [later w w'] says that
    world [w'] is reached from [w] by the factory and by entering
    instructions in use and parent lists; a value printed in one world is
    read back, in any later world, as a value equal to it from then on. *)
Variable later : World -> World -> Prop.
Hypothesis later_refl : forall w, later w w.
Hypothesis later_trans : forall a b c, later a b -> later b c -> later a c.
Hypothesis src_from_string_later : forall s w, later w (src_from_string s w).2.
Hypothesis dest_from_string_later : forall s w, later w (dest_from_string s w).2.
Hypothesis add_use_later : forall r p w, later w (add_use r p w).
Hypothesis add_parent_later : forall r p w, later w (add_parent r p w).

Variables (m : Machine) (i : AluInstr).

Local Abbreviation w := (world m).

Hypothesis Hsrc_ok :
  forall v, v ∈ m_src i -> is_value_token (print_value w v) = true.

Hypothesis Hsrc_back :
  forall v, v ∈ m_src i ->
  forall w1, later w w1 ->
  exists v' w2,
    src_from_string (print_value w v) w1 = (Some v', w2) /\
    forall w3, later w2 w3 -> equal_to w3 v v' = true.

(** Values read back as equal ones, from world [w'] on. *)
Definition read_back (w' : World) (vs vs' : list PVirtualValue) : Prop :=
  Forall2 (fun v v' => forall w3, later w' w3 -> equal_to w3 v v' = true) vs vs'.

Lemma read_back_later (w1 w2 : World) (vs vs' : list PVirtualValue) :
  later w1 w2 -> read_back w1 vs vs' -> read_back w2 vs vs'.
Proof.
  intros Hl H. unfold read_back in *.
  eapply Forall2_impl; [exact H |].
  intros v v' Hv w3 Hw3. apply Hv. eapply later_trans; eassumption.
Qed.

Lemma parse_slot_spec (slots : Z) :
  forall (n k idx : nat) (flags : AluOpFlags) (sources : list PVirtualValue)
         (wcur : World) (rest : list string),
    (k + n <= 3)%nat -> (k <= idx)%nat -> (idx + n <= length (m_src i))%nat ->
    later w wcur ->
    (slots <> 0 -> marks_range i n k idx ⊆ flags) ->
    exists vs w',
      parse_slot n k slots (slot_tokens w i n k idx ++ rest) flags sources wcur =
        Done (rest, flags ∪ marks_range i n k idx, sources ++ vs, w') /\
      later wcur w' /\
      read_back w' (take n (drop idx (m_src i))) vs.
Proof.
  induction n as [| n IH]; intros k idx flags sources wcur rest Hk Hidx Hlen Hl Hsub.
  - exists [], wcur. simpl. rewrite app_nil_r.
    split; [f_equal; f_equal; f_equal; f_equal; set_solver |].
    split; [apply later_refl | constructor].
  - destruct (m_src i !! idx) as [v |] eqn:Hv.
    2: { apply lookup_ge_None in Hv. lia. }
    assert (Hin : v ∈ m_src i) by (eapply list_elem_of_lookup_2, Hv).
    destruct (Hsrc_back v Hin wcur Hl) as (v' & w1 & Hfac & Heq).
    assert (Hl1 : later wcur w1).
    { pose proof (src_from_string_later (print_value w v) wcur) as H.
      rewrite Hfac in H. exact H. }
    cbn [slot_tokens marks_range]. rewrite Hv. cbn [app parse_slot].
    rewrite (parse_src_spec w wcur w1 i k idx slots v v' flags);
      [| lia | lia | apply Hsrc_ok, Hin
       | intros Hs; specialize (Hsub Hs); cbn [marks_range] in Hsub; set_solver
       | exact Hfac].
    cbn [obind].
    destruct (IH (S k) (S idx) (flags ∪ marks i k idx) (sources ++ [v']) w1 rest
                ltac:(lia) ltac:(lia) ltac:(lia)
                ltac:(eapply later_trans; eassumption)
                ltac:(intros Hs; specialize (Hsub Hs);
                      cbn [marks_range] in Hsub; set_solver))
      as (vs & w' & Hrun & Hl' & Hback).
    exists (v' :: vs), w'. rewrite Hrun.
    split.
    { rewrite <- app_assoc. cbn [app]. f_equal. f_equal. f_equal. f_equal.
      set_solver. }
    split; [eapply later_trans; eassumption |].
    rewrite (drop_S _ _ _ Hv). cbn [take]. constructor; [| exact Hback].
    intros w3 Hw3. apply Heq. eapply later_trans; eassumption.
Qed.

Lemma parse_slots_spec (k : nat) (tr : list string) :
  (k <= 3)%nat ->
  (forall tok tr', tr = tok :: tr' -> tok <> "+") ->
  forall (r s fuel : nat) (sep : string) (flags : AluOpFlags)
         (sources : list PVirtualValue) (wcur : World),
    (r < fuel)%nat ->
    (s * k + S r * k <= length (m_src i))%nat ->
    later w wcur ->
    (s <> 0%nat -> marks_range i k 0 0 ⊆ flags) ->
    exists vs w',
      parse_slots fuel (Z.of_nat k) (Z.of_nat s)
        (sep :: slot_tokens w i k 0 (s * k) ++
                slots_tokens w i k r (S s) (S s * k) ++ tr)
        flags sources wcur =
        Done (tr, flags ∪ marks_range i k 0 0, sources ++ vs,
              Z.of_nat (s + S r), w') /\
      later wcur w' /\
      read_back w' (take (S r * k) (drop (s * k) (m_src i))) vs.
Proof.
  intros Hk Htr.
  induction r as [| r IH]; intros s fuel sep flags sources wcur Hfuel Hlen Hl Hsub;
    (destruct fuel as [| fuel]; [lia |]).
  - cbn [parse_slots slots_tokens]. rewrite Nat2Z.id.
    destruct (parse_slot_spec (Z.of_nat s) k 0 (s * k) flags sources wcur tr
                ltac:(lia) ltac:(lia) ltac:(lia) Hl)
      as (vs & w' & Hrun & Hl' & Hback).
    { intros Hs. pose proof (marks_range_mono i k 0 (s * k) ltac:(lia)).
      specialize (Hsub ltac:(lia)). set_solver. }
    cbn [app]. rewrite Hrun. cbn [obind].
    assert (Hflags : flags ∪ marks_range i k 0 (s * k) = flags ∪ marks_range i k 0 0).
    { destruct s as [| s']; [reflexivity |].
      pose proof (marks_range_mono i k 0 (S s' * k) ltac:(lia)).
      specialize (Hsub ltac:(lia)). set_solver. }
    exists vs, w'. split.
    { rewrite Hflags. replace (Z.of_nat s + 1) with (Z.of_nat (s + 1)) by lia.
      destruct tr as [| tok tr']; [reflexivity |].
      rewrite bool_decide_eq_false_2 by (eapply Htr; reflexivity). reflexivity. }
    split; [exact Hl' |].
    replace (1 * k)%nat with k by lia. exact Hback.
  - cbn [parse_slots]. rewrite Nat2Z.id.
    cbn [slots_tokens]. rewrite bool_decide_eq_false_2 by lia.
    rewrite <- !app_assoc. cbn [app].
    destruct (parse_slot_spec (Z.of_nat s) k 0 (s * k) flags sources wcur
                ("+" :: slot_tokens w i k 0 (S s * k) ++
                        slots_tokens w i k r (S (S s)) (S s * k + k) ++ tr)
                ltac:(lia) ltac:(lia) ltac:(lia) Hl)
      as (vs & w1 & Hrun & Hl1 & Hback).
    { intros Hs. pose proof (marks_range_mono i k 0 (s * k) ltac:(lia)).
      specialize (Hsub ltac:(lia)). set_solver. }
    rewrite Hrun. cbn [obind].
    rewrite bool_decide_eq_true_2 by reflexivity.
    assert (Hflags : flags ∪ marks_range i k 0 (s * k) = flags ∪ marks_range i k 0 0).
    { destruct s as [| s']; [reflexivity |].
      pose proof (marks_range_mono i k 0 (S s' * k) ltac:(lia)).
      specialize (Hsub ltac:(lia)). set_solver. }
    rewrite Hflags.
    replace (Z.of_nat s + 1) with (Z.of_nat (S s)) by lia.
    replace (S s * k + k)%nat with (S (S s) * k)%nat by lia.
    destruct (IH (S s) fuel "+" (flags ∪ marks_range i k 0 0) (sources ++ vs) w1
                ltac:(lia) ltac:(lia) ltac:(eapply later_trans; eassumption)
                ltac:(intros _; set_solver))
      as (vs2 & w' & Hrun2 & Hl2 & Hback2).
    rewrite Hrun2.
    exists (vs ++ vs2), w'. split.
    { rewrite <- app_assoc.
      replace (S s + S r)%nat with (s + S (S r))%nat by lia.
      replace (flags ∪ marks_range i k 0 0 ∪ marks_range i k 0 0)
        with (flags ∪ marks_range i k 0 0) by set_solver.
      reflexivity. }
    split; [eapply later_trans; eassumption |].
    replace (S (S r) * k)%nat with (k + S r * k)%nat by lia.
    rewrite <- take_take_drop, drop_drop.
    replace (s * k + k)%nat with (S s * k)%nat by lia.
    apply Forall2_app; [| exact Hback2].
    eapply read_back_later; eassumption.
Qed.

Lemma slots_tokens_length (k : nat) :
  forall (r s idx : nat), (r <= length (slots_tokens w i k r (S s) idx))%nat.
Proof.
  induction r as [| r IH]; intros s idx; [lia |].
  cbn [slots_tokens]. rewrite bool_decide_eq_false_2 by lia.
  rewrite !length_app. cbn [length]. specialize (IH (S s) (idx + k)%nat). lia.
Qed.

Lemma add_use_of_addr_later (this : InstrPtr) (a : option PVirtualValue) (w0 : World) :
  later w0 (add_use_of_addr this a w0).
Proof.
  unfold add_use_of_addr. destruct a as [a |]; [| apply later_refl].
  destruct (as_register a); [apply add_use_later | apply later_refl].
Qed.

Lemma update_uses_src_later (this : InstrPtr) (w0 : World) (s : PVirtualValue) :
  later w0 (update_uses_src this w0 s).
Proof.
  unfold update_uses_src.
  eapply later_trans;
    [| destruct (as_uniform s); [apply add_use_of_addr_later | apply later_refl]].
  destruct (as_register s); [| apply later_refl].
  destruct (decide _); [| apply add_use_later].
  eapply later_trans; [apply add_use_later | apply add_use_of_addr_later].
Qed.

Lemma update_uses_later (this : InstrPtr) (x : AluInstr) (w0 : World) :
  later w0 (update_uses this x w0).
Proof.
  unfold update_uses.
  assert (Hfold : forall l w1, later w1 (fold_left (update_uses_src this) l w1)).
  { induction l as [| s l IH]; intros w1; [apply later_refl |].
    cbn [fold_left]. eapply later_trans; [apply update_uses_src_later | apply IH]. }
  destruct (m_dest x) as [d |]; [| apply Hfold].
  destruct (has_alu_flag x alu_write); [| apply Hfold].
  eapply later_trans; [apply Hfold |].
  destruct (decide _); [| apply add_parent_later].
  eapply later_trans; [apply add_parent_later | apply add_use_of_addr_later].
Qed.

Lemma read_back_equal (w' : World) (vs vs' : list PVirtualValue) :
  read_back w' vs vs' -> srcs_equal_to w' vs vs' = true.
Proof.
  induction 1 as [| v v' vs vs' Hv _ IH]; [reflexivity |].
  cbn [srcs_equal_to]. rewrite (Hv w' (later_refl w')). exact IH.
Qed.

(** The round trip: the text of [i] after its leading keyword is read
    back as an instruction that [i] is equal to. *)
Definition reads_back_equal : Prop :=
  exists body p m' i',
    do_print w i = Done ("ALU " +:+ body) /\
    from_string body None m = Done (Some p, m') /\
    objs m' !! p = Some i' /\
    is_equal_to (world m') i i' = true.

(** C1, as it holds.  Read from the text [do_print] gives it, after the
    leading [ALU] keyword, an instruction comes back as one it is equal to
    when it is a regular instruction with a destination, or an LDS
    instruction with as many sources as its opcode's row says, in both
    cases with the flags its text carries and at most three sources in a
    slot; the opcode's name and the printed values are tokens that the name
    table and the value factory resolve back to the same opcode and to
    equal values. *)
Theorem print_from_string_round_trip :
  (forall (op : AluOp) (d : PRegister) (dtok : string) (k r : nat),
     has_alu_flag i alu_is_lds = false ->
     alu_ops_at (m_opcode i) = Done op ->
     is_token (name op) = true ->
     name op <> "LDS" ->
     name_resolves m (name op) (mkOpDescr (alu_opcode (m_opcode i)) (nsrc op)) ->
     nsrc op = Z.of_nat k ->
     (k <= 3)%nat ->
     m_alu_slots i = Z.of_nat (S r) ->
     length (m_src i) = (S r * k)%nat ->
     Z.of_nat (length (m_src i)) <= SrcValues_max_size ->
     m_dest i = Some d ->
     dest_token w i d = Done dtok ->
     is_token dtok = true ->
     dtok <> "CLAMP" ->
     dtok <> "(null)" ->
     (forall w1, later w w1 ->
        exists d' w2,
          dest_from_string dtok w1 = (Some d', w2) /\
          forall w3, later w2 w3 ->
            if has_alu_flag i alu_write then equal_to w3 d d' = true
            else chan d = chan d') ->
     (forall f, f ∈ m_alu_flags i -> carried k (length (m_src i)) f = true) ->
     (length (m_src i) = 3%nat -> alu_op3 ∈ m_alu_flags i) ->
     reads_back_equal) /\
  (forall (op : LDSOp),
     has_alu_flag i alu_is_lds = true ->
     lds_ops_at (m_lds_opcode i) = Done op ->
     is_token (lds_name op) = true ->
     lds_name_resolves m (lds_name op)
       (mkOpDescr (lds_opcode (m_lds_opcode i)) (lds_nsrc op)) ->
     lds_nsrc op = Z.of_nat (length (m_src i)) ->
     (length (m_src i) <= 3)%nat ->
     m_alu_slots i = 1 ->
     m_opcode i = m_opcode_default ->
     m_dest i = None ->
     (forall f, f ∈ m_alu_flags i -> carried_lds (length (m_src i)) f = true) ->
     reads_back_equal).
Proof.
  split.
  - intros op d dtok k r.
    intros Hlds Hop Hname HnoLDS Hres Hk Hk3 Hn Hlen Hmax Hd Hdtok Hdtok_ok
      HnoCLAMP Hnonull Hdest_back Hcar Hop3.
    destruct (do_print_tokens w i Hsrc_ok op d dtok k (S r)
                Hlds Hop Hname Hk Hk3 Hn Hlen Hd Hdtok Hdtok_ok)
      as (body & Hprint & Htoks).
    destruct (lookup_op_spec m (name op) _ Hres ltac:(cbn; lia))
      as (m1 & Hlook & Hw1 & Hobjs1).
    set (t := ":" :: slots_tokens w i k (S r) 0 0 ++ trailer_tokens i).
    destruct (parse_slots_spec k (trailer_tokens i) Hk3 (trailer_tokens_head i)
                r 0%nat (length t) ":" (clamp_flags i) [] w)
      as (vs & w1 & Hslots & Hl1 & Hback).
    { subst t. cbn [slots_tokens length]. rewrite !length_app.
      pose proof (slots_tokens_length k r 0 (0 + k)). unfold trailer_tokens.
      cbn [length]. lia. }
    { lia. }
    { apply later_refl. }
    { intros H. contradiction. }
    destruct (Hdest_back w1 Hl1) as (d' & w2 & Hdest & Hdeq).
    assert (Hvs : length vs = length (m_src i)).
    { apply Forall2_length in Hback. rewrite <- Hback.
      rewrite length_take, length_drop. lia. }
    set (flags := clamp_flags i ∪ marks_range i k 0 0 ∪ status_flags i).
    destruct (AluInstr_ctor (length (objs m1)) (m_opcode i) (Some d') vs flags
                (Z.of_nat (S r)) w2) as [[i0 w3] | e] eqn:Hctor.
    2: { exfalso. unfold AluInstr_ctor in Hctor. rewrite Hop in Hctor.
         cbn [obind] in Hctor. rewrite andb_false_r in Hctor.
         destruct (decide _) as [_ | Hne]; [discriminate |].
         apply Hne. rewrite Hvs, Hk. unfold size_t_of_int.
         unfold SrcValues_max_size in Hmax.
         assert ((2 ^ 63 - 1) / 8 < 2 ^ 63) by (apply Z.div_lt_upper_bound; lia).
         rewrite Z.mod_small by nia. nia. }
    unfold reads_back_equal. exists body, (length (objs m1)).
    eexists. exists (set_cf_type (m_cf_type i) (set_bank_swizzle (m_bank_swizzle i) i0)).
    split; [exact Hprint |]. split.
    { eapply from_string_steps with (t := t) (w1 := w1) (sources := vs).
      - rewrite Htoks. unfold instr_tokens. apply parse_head_spec; assumption.
      - exact Hlook.
      - assert (Ht : ":" :: slot_tokens w i k 0 (0 * k) ++
                       slots_tokens w i k r 1 (1 * k) ++ trailer_tokens i = t).
        { unfold t. cbn [slots_tokens].
          change (bool_decide (0%nat = 0%nat)) with true. cbn [app].
          rewrite <- app_assoc. replace (0 + k)%nat with (1 * k)%nat by lia.
          reflexivity. }
        rewrite Ht in Hslots. rewrite Hw1, Hk. exact Hslots.
      - apply parse_trailer_spec.
      - exact Hnonull.
      - exact Hdest.
      - exact Hctor. }
    split.
    { cbn [objs]. apply list_lookup_middle. reflexivity. }
    cbn [world].
    unfold AluInstr_ctor in Hctor. rewrite Hop in Hctor. cbn [obind] in Hctor.
    destruct (decide _) as [_ |]; [| discriminate].
    rewrite andb_false_r in Hctor. injection Hctor as <- <-.
    set (i0 := mkAluInstr _ _ _ _ _ _ _ _ _ _ _ _ _).
    assert (Hl3 : later w2 (update_uses (length (objs m1)) i0 w2))
      by apply update_uses_later.
    unfold is_equal_to.
    cbn [m_opcode m_bank_swizzle m_cf_type m_alu_flags m_dest m_src
         set_cf_type set_bank_swizzle i0].
    rewrite Hvs. subst flags. rewrite (carried_flags i k Hk3 Hcar Hop3).
    rewrite !bool_decide_eq_true_2 by reflexivity. cbn [negb orb].
    rewrite Hd. specialize (Hdeq _ Hl3).
    assert (Hdest_ok : (if has_alu_flag i alu_write
                        then equal_to (update_uses (length (objs m1)) i0 w2) d d'
                        else bool_decide (chan d = chan d')) = true).
    { destruct (has_alu_flag i alu_write); [exact Hdeq |].
      apply bool_decide_eq_true_2. exact Hdeq. }
    rewrite Hdest_ok. cbn [negb].
    apply read_back_equal.
    assert (Hwhole : take (S r * k) (drop (0 * k) (m_src i)) = m_src i).
    { change (0 * k)%nat with 0%nat. cbn [drop]. rewrite <- Hlen. apply firstn_all. }
    rewrite Hwhole in Hback.
    eapply read_back_later; [| exact Hback].
    eapply later_trans; [| exact Hl3].
    pose proof (dest_from_string_later dtok w1) as H. rewrite Hdest in H. exact H.
  - intros op.
    intros Hlds Hop Hname Hres Hk Hk3 Hn Hopc Hd Hcar.
    destruct (do_print_tokens_lds w i Hsrc_ok op Hlds Hop Hname Hk3 Hn)
      as (body & Hprint & Htoks).
    destruct (lookup_op_spec_lds m (lds_name op) _ Hres ltac:(cbn; lia))
      as (m1 & Hlook & Hw1 & Hobjs1).
    set (k := length (m_src i)) in *.
    set (t := ":" :: slots_tokens w i k 1 0 0 ++ trailer_tokens i).
    destruct (parse_slots_spec k (trailer_tokens i) Hk3 (trailer_tokens_head i)
                0%nat 0%nat (length t) ":" ∅ [] w)
      as (vs & w1 & Hslots & Hl1 & Hback).
    { unfold t. cbn [length]. lia. }
    { fold k. lia. }
    { apply later_refl. }
    { intros H. contradiction. }
    destruct (dest_from_string "__.x" w1) as [dest w2] eqn:Hdest.
    assert (Hl2 : later w1 w2).
    { pose proof (dest_from_string_later "__.x" w1) as H. rewrite Hdest in H. exact H. }
    assert (Hvs : length vs = length (m_src i)).
    { apply Forall2_length in Hback. rewrite <- Hback.
      rewrite length_take, length_drop. fold k. lia. }
    unfold reads_back_equal. exists body, (length (objs m1)). eexists. eexists.
    split; [exact Hprint |]. split.
    { eapply from_string_steps_lds with (t := t) (w1 := w1) (sources := vs).
      - rewrite Htoks. apply parse_head_spec_lds.
      - exact Hlook.
      - assert (Ht : ":" :: slot_tokens w i k 0 (0 * k) ++
                       slots_tokens w i k 0 1 (1 * k) ++ trailer_tokens i = t).
        { unfold t. cbn [slots_tokens].
          change (bool_decide (0%nat = 0%nat)) with true. cbn [app].
          rewrite <- app_assoc. reflexivity. }
        rewrite Ht in Hslots. rewrite Hw1, Hk. exact Hslots.
      - apply parse_trailer_spec.
      - discriminate.
      - exact Hdest. }
    split.
    { cbn [objs]. apply list_lookup_middle. reflexivity. }
    cbn [world].
    set (i0 := AluInstr_lds_default _ _ _).
    assert (Hl3 : later w2 (update_uses (length (objs m1)) i0 w2))
      by apply update_uses_later.
    unfold is_equal_to.
    cbn [m_opcode m_bank_swizzle m_cf_type m_alu_flags m_dest m_src
         set_cf_type set_bank_swizzle i0 AluInstr_lds_default].
    rewrite Hvs, Hopc.
    rewrite (carried_flags_lds i k Hk3 Hcar (proj1 (has_alu_flag_elem i alu_is_lds) Hlds)).
    rewrite !bool_decide_eq_true_2 by reflexivity. cbn [negb orb].
    rewrite Hd. cbn [negb].
    apply read_back_equal.
    assert (Hwhole : take (1 * k) (drop (0 * k) (m_src i)) = m_src i).
    { change (0 * k)%nat with 0%nat. cbn [drop].
      replace (1 * k)%nat with (length (m_src i)) by (fold k; lia).
      apply firstn_all. }
    rewrite Hwhole in Hback.
    eapply read_back_later; [| exact Hback].
    eapply later_trans; [exact Hl2 | exact Hl3].
Qed.

End RoundTrip.

Section Members.
Context `{V : Values} `{T : OpTables} `{R : !Readports} `{F : !Factory}.
Context `{VK : !ValueKinds} `{MO : !MoreOps} `{DF : !AluDestFactory}.

(** X1: for a slot count an [int] shift is defined for,
    [allowed_dest_chan_mask] answers a byte whose bit [c] says whether
    channel [c] may be written: the four channels for a one-slot
    instruction, the channels below the slot count for a Cayman trans
    instruction of several slots, and none for any other instruction of
    several slots. *)
Theorem allowed_dest_chan_mask_bits (i : AluInstr) :
  0 <= m_alu_slots i <= 30 ->
  exists mask,
    allowed_dest_chan_mask i = Done mask /\
    0 <= mask < 2 ^ 8 /\
    forall c, 0 <= c ->
      Z.testbit mask c =
        (c <? 8) &&
        (if bool_decide (m_alu_slots i = 1) then c <? 4
         else has_alu_flag i alu_is_cayman_trans && (c <? m_alu_slots i)).
Proof.
  intros Hslots. unfold allowed_dest_chan_mask.
  destruct (bool_decide (m_alu_slots i = 1)) eqn:Hone; cbn [negb].
  - exists 15. split; [reflexivity |]. split; [lia |].
    intros c Hc. change 15 with (Z.ones 4).
    rewrite Z.testbit_ones by lia.
    destruct (c <? 8) eqn:H8, (c <? 4) eqn:H4, (0 <=? c) eqn:H0; try reflexivity; lia.
  - destruct (has_alu_flag i alu_is_cayman_trans).
    + destruct (decide _) as [_ | Hno]; [| lia].
      eexists. split; [reflexivity |].
      split; [apply Z.mod_pos_bound; lia |].
      intros c Hc.
      rewrite Z.shiftl_1_l.
      replace (2 ^ m_alu_slots i - 1) with (Z.ones (m_alu_slots i))
        by (rewrite Z.ones_equiv; lia).
      destruct (c <? 8) eqn:H8.
      * rewrite Z.mod_pow2_bits_low by lia.
        rewrite Z.testbit_ones by lia.
        destruct (0 <=? c) eqn:H0; [reflexivity | lia].
      * rewrite Z.mod_pow2_bits_high by lia. reflexivity.
    + exists 0. split; [reflexivity |]. split; [lia |].
      intros c Hc. rewrite Z.bits_0, andb_false_r. reflexivity.
Qed.

Lemma source_priority_bounds (w : World) (p : Z) (s : PVirtualValue) :
  p <= source_priority w p s <= p + 2.
Proof.
  unfold source_priority.
  destruct (as_register s) as [r |];
    [destruct (has_flag_ssa r);
       [destruct (bool_decide (pending_uses w r = 1)) |] |];
    destruct (bool_decide (is_Some (as_uniform s))); lia.
Qed.

Lemma fold_source_priority_bounds (w : World) (l : list PVirtualValue) :
  forall p,
    p <= fold_left (source_priority w) l p <= p + 2 * Z.of_nat (length l).
Proof.
  induction l as [| s l IH]; intros p; cbn [fold_left length]; [lia |].
  pose proof (source_priority_bounds w p s).
  specialize (IH (source_priority w p s)). lia.
Qed.

(** X2: [register_priority] is between -1 and 1 plus twice the number of
    sources; it is 0 for an instruction flagged [alu_no_schedule_bias],
    and not negative for an instruction without destination. *)
Theorem register_priority_bounds (w : World) (i : AluInstr) :
  -1 <= register_priority w i <= 1 + 2 * Z.of_nat (length (m_src i)) /\
  (has_alu_flag i alu_no_schedule_bias = true -> register_priority w i = 0) /\
  (m_dest i = None -> 0 <= register_priority w i).
Proof.
  unfold register_priority.
  destruct (has_alu_flag i alu_no_schedule_bias); cbn [negb].
  - split; [lia |]. split; [reflexivity | lia].
  - set (p0 := match m_dest i with Some _ => _ | None => _ end).
    pose proof (fold_source_priority_bounds w (m_src i) p0) as Hfold.
    assert (Hp0 : -1 <= p0 <= 1).
    { subst p0. destruct (m_dest i) as [d |]; [| lia].
      destruct (_ && _); [destruct (_ && _) |]; lia. }
    split; [clearbody p0; lia |]. split; [discriminate |].
    intros Hd. assert (Hz : p0 = 0) by (subst p0; rewrite Hd; reflexivity).
    clearbody p0. lia.
Qed.

Lemma indirect_addr_srcs_flags (srcs : list PVirtualValue) :
  forall st a rel idx,
    indirect_addr_srcs srcs st = Done (a, rel, idx) ->
    (a = None -> rel = false /\ idx = false) /\
    (is_Some a -> rel = negb idx).
Proof.
  induction srcs as [| s rest IH]; intros st a rel idx Hrun; cbn [indirect_addr_srcs] in Hrun.
  - injection Hrun as <- <- <-. split; [auto |]. intros [? [=]].
  - destruct (resolve_visit s st) as [st' | e]; [| discriminate].
    cbn [obind] in Hrun.
    destruct (addr st') as [r |]; [| eapply IH; exact Hrun].
    injection Hrun as <- <- <-. split; [discriminate | reflexivity].
Qed.

(** X3: of the three answers of [indirect_addr], the two flags are both
    clear when no address register is found, and they are never both
    set. *)
Theorem indirect_addr_flags (i : AluInstr) (a : option PRegister) (rel idx : bool) :
  indirect_addr i = Done (a, rel, idx) ->
  (a = None -> rel = false /\ idx = false) /\
  (rel && idx = false).
Proof.
  unfold indirect_addr. intros Hrun.
  assert (Hsrcs : forall st,
            indirect_addr_srcs (m_src i) st = Done (a, rel, idx) ->
            (a = None -> rel = false /\ idx = false) /\ rel && idx = false).
  { intros st H. apply indirect_addr_srcs_flags in H as [Hnone Hsome].
    split; [exact Hnone |].
    destruct a as [r |].
    - rewrite (Hsome ltac:(eexists; reflexivity)). destruct idx; reflexivity.
    - destruct (Hnone eq_refl) as [-> ->]. reflexivity. }
  destruct (m_dest i) as [d |]; [| eapply Hsrcs; exact Hrun].
  destruct (resolve_visit d _) as [st | e]; [| discriminate].
  cbn [obind] in Hrun.
  destruct (addr st) as [r |]; [| eapply Hsrcs; exact Hrun].
  injection Hrun as <- <- <-. split; [discriminate | reflexivity].
Qed.

(** X4: an instruction either LDS constructor builds has LDS access; and
    an instruction without the LDS flag has LDS access exactly when one of
    its sources is an inline constant that pops an LDS output queue. *)
Theorem has_lds_access_spec (this : InstrPtr) (op : ESDOp) (w : World) :
  (forall (src0 src1 : option PVirtualValue) (address : PVirtualValue),
     exists i w',
       AluInstr_ctor_lds this op src0 src1 address w = Done (i, w') /\
       has_lds_access i = true) /\
  (forall (src : list PVirtualValue) (flags : AluOpFlags),
     exists i w',
       AluInstr_ctor_lds_src this op src flags w = Done (i, w') /\
       has_lds_access i = true) /\
  (forall i : AluInstr,
     has_alu_flag i alu_is_lds = false ->
     (has_lds_access i = true <->
      exists s ic,
        s ∈ m_src i /\ as_inline_const s = Some ic /\
        (sel ic = ALU_SRC_LDS_OQ_A_POP \/ sel ic = ALU_SRC_LDS_OQ_B_POP))).
Proof.
  split; [| split].
  - intros src0 src1 address. eexists _, _. split; [reflexivity |].
    unfold has_lds_access, has_alu_flag. cbn [m_alu_flags AluInstr_lds_default].
    rewrite bool_decide_eq_true_2 by set_solver. reflexivity.
  - intros src flags. eexists _, _. split; [reflexivity |].
    unfold has_lds_access, has_alu_flag. cbn [m_alu_flags AluInstr_lds_default].
    rewrite bool_decide_eq_true_2 by set_solver. reflexivity.
  - intros i Hlds. unfold has_lds_access, has_lds_queue_read. rewrite Hlds.
    cbn [orb]. rewrite existsb_exists. split.
    + intros (s & Hin & Hs). destruct (as_inline_const s) as [ic |] eqn:Hic;
        [| discriminate].
      exists s, ic. split; [apply list_elem_of_In; exact Hin |].
      split; [exact Hic |].
      apply orb_true_iff in Hs as [Hs | Hs]; apply bool_decide_eq_true in Hs; auto.
    + intros (s & ic & Hin & Hic & Hsel). exists s.
      split; [apply list_elem_of_In; exact Hin |].
      rewrite Hic. apply orb_true_iff.
      destruct Hsel as [Hsel | Hsel]; [left | right];
        apply bool_decide_eq_true_2; exact Hsel.
Qed.

(** X5: an extra dependency makes the instruction wait for that register
    and for nothing else: after [add_extra_dependency] the instruction is
    ready exactly when it was ready before and the value's register is
    ready; a value that is no register adds nothing. *)
Theorem add_extra_dependency_ready (w : World) (this : InstrPtr) (i : AluInstr)
    (value : PVirtualValue) :
  do_ready w this (add_extra_dependency value i) =
  do_ready w this i &&
  match as_register value with
  | Some reg => ready w reg (block_id w this) (index w this)
  | None => true
  end.
Proof.
  unfold add_extra_dependency.
  destruct (as_register value) as [reg |]; [| rewrite andb_true_r; reflexivity].
  unfold do_ready.
  destruct (decide (reg ∈ m_extra_dependencies i)) as [Hin | Hnotin].
  - repeat (destruct (negb _); [reflexivity |]).
    destruct (forallb _ (m_extra_dependencies i)) eqn:Hall; [| reflexivity].
    rewrite forallb_forall in Hall.
    rewrite (Hall reg); [reflexivity |]. apply list_elem_of_In. exact Hin.
  - cbn [with_extra_dependencies m_src m_dest m_extra_dependencies].
    repeat (destruct (negb _); [reflexivity |]).
    rewrite forallb_app. cbn [forallb]. rewrite andb_true_r. reflexivity.
Qed.

End Members.

Section Destination.
Context `{V : Values} `{T : OpTables} `{R : !Readports} `{F : !Factory}.
Context `{VK : !ValueKinds} `{MO : !MoreOps} `{DF : !AluDestFactory}.

Lemma mbind_inv {A B : Type} (x : M A) (k : A -> M B) (m m' : Machine) (b : B) :
  mbind x k m = Done (b, m') ->
  exists a m1, x m = Done (a, m1) /\ k a m1 = Done (b, m').
Proof.
  unfold mbind. destruct (x m) as [[a m1] | e]; [| discriminate].
  intros H. exists a, m1. split; [reflexivity | exact H].
Qed.

Lemma read_instr_inv (p : InstrPtr) (m m' : Machine) (x : AluInstr) :
  read_instr p m = Done (x, m') -> objs m !! p = Some x /\ m' = m.
Proof.
  unfold read_instr. destruct (objs m !! p) as [y |]; [| discriminate].
  intros [= <- <-]. split; reflexivity.
Qed.

Lemma modify_instr_inv (p : InstrPtr) (f : AluInstr -> AluInstr) (m m' : Machine)
    (u : unit) :
  modify_instr p f m = Done (u, m') ->
  exists x, objs m !! p = Some x /\ m' = with_objs (<[p := f x]> (objs m)) m.
Proof.
  unfold modify_instr. destruct (objs m !! p) as [y |]; [| discriminate].
  intros [= <- <-]. exists y. split; reflexivity.
Qed.

Lemma cond_modify_inv (b : bool) (p : InstrPtr) (f : AluInstr -> AluInstr)
    (m m' : Machine) (u : unit) (x : AluInstr) :
  objs m !! p = Some x ->
  (if b then modify_instr p f else mret tt) m = Done (u, m') ->
  m' = with_objs (<[p := if b then f x else x]> (objs m)) m.
Proof.
  intros Hx. destruct b.
  - intros H. apply modify_instr_inv in H as (y & Hy & ->).
    rewrite Hx in Hy. injection Hy as <-. reflexivity.
  - unfold mret. intros [= <- <-]. rewrite list_insert_id by exact Hx.
    destruct m; reflexivity.
Qed.

(** X6: when [replace_dest] answers false nothing has been changed:
    neither the instruction, nor a pin, nor anything else the machine
    holds. *)
Theorem replace_dest_false_unchanged (this : InstrPtr) (new_dest : PRegister)
    (move_instr : InstrPtr) (m m' : Machine) :
  replace_dest this new_dest move_instr m = Done (false, m') ->
  m' = m.
Proof.
  unfold replace_dest. intros H.
  apply mbind_inv in H as (i & m1 & Hread & H).
  apply read_instr_inv in Hread as [Hi ->].
  destruct (m_dest i) as [d |]; [| discriminate].
  apply mbind_inv in H as (w & m1 & Hw & H).
  injection Hw as <- <-.
  destruct (equal_to (world m) d new_dest); [injection H as <-; reflexivity |].
  destruct (bool_decide _); [injection H as <-; reflexivity |].
  destruct (pin_is (world m) new_dest pin_array); [injection H as <-; reflexivity |].
  destruct (_ && _); [injection H as <-; reflexivity |].
  apply mbind_inv in H as (? & ? & _ & H).
  apply mbind_inv in H as (? & ? & _ & H).
  apply mbind_inv in H as (? & ? & _ & H).
  apply mbind_inv in H as (? & ? & _ & H).
  apply mbind_inv in H as (? & ? & _ & H).
  discriminate.
Qed.

(** Whether [replace_dest] gives the instruction a fourth slot: a Cayman
    trans instruction of fewer than four slots that is moved to channel
    3. *)
Definition gets_fourth_slot (i : AluInstr) (new_dest : PRegister) : bool :=
  has_alu_flag i alu_is_cayman_trans && bool_decide (chan new_dest = 3) &&
  bool_decide (m_alu_slots i < 4).

(** What [replace_dest] has made of instruction [i] when it answers
    true. *)
Definition dest_replaced (i mv i' : AluInstr) (new_dest : PRegister) : Prop :=
  m_dest i' = Some new_dest /\
  m_opcode i' = m_opcode i /\
  m_alu_flags i' =
    (if has_alu_flag mv alu_last_instr then m_alu_flags i
     else m_alu_flags i ∖ {[ alu_last_instr ]}) /\
  if gets_fourth_slot i new_dest then
    m_alu_slots i' = 4 /\ length (m_src i) = 3%nat /\
    exists s0, m_src i !! 0%nat = Some s0 /\ m_src i' = m_src i ++ [s0]
  else m_alu_slots i' = m_alu_slots i /\ m_src i' = m_src i.

(** X7: when [replace_dest] answers true the instruction writes the new
    destination; it has lost the last-instruction flag if the move
    instruction does not carry it, and no other flag.  A Cayman trans
    instruction of fewer than four slots that is moved to channel 3 has
    three sources and gets four slots and a fourth source that repeats
    source 0; in every other case the sources and the slot count are as
    before.  An instruction of one source a slot stays one. *)
Theorem replace_dest_true_effect (this : InstrPtr) (new_dest : PRegister)
    (move_instr : InstrPtr) (m m' : Machine) (i mv : AluInstr) :
  objs m !! this = Some i ->
  objs m !! move_instr = Some mv ->
  replace_dest this new_dest move_instr m = Done (true, m') ->
  exists i',
    objs m' !! this = Some i' /\
    dest_replaced i mv i' new_dest /\
    (Z.of_nat (length (m_src i)) = m_alu_slots i ->
     Z.of_nat (length (m_src i')) = m_alu_slots i').
Proof.
  intros Hi Hmv H. unfold replace_dest in H.
  apply mbind_inv in H as (i0 & m1 & Hread & H).
  apply read_instr_inv in Hread as [Hi0 ->].
  rewrite Hi in Hi0. injection Hi0 as <-.
  destruct (m_dest i) as [d |]; [| discriminate].
  apply mbind_inv in H as (w & m1 & Hw & H).
  injection Hw as <- <-.
  destruct (equal_to (world m) d new_dest); [discriminate |].
  destruct (bool_decide _); [discriminate |].
  destruct (pin_is (world m) new_dest pin_array); [discriminate |].
  destruct (_ && _); [discriminate |].
  apply mbind_inv in H as (u1 & m1 & Hpin & H).
  assert (Hobjs1 : objs m1 = objs m).
  { destruct (pin_is (world m) d pin_chan); injection Hpin as <- <-; reflexivity. }
  apply mbind_inv in H as (u2 & m2 & Hset & H).
  apply modify_instr_inv in Hset as (x & Hx & ->).
  rewrite Hobjs1, Hi in Hx. injection Hx as <-.
  assert (Hlt : (this < length (objs m))%nat) by (eapply lookup_lt_Some; exact Hi).
  apply mbind_inv in H as (mv' & m3 & Hrd & H).
  apply read_instr_inv in Hrd as [Hmv' ->].
  assert (Hlast : has_alu_flag mv' alu_last_instr = has_alu_flag mv alu_last_instr).
  { cbn [objs with_objs] in Hmv'. rewrite Hobjs1 in Hmv'.
    destruct (decide (move_instr = this)) as [-> | Hne].
    - rewrite list_lookup_insert_eq in Hmv' by exact Hlt.
      rewrite Hi in Hmv. injection Hmv as <-. injection Hmv' as <-. reflexivity.
    - rewrite list_lookup_insert_ne in Hmv' by congruence.
      rewrite Hmv in Hmv'. injection Hmv' as <-. reflexivity. }
  apply mbind_inv in H as (u3 & m3 & Hreset & H).
  set (i1 := with_dest (Some new_dest) i) in *.
  apply (cond_modify_inv _ _ _ _ _ _ i1) in Hreset.
  2: { cbn [objs with_objs]. rewrite Hobjs1.
       apply list_lookup_insert_eq. exact Hlt. }
  cbn [objs with_objs] in Hreset.
  rewrite Hobjs1, list_insert_insert_eq in Hreset.
  set (i2 := if negb (has_alu_flag mv' alu_last_instr)
             then reset_alu_flag alu_last_instr i1 else i1) in *.
  assert (Hi2 : objs m3 !! this = Some i2).
  { rewrite Hreset. cbn [objs with_objs]. apply list_lookup_insert_eq. exact Hlt. }
  assert (Hflags2 : m_alu_flags i2 =
                    (if has_alu_flag mv alu_last_instr then m_alu_flags i
                     else m_alu_flags i ∖ {[ alu_last_instr ]})).
  { subst i2. rewrite Hlast. destruct (has_alu_flag mv alu_last_instr); reflexivity. }
  assert (Hrest2 : m_dest i2 = Some new_dest /\ m_opcode i2 = m_opcode i /\
                   m_alu_slots i2 = m_alu_slots i /\ m_src i2 = m_src i).
  { subst i2. destruct (negb _); repeat split; reflexivity. }
  destruct Hrest2 as (Hd2 & Hop2 & Hslots2 & Hsrc2).
  apply mbind_inv in H as (u4 & m4 & Hcay & H).
  unfold mret in H. injection H as <-.
  unfold replace_dest_cayman in Hcay.
  apply mbind_inv in Hcay as (i3 & m5 & Hrd & Hcay).
  apply read_instr_inv in Hrd as [Hi3 ->].
  rewrite Hi2 in Hi3. injection Hi3 as <-.
  assert (Hcayflag : has_alu_flag i2 alu_is_cayman_trans =
                     has_alu_flag i alu_is_cayman_trans).
  { unfold has_alu_flag. rewrite Hflags2.
    destruct (has_alu_flag mv alu_last_instr); [reflexivity |].
    apply bool_decide_ext. set_solver. }
  rewrite Hcayflag in Hcay.
  destruct (has_alu_flag i alu_is_cayman_trans) eqn:Hc.
  2: { unfold mret in Hcay. injection Hcay as <- <-. exists i2. split; [exact Hi2 |].
       split; [| rewrite Hsrc2, Hslots2; auto].
       unfold dest_replaced, gets_fourth_slot. rewrite Hc. cbn [andb]. auto 10. }
  rewrite Hslots2 in Hcay.
  destruct (bool_decide (chan new_dest = 3)) eqn:Hchan; cbn [andb] in Hcay.
  2: { unfold mret in Hcay. injection Hcay as <- <-. exists i2. split; [exact Hi2 |].
       split; [| rewrite Hsrc2, Hslots2; auto].
       unfold dest_replaced, gets_fourth_slot. rewrite Hc, Hchan. cbn [andb]. auto 10. }
  destruct (bool_decide (m_alu_slots i < 4)) eqn:Hfour.
  2: { unfold mret in Hcay. injection Hcay as <- <-. exists i2. split; [exact Hi2 |].
       split; [| rewrite Hsrc2, Hslots2; auto].
       unfold dest_replaced, gets_fourth_slot. rewrite Hc, Hchan, Hfour.
       cbn [andb]. auto 10. }
  apply mbind_inv in Hcay as (u5 & m5 & Hsl & Hcay).
  apply modify_instr_inv in Hsl as (x & Hx & ->).
  rewrite Hi2 in Hx. injection Hx as <-.
  rewrite Hsrc2 in Hcay.
  destruct (bool_decide (length (m_src i) = 3%nat)) eqn:Hthree; [| discriminate].
  apply bool_decide_eq_true in Hthree. cbn [negb] in Hcay.
  destruct (m_src i !! 0%nat) as [s0 |] eqn:Hs0; [| discriminate].
  apply modify_instr_inv in Hcay as (x & Hx & ->).
  assert (Hlt3 : (this < length (objs m3))%nat) by (eapply lookup_lt_Some; exact Hi2).
  cbn [objs with_objs] in Hx.
  rewrite list_lookup_insert_eq in Hx by exact Hlt3. injection Hx as <-.
  eexists. split.
  { cbn [objs with_objs]. apply list_lookup_insert_eq.
    rewrite length_insert. exact Hlt3. }
  cbn [with_src with_alu_slots m_src m_alu_slots m_dest m_opcode m_alu_flags].
  rewrite Hsrc2. split.
  - unfold dest_replaced, gets_fourth_slot. rewrite Hc, Hchan, Hfour.
    cbn [andb with_src with_alu_slots m_src m_alu_slots m_dest m_opcode m_alu_flags].
    split; [exact Hd2 |]. split; [exact Hop2 |]. split; [exact Hflags2 |].
    split; [reflexivity |]. split; [exact Hthree |].
    exists s0. split; [exact Hs0 | reflexivity].
  - intros _. rewrite length_app, Hthree. reflexivity.
Qed.

(** X8: [propagate_death] never touches the sources or the destination
    of the instruction and takes no flag from it but the write flag; when
    it answers false the use lists, and all else the collaborators hold,
    are as before; and an instruction without destination is answered true
    with nothing changed at all. *)
Theorem propagate_death_effect (this : InstrPtr) (m m' : Machine) (i : AluInstr)
    (b : bool) :
  objs m !! this = Some i ->
  propagate_death this m = Done (b, m') ->
  (exists i',
     objs m' !! this = Some i' /\
     m_src i' = m_src i /\ m_dest i' = m_dest i /\
     (m_alu_flags i' = m_alu_flags i \/
      m_alu_flags i' = m_alu_flags i ∖ {[ alu_write ]}) /\
     (b = true -> i' = i)) /\
  (b = false -> world m' = world m) /\
  (m_dest i = None -> b = true /\ m' = m).
Proof.
  intros Hi H. unfold propagate_death in H.
  apply mbind_inv in H as (i0 & m1 & Hread & H).
  apply read_instr_inv in Hread as [Hi0 ->].
  rewrite Hi in Hi0. injection Hi0 as <-.
  assert (Hlt : (this < length (objs m))%nat) by (eapply lookup_lt_Some; exact Hi).
  destruct (m_dest i) as [d |] eqn:Hd.
  2: { injection H as <- <-. split; [| split; [discriminate | auto]].
       exists i. rewrite Hd. auto 10. }
  apply mbind_inv in H as (w & m1 & Hw & H).
  injection Hw as <- <-.
  destruct (_ && _).
  { apply mbind_inv in H as (u & m1 & Hmod & H). injection H as <- <-.
    apply modify_instr_inv in Hmod as (x & Hx & ->).
    rewrite Hi in Hx. injection Hx as <-.
    split; [| split; [reflexivity | discriminate]].
    eexists. split; [cbn [objs with_objs]; apply list_lookup_insert_eq; exact Hlt |].
    cbn [reset_alu_flag with_alu_flags m_src m_dest m_alu_flags].
    split; [reflexivity |]. split; [exact Hd |]. split; [right; reflexivity |].
    discriminate. }
  destruct (pin_is (world m) d pin_array).
  { injection H as <- <-. split; [| split; [reflexivity | discriminate]].
    exists i. rewrite Hd. auto 10. }
  destruct (has_alu_flag i alu_is_cayman_trans).
  { injection H as <- <-. split; [| split; [reflexivity | discriminate]].
    exists i. rewrite Hd. auto 10. }
  apply mbind_inv in H as (u & m1 & Hupd & H). injection H as <- <-.
  unfold update_world in Hupd. injection Hupd as <- <-.
  split; [| split; [discriminate | discriminate]].
  exists i. cbn [objs with_world]. rewrite Hd. auto 10.
Qed.

End Destination.

Section Pinning.
Context `{V : Values} `{T : OpTables} `{R : !Readports} `{F : !Factory}.
Context `{VK : !ValueKinds} `{MO : !MoreOps} `{DF : !AluDestFactory}.

(** What [set_pin] is taken to do: a register that is free or group
    pinned takes the pin it is given, and the pin of any register is after
    [set_pin] the one it was or the one given (two pointers may be one
    register). *)
Hypothesis set_pin_same :
  forall (w : World) (r : PRegister) (p : Pin),
    pin w r = pin_free \/ pin w r = pin_group -> pin (set_pin r p w) r = p.
Hypothesis set_pin_other :
  forall (w : World) (r r' : PRegister) (p : Pin),
    pin (set_pin r p w) r' = pin w r' \/ pin (set_pin r p w) r' = p.

Lemma pin_source_keeps (w : World) (s : PVirtualValue) (r : PRegister) :
  pin w r <> pin_free /\ pin w r <> pin_group ->
  pin (pin_source_to_chan w s) r <> pin_free /\
  pin (pin_source_to_chan w s) r <> pin_group.
Proof.
  intros [Hfree Hgroup]. unfold pin_source_to_chan.
  destruct (as_register s) as [r0 |]; [| auto].
  destruct (pin_is w r0 pin_free).
  { destruct (set_pin_other w r0 r pin_chan) as [-> | ->]; [auto |].
    split; discriminate. }
  destruct (pin_is w r0 pin_group); [| auto].
  destruct (set_pin_other w r0 r pin_chgr) as [-> | ->]; [auto |].
  split; discriminate.
Qed.

Lemma pin_source_settles (w : World) (s : PVirtualValue) (r : PRegister) :
  as_register s = Some r ->
  pin (pin_source_to_chan w s) r <> pin_free /\
  pin (pin_source_to_chan w s) r <> pin_group.
Proof.
  intros Hr. unfold pin_source_to_chan. rewrite Hr.
  destruct (pin_is w r pin_free) eqn:Hfree.
  { apply pin_is_true in Hfree. rewrite set_pin_same by auto. split; discriminate. }
  destruct (pin_is w r pin_group) eqn:Hgroup.
  { apply pin_is_true in Hgroup. rewrite set_pin_same by auto. split; discriminate. }
  apply bool_decide_eq_false in Hfree. apply bool_decide_eq_false in Hgroup.
  auto.
Qed.

(** X9: after [pin_sources_to_chan] no register among the sources is
    left free or group pinned. *)
Theorem pin_sources_to_chan_settles (i : AluInstr) (w : World)
    (s : PVirtualValue) (r : PRegister) :
  s ∈ m_src i ->
  as_register s = Some r ->
  pin (pin_sources_to_chan i w) r <> pin_free /\
  pin (pin_sources_to_chan i w) r <> pin_group.
Proof.
  unfold pin_sources_to_chan. revert w.
  induction (m_src i) as [| s0 l IH]; intros w Hin Hr.
  - apply elem_of_nil in Hin. contradiction.
  - cbn [fold_left].
    assert (Hkeep : forall l' w',
              pin w' r <> pin_free /\ pin w' r <> pin_group ->
              pin (fold_left pin_source_to_chan l' w') r <> pin_free /\
              pin (fold_left pin_source_to_chan l' w') r <> pin_group).
    { induction l' as [| s1 l' IH']; intros w' Hw'; [exact Hw' |].
      cbn [fold_left]. apply IH'. apply pin_source_keeps. exact Hw'. }
    apply elem_of_cons in Hin as [-> | Hin].
    + apply Hkeep. apply pin_source_settles. exact Hr.
    + apply IH; assumption.
Qed.

End Pinning.

Section UseLists.
Context `{V : Values} `{T : OpTables} `{R : !Readports} `{F : !Factory}.
Context `{VK : !ValueKinds} `{MO : !MoreOps} `{DF : !AluDestFactory}.

(** What [add_use] and [add_parent] are taken to do to use lists:
    [add_use] enters the instruction, and neither takes an entry away. *)
Hypothesis add_use_in :
  forall (w : World) (r : PRegister) (p : InstrPtr), p ∈ uses (add_use r p w) r.
Hypothesis add_use_keeps :
  forall (w : World) (r r' : PRegister) (p p' : InstrPtr),
    p ∈ uses w r -> p ∈ uses (add_use r' p' w) r.
Hypothesis add_parent_keeps :
  forall (w : World) (r r' : PRegister) (p p' : InstrPtr),
    p ∈ uses w r -> p ∈ uses (add_parent r' p' w) r.

Lemma add_use_of_addr_keeps (this p : InstrPtr) (a : option PVirtualValue)
    (w : World) (r : PRegister) :
  p ∈ uses w r -> p ∈ uses (add_use_of_addr this a w) r.
Proof.
  intros H. unfold add_use_of_addr. destruct a as [a |]; [| exact H].
  destruct (as_register a); [apply add_use_keeps |]; exact H.
Qed.

Lemma add_use_of_addr_in (this : InstrPtr) (a : PVirtualValue) (w : World)
    (ar : PRegister) :
  as_register a = Some ar -> this ∈ uses (add_use_of_addr this (Some a) w) ar.
Proof. intros H. unfold add_use_of_addr. rewrite H. apply add_use_in. Qed.

Lemma update_uses_src_keeps (this p : InstrPtr) (w : World) (s : PVirtualValue)
    (r : PRegister) :
  p ∈ uses w r -> p ∈ uses (update_uses_src this w s) r.
Proof.
  intros H. unfold update_uses_src.
  assert (H1 : p ∈ uses
                 match as_register s with
                 | Some r0 =>
                     if decide (pin (add_use r0 this w) r0 = pin_array)
                     then add_use_of_addr this (array_addr r0) (add_use r0 this w)
                     else add_use r0 this w
                 | None => w
                 end r).
  { destruct (as_register s) as [r0 |]; [| exact H].
    destruct (decide _); [apply add_use_of_addr_keeps |]; apply add_use_keeps, H. }
  destruct (as_uniform s); [apply add_use_of_addr_keeps |]; exact H1.
Qed.

(** The registers an instruction reads through source [s]: the source
    itself, and the address register of an indexed uniform. *)
Definition read_through (s : PVirtualValue) (r : PRegister) : Prop :=
  as_register s = Some r \/
  exists u a, as_uniform s = Some u /\ buf_addr u = Some a /\ as_register a = Some r.

Lemma update_uses_src_in (this : InstrPtr) (w : World) (s : PVirtualValue)
    (r : PRegister) :
  read_through s r -> this ∈ uses (update_uses_src this w s) r.
Proof.
  intros [Hr | (u & a & Hu & Ha & Hr)]; unfold update_uses_src.
  - rewrite Hr.
    assert (H1 : this ∈ uses
                   (if decide (pin (add_use r this w) r = pin_array)
                    then add_use_of_addr this (array_addr r) (add_use r this w)
                    else add_use r this w) r).
    { destruct (decide _); [apply add_use_of_addr_keeps |]; apply add_use_in. }
    destruct (as_uniform s); [apply add_use_of_addr_keeps |]; exact H1.
  - rewrite Hu, Ha. apply add_use_of_addr_in. exact Hr.
Qed.

Lemma fold_update_uses_in (this : InstrPtr) (l : list PVirtualValue) :
  forall (w : World) (s : PVirtualValue) (r : PRegister),
    s ∈ l -> read_through s r ->
    this ∈ uses (fold_left (update_uses_src this) l w) r.
Proof.
  assert (Hkeep : forall l' w' p r,
            p ∈ uses w' r -> p ∈ uses (fold_left (update_uses_src this) l' w') r).
  { induction l' as [| s1 l' IH']; intros w' p r Hw'; [exact Hw' |].
    cbn [fold_left]. apply IH', update_uses_src_keeps, Hw'. }
  induction l as [| s0 l IH]; intros w s r Hin Hr.
  - apply elem_of_nil in Hin. contradiction.
  - cbn [fold_left]. apply elem_of_cons in Hin as [-> | Hin].
    + apply Hkeep. apply (update_uses_src_in this w s0 r Hr).
    + apply (IH _ s r Hin Hr).
Qed.

(** X10: [update_uses], which every constructor ends with, leaves the
    instruction in the use list of each register it reads: of each
    register source and of the address register of each indexed uniform
    source. *)
Theorem update_uses_enters_use_lists (this : InstrPtr) (i : AluInstr) (w : World)
    (s : PVirtualValue) (r : PRegister) :
  s ∈ m_src i ->
  read_through s r ->
  this ∈ uses (update_uses this i w) r.
Proof.
  intros Hin Hr. unfold update_uses.
  pose proof (fold_update_uses_in this (m_src i) w s r Hin Hr) as Hfold.
  destruct (m_dest i) as [d |]; [| exact Hfold].
  destruct (has_alu_flag i alu_write); [| exact Hfold].
  destruct (decide _); [apply add_use_of_addr_keeps |];
    apply add_parent_keeps, Hfold.
Qed.

(** X11: [set_sources] gives the instruction the sources it is handed,
    whatever their number, and leaves the instruction in the use list of
    each register among them. *)
Theorem set_sources_effect (this : InstrPtr) (src : list PVirtualValue)
    (m : Machine) (i : AluInstr) :
  objs m !! this = Some i ->
  exists m' i',
    set_sources this src m = Done (tt, m') /\
    objs m' !! this = Some i' /\
    i' = with_src src i /\
    forall s r, s ∈ src -> as_register s = Some r -> this ∈ uses (world m') r.
Proof.
  intros Hi. unfold set_sources, mbind, read_instr, update_world, modify_instr.
  rewrite Hi. cbn [objs with_world]. rewrite Hi.
  eexists _, _. split; [reflexivity |].
  cbn [objs world with_world with_objs].
  split; [apply list_lookup_insert_eq; eapply lookup_lt_Some; exact Hi |].
  split; [reflexivity |].
  intros s r Hin Hr.
  generalize (fold_left
                (fun (w : World) (s0 : PVirtualValue) =>
                   match as_register s0 with
                   | Some r0 => del_use r0 this w
                   | None => w
                   end) (m_src i) (world m)).
  assert (Hkeep : forall l' w' p r',
            p ∈ uses w' r' ->
            p ∈ uses (fold_left
                        (fun (w : World) (s0 : PVirtualValue) =>
                           match as_register s0 with
                           | Some r0 => add_use r0 this w
                           | None => w
                           end) l' w') r').
  { induction l' as [| s1 l' IH']; intros w' p r' Hw'; [exact Hw' |].
    cbn [fold_left]. apply IH'.
    destruct (as_register s1); [apply add_use_keeps |]; exact Hw'. }
  revert Hin. induction src as [| s0 l IH]; intros Hin w0.
  - apply elem_of_nil in Hin. contradiction.
  - cbn [fold_left]. apply elem_of_cons in Hin as [-> | Hin].
    + apply Hkeep. rewrite Hr. apply add_use_in.
    + apply IH. exact Hin.
Qed.

End UseLists.

Section ReadportTrials.
Context `{V : Values} `{T : OpTables} `{R : !Readports} `{F : !Factory}.

(** Once [success] is cleared no trial sets it again. *)
Lemma check_slot_swizzles_failed (srcs : list PVirtualValue) (n : Z)
    (bss : list AluBankSwizzle) :
  forall rpr, snd (check_slot_swizzles srcs n bss rpr false) = false.
Proof.
  induction bss as [| bs rest IH]; intros rpr; cbn [check_slot_swizzles]; [reflexivity |].
  destruct (schedule_vec_src rpr srcs n bs) as [[|] rpr']; [reflexivity | apply IH].
Qed.

Lemma check_slot_swizzles_cons (srcs : list PVirtualValue) (n : Z)
    (bs : AluBankSwizzle) (rest : list AluBankSwizzle)
    (rpr : AluReadportReservation) (success : bool) :
  check_slot_swizzles srcs n (bs :: rest) rpr success =
  let '(ok, rpr') := schedule_vec_src rpr srcs n bs in
  if ok then (rpr', success) else check_slot_swizzles srcs n rest rpr false.
Proof. reflexivity. Qed.

(** Whether the first bank swizzle, [alu_vec_012], schedules the sources
    of every slot from [s] on, the replacement made, each slot on top of
    the reservations of the slots before it. *)
Fixpoint first_swizzle_schedules (w : World) (src : list PVirtualValue)
    (old_src : PRegister) (new_src : PVirtualValue) (nsrc : nat) (slots s : nat)
    (rpr_sum : AluReadportReservation) : outcome bool :=
  match slots with
  | O => Done true
  | S slots' =>
      let? ireg := slot_sources src nsrc s nsrc 0 in
      let sv := map (fun v => if equal_to w old_src v then new_src else v) ireg in
      let '(ok, rpr) := schedule_vec_src rpr_sum sv (Z.of_nat nsrc) alu_vec_012 in
      if ok then first_swizzle_schedules w src old_src new_src nsrc slots' (S s) rpr
      else Done false
  end.

Lemma check_slots_first_swizzle (w : World) (src : list PVirtualValue)
    (old_src : PRegister) (new_src : PVirtualValue) (nsrc : nat) (slots : nat) :
  forall s rpr,
    check_slots w src old_src new_src nsrc slots s rpr true =
    first_swizzle_schedules w src old_src new_src nsrc slots s rpr.
Proof.
  induction slots as [| slots IH]; intros s rpr;
    cbn [check_slots first_swizzle_schedules]; [reflexivity |].
  destruct (slot_sources src nsrc s nsrc 0) as [ireg | e]; [| reflexivity].
  cbn [obind].
  change (bank_swizzles_from alu_vec_012)
    with (alu_vec_012 :: bank_swizzles_from alu_vec_021).
  set (sv := map (fun v => if equal_to w old_src v then new_src else v) ireg).
  rewrite check_slot_swizzles_cons.
  destruct (schedule_vec_src rpr sv (Z.of_nat nsrc) alu_vec_012) as [[|] rpr'];
    [apply IH |].
  pose proof (check_slot_swizzles_failed sv (Z.of_nat nsrc)
                (bank_swizzles_from alu_vec_021) rpr) as Hfail.
  destruct (check_slot_swizzles sv _ _ rpr false) as [rpr2 ok2].
  cbn [snd] in Hfail. subst ok2.
  destruct slots; reflexivity.
Qed.

(** X26: for an instruction of three sources or more, at most three a
    slot, whose source count is the opcode's times the slot count,
    [check_readport_validation]
    answers whether bank swizzle [alu_vec_012] schedules every slot: a
    slot it does not schedule clears [success] before the five further
    bank swizzles are tried, and none of them sets it again. *)
Theorem check_readport_validation_first_swizzle (w : World) (i : AluInstr)
    (old_src : PRegister) (new_src : PVirtualValue) (op : AluOp) :
  (3 <= length (m_src i))%nat ->
  alu_ops_at (m_opcode i) = Done op ->
  0 <= nsrc op <= 3 ->
  0 <= m_alu_slots i ->
  nsrc op * m_alu_slots i = Z.of_nat (length (m_src i)) ->
  Z.of_nat (length (m_src i)) < 2 ^ 32 ->
  check_readport_validation w i old_src new_src =
  first_swizzle_schedules w (m_src i) old_src new_src
    (Z.to_nat (nsrc op)) (Z.to_nat (m_alu_slots i)) 0 new_reservation.
Proof.
  intros Hlen Hop Hn Hslots Hsize Hmax. unfold check_readport_validation.
  destruct (length (m_src i) <? 3)%nat eqn:Hlt; [apply Nat.ltb_lt in Hlt; lia |].
  rewrite Hop. cbn [obind].
  assert (Hu : unsigned_of (nsrc op) = nsrc op).
  { unfold unsigned_of. apply Z.mod_small. lia. }
  rewrite Hu.
  assert (Hu2 : unsigned_of (nsrc op * m_alu_slots i) = Z.of_nat (length (m_src i))).
  { unfold unsigned_of. rewrite Hsize. apply Z.mod_small. lia. }
  rewrite (bool_decide_eq_true_2 _ Hu2). cbn [negb].
  rewrite (bool_decide_eq_false_2 (3 < nsrc op)) by lia.
  cbn [andb]. apply check_slots_first_swizzle.
Qed.

End ReadportTrials.

Section ReplaceSourceMore.
Context `{V : Values} `{T : OpTables} `{R : !Readports} `{F : !Factory}.

(** Outside a group the read-port block of [replace_source] changes
    nothing. *)
Lemma replace_source_ports_ungrouped i old_src new_src w op m b m' :
  m_parent_group i = None ->
  replace_source_ports i old_src new_src w op m = Done (b, m') ->
  m' = m.
Proof.
  intros Hg. unfold replace_source_ports, mbind, lift, mret. rewrite Hg.
  destruct (_ || _); [| intros [= _ <-]; reflexivity].
  destruct (replace_source_slots _ _ _ _ _ _ _ _) as [[ok rpc] |]; [| discriminate].
  destruct ok; intros [= _ <-]; reflexivity.
Qed.

Lemma replace_source_ports_world i old_src new_src w op m b m' :
  replace_source_ports i old_src new_src w op m = Done (b, m') ->
  world m' = world m.
Proof.
  unfold replace_source_ports, mbind, read_group, modify_group, lift, mret.
  destruct (_ || _); [| intros [= _ <-]; reflexivity].
  destruct (m_parent_group i) as [g |] eqn:Hg.
  - destruct (groups m !! g) as [grp |] eqn:Hgrp; [| discriminate].
    destruct (replace_source_slots _ _ _ _ _ _ _ _) as [[ok rpc] |]; [| discriminate].
    destruct ok.
    + rewrite Hgrp. intros [= _ <-]. reflexivity.
    + intros [= _ <-]. reflexivity.
  - destruct (replace_source_slots _ _ _ _ _ _ _ _) as [[ok rpc] |]; [| discriminate].
    destruct ok; intros [= _ <-]; reflexivity.
Qed.

(** X12: for an instruction that is in no group, a [replace_source] that
    answers false has changed nothing at all: not the instruction, not a
    use list, not a reservation. *)
Theorem replace_source_false_unchanged
    (this : InstrPtr) (old_src : PRegister) (new_src : PVirtualValue)
    (m m' : Machine) (i : AluInstr) :
  objs m !! this = Some i ->
  m_parent_group i = None ->
  replace_source this old_src new_src m = Done (false, m') ->
  m' = m.
Proof.
  intros Hi Hg. unfold replace_source, mbind, read_instr, get_world, lift, mret.
  rewrite Hi.
  destruct (check_readport_validation _ _ _ _) as [valid |]; [| discriminate].
  destruct valid; cbn [negb]; [| intros [= <-]; reflexivity].
  destruct (pin_is _ _ _); [intros [= <-]; reflexivity |].
  destruct (has_other_addr _ _ _); [intros [= <-]; reflexivity |].
  destruct (dest_addr_differs _ _ _); [intros [= <-]; reflexivity |].
  destruct (alu_ops_at (m_opcode i)) as [op |]; [| discriminate].
  destruct (replace_source_ports _ _ _ _ _ m) as [[ports m1] |] eqn:Hports;
    [| discriminate].
  apply (replace_source_ports_ungrouped _ _ _ _ _ _ _ _ Hg) in Hports. subst m1.
  destruct ports; cbn [negb]; [| intros [= <-]; reflexivity].
  unfold replace_source_apply, mbind, modify_instr. rewrite Hi.
  destruct (existsb (equal_to (world m) old_src) (m_src i)) eqn:Hprocess.
  - unfold update_world, mret. discriminate.
  - unfold mret. intros [= <-].
    rewrite map_subst_no_match by exact Hprocess.
    rewrite with_src_same, list_insert_id by exact Hi.
    destruct m; reflexivity.
Qed.

(** X13: when [replace_source] answers true, the old source was not
    array pinned and was equal to at least one source; every source equal
    to it has been replaced by the new one and the others are in their
    places, so the number of sources is as before; the instruction has been
    entered in the new source's use list, if that is a register, and taken
    out of the old one's. *)
Theorem replace_source_true_effect
    (this : InstrPtr) (old_src : PRegister) (new_src : PVirtualValue)
    (m m' : Machine) (i : AluInstr) :
  objs m !! this = Some i ->
  replace_source this old_src new_src m = Done (true, m') ->
  pin (world m) old_src <> pin_array /\
  (exists s, s ∈ m_src i /\ equal_to (world m) old_src s = true) /\
  objs m' !! this =
    Some (with_src
            (map (fun s => if equal_to (world m) old_src s then new_src else s)
                 (m_src i)) i) /\
  (forall i', objs m' !! this = Some i' -> length (m_src i') = length (m_src i)) /\
  world m' =
    del_use old_src this
      match as_register new_src with
      | Some r => add_use r this (world m)
      | None => world m
      end.
Proof.
  intros Hi. unfold replace_source, mbind, read_instr, get_world, lift, mret.
  rewrite Hi.
  destruct (check_readport_validation _ _ _ _) as [valid |]; [| discriminate].
  destruct valid; cbn [negb]; [| discriminate].
  destruct (pin_is _ _ _) eqn:Harr; [discriminate |].
  apply bool_decide_eq_false in Harr.
  destruct (has_other_addr _ _ _); [discriminate |].
  destruct (dest_addr_differs _ _ _); [discriminate |].
  destruct (alu_ops_at (m_opcode i)) as [op |]; [| discriminate].
  destruct (replace_source_ports _ _ _ _ _ m) as [[ports m1] |] eqn:Hports;
    [| discriminate].
  pose proof (replace_source_ports_objs _ _ _ _ _ _ _ _ Hports) as Hobjs.
  pose proof (replace_source_ports_world _ _ _ _ _ _ _ _ Hports) as Hworld.
  destruct ports; cbn [negb]; [| discriminate].
  unfold replace_source_apply, mbind, modify_instr. rewrite Hobjs, Hi.
  destruct (existsb (equal_to (world m) old_src) (m_src i)) eqn:Hprocess.
  2: { unfold mret. discriminate. }
  unfold update_world, mret. intros [= <-].
  assert (Hlt : (this < length (objs m))%nat) by (eapply lookup_lt_Some; exact Hi).
  split; [exact Harr |]. split.
  { apply existsb_exists in Hprocess as (s & Hin & Hs).
    exists s. split; [apply list_elem_of_In; exact Hin | exact Hs]. }
  cbn [objs world with_world with_objs].
  rewrite list_lookup_insert_eq by exact Hlt.
  split; [reflexivity |]. split.
  { intros i' [= <-]. cbn [m_src with_src]. apply length_map. }
  rewrite Hworld. reflexivity.
Qed.

End ReplaceSourceMore.

Section Invariants.
Context `{V : Values} `{T : OpTables} `{R : !Readports} `{F : !Factory}.

(** X14: what holds of every instruction the regular constructor
    builds: it has a destination if it has the write flag; its flags are
    the ones given, and the three-operand flag if it has three sources;
    bank swizzle and control-flow type are the unset ones. *)
Theorem ctor_invariants this opcode dest src flags slots w i w' :
  AluInstr_ctor this opcode dest src flags slots w = Done (i, w') ->
  (has_alu_flag i alu_write = true -> is_Some (m_dest i)) /\
  (forall f, has_alu_flag i f = true <->
             f ∈ flags \/ (f = alu_op3 /\ length (m_src i) = 3%nat)) /\
  m_bank_swizzle i = alu_vec_unknown /\ m_cf_type i = cf_alu.
Proof.
  intros Hctor.
  pose proof (AluInstr_ctor_fields _ _ _ _ _ _ _ _ _ Hctor)
    as (Hop & Hd & Hsrc & Hslots & Hflags & Hbs & Hcf).
  split; [| split; [| split; assumption]].
  - intros Hw. unfold AluInstr_ctor in Hctor.
    destruct (alu_ops_at opcode) as [op |]; [| discriminate].
    cbn [obind] in Hctor. destruct (decide _); [| discriminate].
    destruct (has_alu_flag _ alu_write && bool_decide (dest = None)) eqn:Hchk;
      [discriminate |].
    injection Hctor as <- <-.
    rewrite Hw in Hchk. cbn [andb] in Hchk. apply bool_decide_eq_false in Hchk.
    cbn [m_dest]. destruct dest; [eexists; reflexivity | contradiction].
  - intros f. unfold has_alu_flag. rewrite bool_decide_eq_true, Hflags, Hsrc.
    destruct (decide (length src = 3%nat)); set_solver.
Qed.

(** X15: [is_equal_to] looks at opcode, bank swizzle, control-flow
    type, flags, destination and sources and at nothing else: two
    instructions that agree in these compare equal whatever their LDS
    opcodes, slot counts, fallback channels, extra dependencies and groups
    are, as far as [equal_to] holds of each operand and itself. *)
Theorem is_equal_to_compared_fields (w : World) (i j : AluInstr) :
  m_opcode j = m_opcode i ->
  m_bank_swizzle j = m_bank_swizzle i ->
  m_cf_type j = m_cf_type i ->
  m_alu_flags j = m_alu_flags i ->
  m_dest j = m_dest i ->
  m_src j = m_src i ->
  (forall v, v ∈ m_src i -> equal_to w v v = true) ->
  (forall d : PRegister, m_dest i = Some d -> equal_to w d d = true) ->
  is_equal_to w i j = true.
Proof.
  intros Hop Hbs Hcf Hfl Hd Hsrc Hrefl Hdrefl. unfold is_equal_to.
  rewrite Hop, Hbs, Hcf, Hfl, Hd, Hsrc.
  rewrite !bool_decide_eq_true_2 by reflexivity. cbn [negb orb].
  assert (Hdest : match m_dest i with
                  | Some d =>
                      match m_dest i with
                      | Some ld =>
                          if has_alu_flag i alu_write then equal_to w d ld
                          else bool_decide (chan d = chan ld)
                      | None => false
                      end
                  | None => match m_dest i with Some _ => false | None => true end
                  end = true).
  { destruct (m_dest i) as [d |] eqn:Hdi; [| reflexivity].
    destruct (has_alu_flag i alu_write); [apply Hdrefl; reflexivity |].
    apply bool_decide_eq_true_2. reflexivity. }
  rewrite Hdest. cbn [negb].
  revert Hrefl. generalize (m_src i). intros l Hl.
  induction l as [| v l IH]; [reflexivity |].
  cbn [srcs_equal_to]. rewrite Hl by apply list_elem_of_here. cbn [negb].
  apply IH. intros v' Hv'. apply Hl. apply list_elem_of_further. exact Hv'.
Qed.

(** X16: [split] answers a null pointer exactly for an instruction of
    one slot, and has then changed nothing. *)
Theorem split_single_slot (this : InstrPtr) (m m' : Machine) (i : AluInstr) :
  objs m !! this = Some i ->
  (m_alu_slots i = 1 -> split this m = Done (None, m)) /\
  (split this m = Done (None, m') -> m_alu_slots i = 1 /\ m' = m).
Proof.
  intros Hi. split.
  - intros Hone. unfold split, mbind, read_instr. rewrite Hi.
    rewrite bool_decide_eq_true_2 by exact Hone. reflexivity.
  - intros H. unfold split in H.
    apply mbind_inv in H as (i0 & m1 & Hread & H).
    apply read_instr_inv in Hread as [Hi0 ->].
    rewrite Hi in Hi0. injection Hi0 as <-.
    destruct (bool_decide (m_alu_slots i = 1)) eqn:Hone.
    { apply bool_decide_eq_true in Hone. unfold mret in H.
      injection H as <-. split; [exact Hone | reflexivity]. }
    apply mbind_inv in H as (g & m1 & _ & H).
    destruct (m_dest i) as [d |]; [| discriminate].
    apply mbind_inv in H as (? & ? & _ & H).
    apply mbind_inv in H as (? & ? & _ & H).
    apply mbind_inv in H as (? & ? & _ & H).
    apply mbind_inv in H as (? & ? & _ & H).
    apply mbind_inv in H as (? & ? & _ & H).
    discriminate.
Qed.

End Invariants.

Section Lexing.
Context `{V : Values} `{T : OpTables} `{R : !Readports} `{F : !Factory}.

Lemma flush_tokens (cur : string) :
  no_space cur = true -> Forall (fun t => is_token t = true) (flush cur).
Proof.
  intros Hns. unfold flush. destruct (bool_decide (cur = "")) eqn:He; [constructor |].
  constructor; [| constructor]. unfold is_token. rewrite He, Hns. reflexivity.
Qed.

Lemma tokenize_from_tokens (s : string) :
  forall cur,
    no_space cur = true ->
    Forall (fun t => is_token t = true) (tokenize_from cur s).
Proof.
  induction s as [| c s IH]; intros cur Hns.
  - apply flush_tokens. exact Hns.
  - cbn [tokenize_from]. destruct (is_space c) eqn:Hc.
    + pose proof (flush_tokens cur Hns) as Hfl. unfold flush in Hfl.
      destruct (bool_decide (cur = "")).
      * apply IH. reflexivity.
      * constructor; [apply Forall_inv in Hfl; exact Hfl | apply IH; reflexivity].
    + apply IH. rewrite no_space_app, Hns. cbn [no_space].
      rewrite Hc. reflexivity.
Qed.

(** X17: the token loop of [from_string] gives out only tokens: strings
    that are not empty and hold no white space. *)
Theorem tokenize_tokens (text t : string) :
  t ∈ tokenize text -> is_token t = true.
Proof.
  intros Hin.
  pose proof (tokenize_from_tokens text "" eq_refl) as Hall.
  rewrite Forall_forall in Hall. apply Hall. exact Hin.
Qed.

(** Tokens written one after the other with a blank between. *)
Fixpoint join_tokens (ts : list string) : string :=
  match ts with
  | [] => ""
  | t :: rest =>
      match rest with
      | [] => t
      | _ :: _ => t +:+ " " +:+ join_tokens rest
      end
  end.

(** X18: the token loop reads back what was written token by token:
    tokens joined by blanks are split into the same tokens. *)
Theorem tokenize_join_tokens (ts : list string) :
  Forall (fun t => is_token t = true) ts ->
  tokenize (join_tokens ts) = ts.
Proof.
  unfold tokenize. induction 1 as [| t rest Ht Hrest IH]; [reflexivity |].
  pose proof Ht as Hns. apply andb_true_iff in Hns as [_ Hns].
  cbn [join_tokens]. destruct rest as [| t' rest'].
  - rewrite <- (string_app_nil_r t) at 1.
    rewrite tokenize_from_no_space by exact Hns.
    rewrite string_app_nil_l, tokenize_from_end. apply flush_token. exact Ht.
  - rewrite tokenize_from_no_space by exact Hns.
    rewrite string_app_nil_l, tokenize_from_blank, (flush_token _ Ht).
    cbn [app]. f_equal. exact IH.
Qed.

(** A text of white space only. *)
Fixpoint all_space (s : string) : bool :=
  match s with
  | EmptyString => true
  | String c r => is_space c && all_space r
  end.

Lemma tokenize_all_space (s : string) :
  all_space s = true -> tokenize_from "" s = [].
Proof.
  induction s as [| c s IH]; [reflexivity |].
  cbn [all_space tokenize_from]. intros H. apply andb_true_iff in H as [Hc Hs].
  rewrite Hc. change (bool_decide ("" = "")) with true. cbn iota.
  apply IH. exact Hs.
Qed.

(** X19: [from_string] has no answer for an empty text or one of white
    space only: it reads the first token of an empty token list. *)
Theorem from_string_blank_text (text : string) (group : option GroupPtr)
    (m : Machine) :
  all_space text = true ->
  from_string text group m = Fault (Undefined "*t").
Proof.
  intros Hblank. unfold from_string, tokenize.
  rewrite (tokenize_all_space text Hblank). reflexivity.
Qed.

Lemma lookup_op_effect (is_lds : bool) (opstr : string) (m m' : Machine)
    (d : OpDescr) :
  lookup_op is_lds opstr m = Done (d, m') ->
  objs m' = objs m /\ groups m' = groups m /\ world m' = world m /\
  shader_instrs m' = shader_instrs m /\
  s_lds_map_by_name m' = s_lds_map_by_name m /\
  (s_alu_map_by_name m' = s_alu_map_by_name m \/
   s_alu_map_by_name m' = <[opstr := d]> (s_alu_map_by_name m)).
Proof.
  unfold lookup_op.
  destruct ((if is_lds then s_lds_map_by_name m else s_alu_map_by_name m) !! opstr).
  { intros [= <- <-]. auto 10. }
  destruct (if is_lds then find_lds_by_name opstr lds_ops
            else find_alu_by_name opstr alu_ops) as [d' |]; [| discriminate].
  destruct (bool_decide _); [discriminate |].
  intros [= <- <-]. cbn. auto 10.
Qed.

(** X20: a [from_string] that answers has built exactly one
    instruction, at the next free place; it answers the pointer to it when
    no group is given and a null pointer when one is; the shader's stream
    is as before; and of the two name tables only [s_alu_map_by_name] can
    have taken an entry, the opcode name read, [s_lds_map_by_name] being
    never written. *)
Theorem from_string_effects (text : string) (group : option GroupPtr)
    (m m' : Machine) (r : option InstrPtr) :
  from_string text group m = Done (r, m') ->
  (exists i', objs m' = objs m ++ [i']) /\
  r = match group with
      | None => Some (length (objs m))
      | Some _ => None
      end /\
  shader_instrs m' = shader_instrs m /\
  s_lds_map_by_name m' = s_lds_map_by_name m /\
  (s_alu_map_by_name m' = s_alu_map_by_name m \/
   exists opstr d, s_alu_map_by_name m' = <[opstr := d]> (s_alu_map_by_name m)).
Proof.
  unfold from_string. intros H.
  apply mbind_inv in H as ([[[[is_lds opstr] deststr] flags0] t] & m1 & Hhead & H).
  unfold lift in Hhead.
  destruct (parse_head (tokenize text)) as [hd |]; [| discriminate].
  injection Hhead as -> <-.
  apply mbind_inv in H as (op_descr & m1 & Hlook & H).
  apply lookup_op_effect in Hlook as (Ho1 & Hg1 & Hw1 & Hs1 & Hl1 & Ha1).
  apply mbind_inv in H as (w & m2 & Hw & H).
  injection Hw as <- <-.
  apply mbind_inv in H as ([[[[t' flags1] sources] slots] w'] & m2 & Hslots & H).
  unfold lift in Hslots.
  destruct (parse_slots _ _ _ _ _ _ _) as [ps |]; [| discriminate].
  injection Hslots as -> <-.
  apply mbind_inv in H as (u & m2 & Hupd & H).
  unfold update_world in Hupd. injection Hupd as <- <-.
  apply mbind_inv in H as ([[flags bank_swizzle] cf] & m2 & Htrail & H).
  unfold lift in Htrail.
  destruct (parse_trailer _ _ _ _) as [pt |]; [| discriminate].
  injection Htrail as -> <-.
  apply mbind_inv in H as (dest & m2 & Hdest & H).
  assert (Hm2 : objs m2 = objs m /\ groups m2 = groups m1 /\
                shader_instrs m2 = shader_instrs m /\
                s_lds_map_by_name m2 = s_lds_map_by_name m /\
                s_alu_map_by_name m2 = s_alu_map_by_name m1).
  { destruct (bool_decide (deststr <> "(null)")).
    - unfold on_world in Hdest. cbn [world with_world] in Hdest.
      destruct (dest_from_string deststr w') as [dd w2].
      injection Hdest as <- <-. cbn. auto. 
    - unfold mret in Hdest. injection Hdest as <- <-. cbn. auto. }
  destruct Hm2 as (Ho2 & Hg2 & Hs2 & Hl2 & Ha2).
  apply mbind_inv in H as (retval & m3 & Hnew & H).
  assert (Hm3 : exists i0, retval = length (objs m) /\
                objs m3 = objs m ++ [i0] /\ groups m3 = groups m1 /\
                shader_instrs m3 = shader_instrs m /\
                s_lds_map_by_name m3 = s_lds_map_by_name m /\
                s_alu_map_by_name m3 = s_alu_map_by_name m1).
  { assert (Hctor : forall ctor,
              new_AluInstr ctor m2 = Done (retval, m3) ->
              exists i0, retval = length (objs m) /\
                objs m3 = objs m ++ [i0] /\ groups m3 = groups m1 /\
                shader_instrs m3 = shader_instrs m /\
                s_lds_map_by_name m3 = s_lds_map_by_name m /\
                s_alu_map_by_name m3 = s_alu_map_by_name m1).
    { intros ctor Hc. unfold new_AluInstr in Hc.
      destruct (ctor _ _) as [[i0 w3] |]; [| discriminate].
      injection Hc as <- <-. exists i0. cbn. rewrite Ho2. auto 10. }
    destruct is_lds; destruct (OpDescr_op op_descr);
      first [discriminate | eapply Hctor; exact Hnew]. }
  destruct Hm3 as (i0 & -> & Ho3 & Hg3 & Hs3 & Hl3 & Ha3).
  apply mbind_inv in H as (u1 & m4 & Hbs & H).
  apply modify_instr_inv in Hbs as (x1 & Hx1 & ->).
  apply mbind_inv in H as (u2 & m5 & Hcf & H).
  apply modify_instr_inv in Hcf as (x2 & Hx2 & ->).
  rewrite Ho3 in Hx1. rewrite list_lookup_middle in Hx1 by reflexivity.
  injection Hx1 as <-.
  cbn [objs with_objs] in Hx2. rewrite Ho3 in Hx2.
  rewrite insert_app_r_alt in Hx2 by lia. rewrite Nat.sub_diag in Hx2.
  cbn [insert list_insert] in Hx2.
  assert (Hx2' : x2 = set_bank_swizzle bank_swizzle i0).
  { rewrite list_lookup_middle in Hx2 by reflexivity. injection Hx2 as <-.
    reflexivity. }
  subst x2.
  set (mfin := with_objs _ (with_objs _ m3)) in H.
  assert (Hfin : objs mfin =
                 objs m ++ [set_cf_type cf (set_bank_swizzle bank_swizzle i0)] /\
                 shader_instrs mfin = shader_instrs m /\
                 s_lds_map_by_name mfin = s_lds_map_by_name m /\
                 s_alu_map_by_name mfin = s_alu_map_by_name m1).
  { subst mfin. cbn [objs with_objs shader_instrs s_lds_map_by_name s_alu_map_by_name].
    rewrite Ho3.
    rewrite insert_app_r_alt by lia. rewrite Nat.sub_diag. cbn [insert list_insert].
    rewrite insert_app_r_alt by lia. rewrite Nat.sub_diag. cbn [insert list_insert].
    auto. }
  destruct Hfin as (Hof & Hsf & Hlf & Haf).
  assert (Halu : forall mm, s_alu_map_by_name mm = s_alu_map_by_name m1 ->
            s_alu_map_by_name mm = s_alu_map_by_name m \/
            exists opstr0 d, s_alu_map_by_name mm = <[opstr0 := d]> (s_alu_map_by_name m)).
  { intros mm ->. destruct Ha1 as [-> | ->]; [left; reflexivity |].
    right. eexists _, _. reflexivity. }
  destruct group as [g |].
  - apply mbind_inv in H as (added & m6 & Hadd & H).
    unfold mret in H. injection H as <- <-.
    unfold add_instruction in Hadd.
    destruct (groups mfin !! g) as [grp |]; [| discriminate].
    destruct (objs mfin !! length (objs m)) as [instr |]; [| discriminate].
    destruct (group_accepts _ _ _); injection Hadd as <- <-;
      cbn [objs with_groups shader_instrs s_lds_map_by_name s_alu_map_by_name];
      (split; [eexists; exact Hof |]); (split; [reflexivity |]);
      (split; [exact Hsf |]); (split; [exact Hlf |]); apply Halu; exact Haf.
  - unfold mret in H. injection H as <- <-.
    split; [eexists; exact Hof |]. split; [reflexivity |].
    split; [exact Hsf |]. split; [exact Hlf |]. apply Halu; exact Haf.
Qed.

End Lexing.

Section LoweringMore.
Context `{V : Values} `{T : OpTables} `{R : !Readports} `{F : !Factory}.
Context `{VK : !ValueKinds} `{MO : !MoreOps} `{DF : !AluDestFactory}.

Ltac msimpl :=
  unfold with_world, with_objs, with_groups, with_alu_map, with_shader_instrs;
  simpl.

(** The component loop the lowerings share, over the body of one of
    them. *)
Fixpoint comp_loop (comp : Z -> option InstrPtr -> M (option InstrPtr))
    (n : nat) (i : Z) (ir : option InstrPtr) : M (option InstrPtr) :=
  match n with
  | O => mret ir
  | S n' =>
      let* ir' := comp i ir in
      comp_loop comp n' (i + 1) ir'
  end.

Lemma emit_alu_op1_loop_eq alu opcode flags pin n :
  forall i ir m,
    emit_alu_op1_loop alu opcode flags pin n i ir m =
    comp_loop (emit_alu_op1_comp alu opcode flags pin) n i ir m.
Proof.
  induction n as [| n IH]; intros i ir m; [reflexivity |].
  cbn [emit_alu_op1_loop comp_loop]. unfold mbind.
  destruct (emit_alu_op1_comp _ _ _ _ _ _ _) as [[ir' m'] |]; [apply IH | reflexivity].
Qed.

Lemma emit_alu_op2_loop_eq alu opcode src0 src1 src1_negate pin n :
  forall i ir m,
    emit_alu_op2_loop alu opcode src0 src1 src1_negate pin n i ir m =
    comp_loop (emit_alu_op2_comp alu opcode src0 src1 src1_negate pin) n i ir m.
Proof.
  induction n as [| n IH]; intros i ir m; [reflexivity |].
  cbn [emit_alu_op2_loop comp_loop]. unfold mbind.
  destruct (emit_alu_op2_comp _ _ _ _ _ _ _ _ _) as [[ir' m'] |];
    [apply IH | reflexivity].
Qed.

Lemma emit_alu_op3_loop_eq alu opcode src0 src1 src2 pin n :
  forall i ir m,
    emit_alu_op3_loop alu opcode src0 src1 src2 pin n i ir m =
    comp_loop (emit_alu_op3_comp alu opcode src0 src1 src2 pin) n i ir m.
Proof.
  induction n as [| n IH]; intros i ir m; [reflexivity |].
  cbn [emit_alu_op3_loop comp_loop]. unfold mbind.
  destruct (emit_alu_op3_comp _ _ _ _ _ _ _ _ _) as [[ir' m'] |];
    [apply IH | reflexivity].
Qed.

(** A body that builds one instruction for an enabled component and
    none for another. *)
Definition builds_one (alu : nir_alu_instr)
    (comp : Z -> option InstrPtr -> M (option InstrPtr))
    (P : AluInstr -> Prop) : Prop :=
  (forall i ir m,
     enabled_bit alu i = true ->
     exists m' x,
       comp i ir m = Done (Some (length (objs m)), m') /\
       objs m' = objs m ++ [x] /\
       shader_instrs m' = shader_instrs m ++ [length (objs m)] /\
       P x) /\
  (forall i ir m, enabled_bit alu i = false -> comp i ir m = Done (ir, m)).

Lemma comp_loop_spec alu comp P :
  builds_one alu comp P ->
  forall (n i0 : nat) (ir : option InstrPtr) (m : Machine),
  exists m' xs,
    comp_loop comp n (Z.of_nat i0) ir m =
      Done (match xs with
            | [] => ir
            | _ :: _ => Some (length (objs m) + length xs - 1)%nat
            end, m') /\
    objs m' = objs m ++ xs /\
    shader_instrs m' = shader_instrs m ++ seq (length (objs m)) (length xs) /\
    length xs = length (List.filter (enabled_bit alu) (map Z.of_nat (seq i0 n))) /\
    Forall P xs.
Proof.
  intros [Hon Hoff].
  induction n as [| n IH]; intros i0 ir m; cbn [comp_loop].
  - exists m, []. unfold mret. cbn. rewrite !app_nil_r.
    repeat split. constructor.
  - unfold mbind. cbn [seq map List.filter].
    destruct (enabled_bit alu (Z.of_nat i0)) eqn:Hbit.
    + destruct (Hon (Z.of_nat i0) ir m Hbit) as (m1 & x & Hcomp & Hobjs1 & Hsh1 & Hx).
      rewrite Hcomp.
      replace (Z.of_nat i0 + 1) with (Z.of_nat (S i0)) by lia.
      destruct (IH (S i0) (Some (length (objs m))) m1)
        as (m' & xs & Hloop & Hobjs & Hsh & Hlen & Hall).
      exists m', (x :: xs). rewrite Hloop.
      split.
      { f_equal. f_equal. destruct xs as [| y ys]; cbn [length].
        - f_equal. lia.
        - rewrite Hobjs1, length_app. cbn [length]. f_equal. lia. }
      split; [rewrite Hobjs, Hobjs1, <- app_assoc; reflexivity |].
      split.
      { rewrite Hsh, Hsh1, Hobjs1, length_app, <- app_assoc. cbn [length seq app].
        replace (length (objs m) + 1)%nat with (S (length (objs m))) by lia.
        reflexivity. }
      split; [cbn [length]; rewrite Hlen; reflexivity |].
      constructor; assumption.
    + rewrite (Hoff _ _ _ Hbit).
      replace (Z.of_nat i0 + 1) with (Z.of_nat (S i0)) by lia.
      destruct (IH (S i0) ir m) as (m' & xs & Hloop & Hobjs & Hsh & Hlen & Hall).
      exists m', xs. rewrite Hloop. repeat split; assumption.
Qed.

(** The end of a lowering: the last instruction built takes the
    last-instruction flag. *)
Definition mark_last (loop : M (option InstrPtr)) : M bool :=
  let* ir := loop in
  let* _ :=
    match ir with
    | Some p => modify_instr p (set_alu_flag alu_last_instr)
    | None => mret tt
    end in
  mret true.

(** What a lowering has emitted: instructions that were built as [P]
    says, the last of them with the last-instruction flag added. *)
Definition emitted (alu : nir_alu_instr) (P : AluInstr -> Prop)
    (m m' : Machine) : Prop :=
  exists xs,
    objs m' = objs m ++ xs /\
    shader_instrs m' = shader_instrs m ++ seq (length (objs m)) (length xs) /\
    length xs = length (enabled_components alu) /\
    forall (j : nat) x,
      xs !! j = Some x ->
      exists x0,
        P x0 /\
        x = if decide (S j = length xs) then set_alu_flag alu_last_instr x0 else x0.

Lemma mark_last_spec alu comp P (m : Machine) :
  builds_one alu comp P ->
  exists m',
    mark_last (comp_loop comp (Z.to_nat (num_components (dest (alu_dest alu)))) 0 None) m =
      Done (true, m') /\
    emitted alu P m m'.
Proof.
  intros Hb. unfold mark_last.
  destruct (comp_loop_spec alu comp P Hb
              (Z.to_nat (num_components (dest (alu_dest alu)))) 0%nat None m)
    as (m1 & xs & Hloop & Hobjs & Hsh & Hlen & Hall).
  unfold mbind at 1. change 0 with (Z.of_nat 0) at 1. rewrite Hloop.
  destruct xs as [| x0 xs0 _] using rev_ind.
  - unfold mbind, mret. exists m1. split; [reflexivity |].
    exists []. split; [exact Hobjs |]. split; [exact Hsh |]. split; [exact Hlen |].
    intros j x Hx. rewrite lookup_nil in Hx. discriminate.
  - assert (Hp : match xs0 ++ [x0] with
                 | [] => None
                 | _ :: _ => Some (length (objs m) + length (xs0 ++ [x0]) - 1)%nat
                 end = Some (length (objs m ++ xs0))).
    { rewrite !length_app. cbn [length]. destruct xs0; cbn [app]; f_equal; lia. }
    rewrite Hp. clear Hp.
    destruct m1 as [o1 g1 w1 am1 lm1 sh1]. cbn [objs shader_instrs] in Hobjs, Hsh.
    rewrite app_assoc in Hobjs. subst o1.
    unfold mbind at 1. rewrite modify_instr_last. unfold mret.
    eexists. split; [reflexivity |].
    exists (xs0 ++ [set_alu_flag alu_last_instr x0]). cbn [objs shader_instrs].
    split; [rewrite app_assoc; reflexivity |].
    split; [rewrite Hsh, !length_app; reflexivity |].
    split; [unfold enabled_components; rewrite <- Hlen, !length_app; reflexivity |].
    apply Forall_app in Hall as [Hall0 Hlast].
    rewrite Forall_singleton in Hlast.
    intros j x Hx. rewrite length_app. cbn [length].
    destruct (decide (j < length xs0)%nat) as [Hlt | Hge].
    + rewrite lookup_app_l in Hx by exact Hlt.
      rewrite Forall_lookup in Hall0.
      exists x. split; [eapply Hall0; exact Hx |].
      destruct (decide _); [lia | reflexivity].
    + rewrite lookup_app_r in Hx by lia.
      destruct (j - length xs0)%nat as [| j'] eqn:Hj; cbn in Hx; [| discriminate].
      injection Hx as <-.
      exists x0. split; [exact Hlast |].
      destruct (decide _); [reflexivity | lia].
Qed.

(** What the two-source body builds. *)
Definition op2_built (alu : nir_alu_instr) (opcode : EAluOp)
    (src0 src1 : nir_alu_src) (src1_negate : bool) (x : AluInstr) : Prop :=
  m_opcode x = opcode /\ m_alu_slots x = 1 /\ length (m_src x) = 2%nat /\
  forall f,
    f ∈ m_alu_flags x <->
    f = alu_write \/
    (f = alu_src0_neg /\ negate src0 = true) \/
    (f = alu_src0_abs /\ abs src0 = true) \/
    (f = alu_src1_neg /\ src1_negate = true) \/
    (f = alu_src1_abs /\ abs src1 = true) \/
    (f = alu_dst_clamp /\ saturate (alu_dest alu) = true).

Lemma emit_alu_op2_comp_builds alu opcode op src0 src1 src1_negate pin :
  alu_ops_at opcode = Done op ->
  nsrc op = 2 ->
  builds_one alu (emit_alu_op2_comp alu opcode src0 src1 src1_negate pin)
    (op2_built alu opcode src0 src1 src1_negate).
Proof.
  intros Hop Hn. split.
  2: { intros i ir m Hbit. unfold emit_alu_op2_comp. rewrite Hbit. reflexivity. }
  intros i ir m Hbit.
  destruct m as [o g w am lm sh].
  unfold emit_alu_op2_comp. rewrite Hbit.
  unfold mbind at 1, on_world at 1; msimpl.
  destruct (vf_dest _ _ _ _) as [d w1]. msimpl.
  unfold mbind at 1, on_world at 1; msimpl.
  destruct (vf_src src0 i w1) as [s0 w2]. msimpl.
  unfold mbind at 1, on_world at 1; msimpl.
  destruct (vf_src src1 i w2) as [s1 w3]. msimpl.
  destruct (AluInstr_ctor_done (length o) opcode (Some d) [s0; s1] {[ alu_write ]} 1
              w3 op Hop) as (x0 & w4 & Hctor);
    [simpl; lia | lia | intros _; eexists; reflexivity |].
  unfold mbind at 1, new_AluInstr at 1, AluInstr_ctor2; msimpl. rewrite Hctor.
  apply AluInstr_ctor_fields in Hctor as (Hopc & _ & Hsrc & Hslots & Hflags & _).
  cbn [length] in Hflags. rewrite decide_False in Hflags by lia.
  msimpl.
  unfold mbind at 1. rewrite cond_modify_last.
  unfold mbind at 1. rewrite cond_modify_last.
  unfold mbind at 1. rewrite cond_modify_last.
  unfold mbind at 1. rewrite cond_modify_last.
  unfold mbind at 1. rewrite cond_modify_last.
  unfold mbind, emit_instruction, mret. msimpl.
  eexists _, _. split; [reflexivity |]. cbn [objs shader_instrs].
  split; [reflexivity |]. split; [reflexivity |].
  unfold op2_built.
  destruct (negate src0), (abs src0), src1_negate, (abs src1),
    (saturate (alu_dest alu));
    cbn [set_alu_flag with_alu_flags m_opcode m_alu_slots m_src m_alu_flags];
    rewrite Hopc, Hslots, Hsrc, Hflags;
    (split; [reflexivity |]); (split; [reflexivity |]); (split; [reflexivity |]);
    intros f; rewrite ?elem_of_union, ?elem_of_singleton, elem_of_empty;
    intuition congruence.
Qed.

(** X21: what [emit_alu_op2] emits, for any opcode of two sources and any
    options: one instruction a component the write mask enables, each of
    that opcode, one slot and two sources, with the write flag; the option
    [op2_opt_reverse] swaps the two nir sources; the negate and abs flags of
    source 0, the abs flag of source 1 and the clamp flag follow the nir
    sources and the saturate bit; the negate flag of source 1 is set when
    the bits [opts & op2_opt_neg_src1] and the source's negate bit differ
    as integers; the last-instruction flag is on the last instruction
    only, and no other flag is set. *)
Theorem emit_alu_op2_flags (alu : nir_alu_instr) (opcode : EAluOp) (opts : Z)
    (a0 a1 : nir_alu_src) (op : AluOp) (m : Machine) :
  alu_src alu !! 0%nat = Some a0 ->
  alu_src alu !! 1%nat = Some a1 ->
  alu_ops_at opcode = Done op ->
  nsrc op = 2 ->
  let reverse := bool_decide (Z.land opts op2_opt_reverse <> 0) in
  let src0 := if reverse then a1 else a0 in
  let src1 := if reverse then a0 else a1 in
  exists m' xs,
    emit_alu_op2 alu opcode opts m = Done (true, m') /\
    objs m' = objs m ++ xs /\
    shader_instrs m' = shader_instrs m ++ seq (length (objs m)) (length xs) /\
    length xs = length (enabled_components alu) /\
    forall (j : nat) x,
      xs !! j = Some x ->
      m_opcode x = opcode /\ m_alu_slots x = 1 /\ length (m_src x) = 2%nat /\
      forall f,
        has_alu_flag x f = true <->
        f = alu_write \/
        (f = alu_src0_neg /\ negate src0 = true) \/
        (f = alu_src0_abs /\ abs src0 = true) \/
        (f = alu_src1_neg /\
         Z.land opts op2_opt_neg_src1 <> Z.b2z (negate src1)) \/
        (f = alu_src1_abs /\ abs src1 = true) \/
        (f = alu_dst_clamp /\ saturate (alu_dest alu) = true) \/
        (f = alu_last_instr /\ S j = length xs).
Proof.
  intros Ha0 Ha1 Hop Hn reverse src0 src1.
  unfold emit_alu_op2. rewrite Ha0, Ha1. fold reverse. fold src0. fold src1.
  set (src1_negate :=
         bool_decide (Z.lxor (Z.land opts op2_opt_neg_src1) (Z.b2z (negate src1)) <> 0)).
  assert (Hneg : src1_negate = true <->
                 Z.land opts op2_opt_neg_src1 <> Z.b2z (negate src1)).
  { subst src1_negate. rewrite bool_decide_eq_true. rewrite Z.lxor_eq_0_iff.
    reflexivity. }
  pose proof (emit_alu_op2_comp_builds alu opcode op src0 src1 src1_negate
                (pin_for_components alu) Hop Hn) as Hb.
  destruct (mark_last_spec alu _ _ m Hb) as (m' & Hrun & xs & Hobjs & Hsh & Hlen & Hxs).
  exists m', xs. split.
  { unfold mark_last in Hrun. rewrite <- Hrun. unfold mbind.
    rewrite emit_alu_op2_loop_eq. reflexivity. }
  split; [exact Hobjs |]. split; [exact Hsh |]. split; [exact Hlen |].
  intros j x Hx. destruct (Hxs j x Hx) as (x0 & (Hopc & Hslots & Hsrc & Hfl) & ->).
  assert (Hlastfree : alu_last_instr ∉ m_alu_flags x0).
  { rewrite Hfl. intuition discriminate. }
  destruct (decide (S j = length xs)) as [Hj | Hj].
  - cbn [set_alu_flag with_alu_flags m_opcode m_alu_slots m_src].
    split; [exact Hopc |]. split; [exact Hslots |]. split; [exact Hsrc |].
    intros f. unfold has_alu_flag. rewrite bool_decide_eq_true.
    cbn [set_alu_flag with_alu_flags m_alu_flags].
    rewrite elem_of_union, elem_of_singleton, Hfl, Hneg.
    intuition congruence.
  - split; [exact Hopc |]. split; [exact Hslots |]. split; [exact Hsrc |].
    intros f. unfold has_alu_flag. rewrite bool_decide_eq_true, Hfl, Hneg.
    split; [intuition congruence |].
    intros [-> | [H | [H | [H | [H | [H | [-> H]]]]]]]; try tauto.
Qed.

(** X22: what [emit_alu_op2_int] emits, for an opcode of two sources.
    When one of the two nir sources has the abs or the negate modifier it
    fails an assertion, whatever the write mask.  When none has, it
    answers true and has emitted one instruction a component the write
    mask enables, none of which carries an abs flag or the negate flag of
    source 0: each has the write flag; the negate flag of source 1 exactly
    when the options ask for it; the clamp flag when the destination
    saturates; the last-instruction flag on the last instruction only;
    and no other flag. *)
Theorem emit_alu_op2_int_flags (alu : nir_alu_instr) (opcode : EAluOp) (opts : Z)
    (a0 a1 : nir_alu_src) (op : AluOp) (m : Machine) :
  alu_src alu !! 0%nat = Some a0 ->
  alu_src alu !! 1%nat = Some a1 ->
  alu_ops_at opcode = Done op ->
  nsrc op = 2 ->
  (abs a0 || negate a0 || abs a1 || negate a1 = true ->
   exists msg, emit_alu_op2_int alu opcode opts m = Fault (AssertFailed msg)) /\
  (abs a0 || negate a0 || abs a1 || negate a1 = false ->
   exists m' xs,
     emit_alu_op2_int alu opcode opts m = Done (true, m') /\
     objs m' = objs m ++ xs /\
     shader_instrs m' = shader_instrs m ++ seq (length (objs m)) (length xs) /\
     length xs = length (enabled_components alu) /\
     forall (j : nat) x,
       xs !! j = Some x ->
       m_opcode x = opcode /\ m_alu_slots x = 1 /\ length (m_src x) = 2%nat /\
       forall f,
         has_alu_flag x f = true <->
         f = alu_write \/
         (f = alu_src1_neg /\ Z.land opts op2_opt_neg_src1 <> 0) \/
         (f = alu_dst_clamp /\ saturate (alu_dest alu) = true) \/
         (f = alu_last_instr /\ S j = length xs)).
Proof.
  intros Ha0 Ha1 Hop Hn. split.
  { unfold emit_alu_op2_int. rewrite Ha0, Ha1.
    destruct (abs a0), (negate a0), (abs a1), (negate a1); cbn [orb];
      intros H; try discriminate H; eexists; reflexivity. }
  intros Hnone.
  apply orb_false_iff in Hnone as [Hnone Hn1].
  apply orb_false_iff in Hnone as [Hnone Hb1].
  apply orb_false_iff in Hnone as [Hb0 Hn0].
  unfold emit_alu_op2_int. rewrite Ha0, Ha1, Hb0, Hn0, Hb1, Hn1.
  unfold emit_alu_op2. rewrite Ha0, Ha1.
  set (reverse := bool_decide (Z.land opts op2_opt_reverse <> 0)).
  set (src0 := if reverse then a1 else a0).
  set (src1 := if reverse then a0 else a1).
  assert (Hmods : negate src0 = false /\ abs src0 = false /\
                  negate src1 = false /\ abs src1 = false).
  { subst src0 src1. destruct reverse; auto. }
  destruct Hmods as (Hns0 & Has0 & Hns1 & Has1).
  set (src1_negate :=
         bool_decide (Z.lxor (Z.land opts op2_opt_neg_src1) (Z.b2z (negate src1)) <> 0)).
  assert (Hneg : src1_negate = true <-> Z.land opts op2_opt_neg_src1 <> 0).
  { subst src1_negate. rewrite bool_decide_eq_true, Z.lxor_eq_0_iff, Hns1.
    reflexivity. }
  pose proof (emit_alu_op2_comp_builds alu opcode op src0 src1 src1_negate
                (pin_for_components alu) Hop Hn) as Hb.
  destruct (mark_last_spec alu _ _ m Hb) as (m' & Hrun & xs & Hobjs & Hsh & Hlen & Hxs).
  exists m', xs. split.
  { unfold mark_last in Hrun. rewrite <- Hrun. unfold mbind.
    rewrite emit_alu_op2_loop_eq. reflexivity. }
  split; [exact Hobjs |]. split; [exact Hsh |]. split; [exact Hlen |].
  intros j x Hx. destruct (Hxs j x Hx) as (x0 & (Hopc & Hslots & Hsrc & Hfl) & ->).
  rewrite Hns0, Has0, Has1 in Hfl.
  destruct (decide (S j = length xs)) as [Hj | Hj].
  - cbn [set_alu_flag with_alu_flags m_opcode m_alu_slots m_src].
    split; [exact Hopc |]. split; [exact Hslots |]. split; [exact Hsrc |].
    intros f. unfold has_alu_flag. rewrite bool_decide_eq_true.
    cbn [set_alu_flag with_alu_flags m_alu_flags].
    rewrite elem_of_union, elem_of_singleton, Hfl, Hneg.
    intuition congruence.
  - split; [exact Hopc |]. split; [exact Hslots |]. split; [exact Hsrc |].
    intros f. unfold has_alu_flag. rewrite bool_decide_eq_true, Hfl, Hneg.
    split; [intuition congruence |].
    intros [-> | [H | [H | [-> H]]]]; try tauto.
Qed.

(** What the one-source body builds. *)
Definition op1_built (alu : nir_alu_instr) (opcode : EAluOp)
    (flags : AluOpFlags) (src0 : nir_alu_src) (x : AluInstr) : Prop :=
  m_opcode x = opcode /\ m_alu_slots x = 1 /\ length (m_src x) = 1%nat /\
  forall f,
    f ∈ m_alu_flags x <->
    f = alu_write \/
    (f = alu_src0_abs /\ (alu_src0_abs ∈ flags \/ abs src0 = true)) \/
    (f = alu_src0_neg /\ negate src0 <> bool_decide (alu_src0_neg ∈ flags)) \/
    (f = alu_dst_clamp /\ (alu_dst_clamp ∈ flags \/ saturate (alu_dest alu) = true)).

Lemma emit_alu_op1_comp_builds alu opcode op flags src0 pin :
  alu_src alu !! 0%nat = Some src0 ->
  alu_ops_at opcode = Done op ->
  nsrc op = 1 ->
  builds_one alu (emit_alu_op1_comp alu opcode flags pin)
    (op1_built alu opcode flags src0).
Proof.
  intros Ha0 Hop Hn. split.
  2: { intros i ir m Hbit. unfold emit_alu_op1_comp. rewrite Hbit. reflexivity. }
  intros i ir m Hbit.
  destruct m as [o g w am lm sh].
  unfold emit_alu_op1_comp. rewrite Hbit, Ha0.
  unfold mbind at 1, on_world at 1; msimpl.
  destruct (vf_dest_alu _ _ _ _) as [d w1]. msimpl.
  unfold mbind at 1, on_world at 1; msimpl.
  destruct (vf_src src0 i w1) as [s0 w2]. msimpl.
  destruct (AluInstr_ctor_done (length o) opcode (Some d) [s0] {[ alu_write ]} 1
              w2 op Hop) as (x0 & w3 & Hctor);
    [simpl; lia | lia | intros _; eexists; reflexivity |].
  unfold mbind at 1, new_AluInstr at 1, AluInstr_ctor1; msimpl. rewrite Hctor.
  apply AluInstr_ctor_fields in Hctor as (Hopc & _ & Hsrc & Hslots & Hflags & _).
  cbn [length] in Hflags. rewrite decide_False in Hflags by lia.
  msimpl.
  unfold mbind at 1. rewrite cond_modify_last.
  unfold mbind at 1. rewrite cond_modify_last.
  unfold mbind at 1. rewrite cond_modify_last.
  unfold mbind, emit_instruction, mret. msimpl.
  eexists _, _. split; [reflexivity |]. cbn [objs shader_instrs].
  split; [reflexivity |]. split; [reflexivity |].
  unfold op1_built.
  destruct (bool_decide (alu_src0_abs ∈ flags)) eqn:Hfa;
    [apply bool_decide_eq_true in Hfa | apply bool_decide_eq_false in Hfa];
  (destruct (bool_decide (alu_src0_neg ∈ flags)) eqn:Hfn);
  (destruct (bool_decide (alu_dst_clamp ∈ flags)) eqn:Hfc;
    [apply bool_decide_eq_true in Hfc | apply bool_decide_eq_false in Hfc]);
  destruct (negate src0), (abs src0), (saturate (alu_dest alu));
    cbn [orb xorb set_alu_flag with_alu_flags m_opcode m_alu_slots m_src m_alu_flags];
    rewrite Hopc, Hslots, Hsrc, Hflags;
    (split; [reflexivity |]); (split; [reflexivity |]); (split; [reflexivity |]);
    intros f; rewrite ?elem_of_union, ?elem_of_singleton, elem_of_empty;
    intuition congruence.
Qed.

(** X23: what [emit_alu_op1] emits, for an opcode of one source and any
    flags handed in: one instruction a component the write mask enables,
    of that opcode, one slot and one source, with the write flag; the abs
    flag of source 0 when it is handed in or the nir source has it; the
    negate flag exactly when one of the two, the flag handed in and the
    nir source's bit, is set and the other is not; the clamp flag when it
    is handed in or the destination saturates; the last-instruction flag
    on the last instruction only; and no other flag. *)
Theorem emit_alu_op1_flags (alu : nir_alu_instr) (opcode : EAluOp)
    (flags : AluOpFlags) (src0 : nir_alu_src) (op : AluOp) (m : Machine) :
  alu_src alu !! 0%nat = Some src0 ->
  alu_ops_at opcode = Done op ->
  nsrc op = 1 ->
  exists m' xs,
    emit_alu_op1 alu opcode flags m = Done (true, m') /\
    objs m' = objs m ++ xs /\
    shader_instrs m' = shader_instrs m ++ seq (length (objs m)) (length xs) /\
    length xs = length (enabled_components alu) /\
    forall (j : nat) x,
      xs !! j = Some x ->
      m_opcode x = opcode /\ m_alu_slots x = 1 /\ length (m_src x) = 1%nat /\
      forall f,
        has_alu_flag x f = true <->
        f = alu_write \/
        (f = alu_src0_abs /\ (alu_src0_abs ∈ flags \/ abs src0 = true)) \/
        (f = alu_src0_neg /\ negate src0 <> bool_decide (alu_src0_neg ∈ flags)) \/
        (f = alu_dst_clamp /\
         (alu_dst_clamp ∈ flags \/ saturate (alu_dest alu) = true)) \/
        (f = alu_last_instr /\ S j = length xs).
Proof.
  intros Ha0 Hop Hn.
  pose proof (emit_alu_op1_comp_builds alu opcode op flags src0
                (pin_for_components alu) Ha0 Hop Hn) as Hb.
  destruct (mark_last_spec alu _ _ m Hb) as (m' & Hrun & xs & Hobjs & Hsh & Hlen & Hxs).
  exists m', xs. split.
  { unfold mark_last in Hrun. rewrite <- Hrun. unfold emit_alu_op1, mbind.
    rewrite emit_alu_op1_loop_eq. reflexivity. }
  split; [exact Hobjs |]. split; [exact Hsh |]. split; [exact Hlen |].
  intros j x Hx. destruct (Hxs j x Hx) as (x0 & (Hopc & Hslots & Hsrc & Hfl) & ->).
  destruct (decide (S j = length xs)) as [Hj | Hj].
  - cbn [set_alu_flag with_alu_flags m_opcode m_alu_slots m_src].
    split; [exact Hopc |]. split; [exact Hslots |]. split; [exact Hsrc |].
    intros f. unfold has_alu_flag. rewrite bool_decide_eq_true.
    cbn [set_alu_flag with_alu_flags m_alu_flags].
    rewrite elem_of_union, elem_of_singleton, Hfl.
    intuition congruence.
  - split; [exact Hopc |]. split; [exact Hslots |]. split; [exact Hsrc |].
    intros f. unfold has_alu_flag. rewrite bool_decide_eq_true, Hfl.
    split; [intuition congruence |].
    intros [-> | [H | [H | [H | [-> H]]]]]; try tauto.
Qed.

(** What the three-source body builds. *)
Definition op3_built (alu : nir_alu_instr) (opcode : EAluOp)
    (src0 src1 src2 : nir_alu_src) (x : AluInstr) : Prop :=
  m_opcode x = opcode /\ m_alu_slots x = 1 /\ length (m_src x) = 3%nat /\
  forall f,
    f ∈ m_alu_flags x <->
    f = alu_write \/ f = alu_op3 \/
    (f = alu_src0_neg /\ negate src0 = true) \/
    (f = alu_src1_neg /\ negate src1 = true) \/
    (f = alu_src2_neg /\ negate src2 = true) \/
    (f = alu_dst_clamp /\ saturate (alu_dest alu) = true).

Lemma emit_alu_op3_comp_builds alu opcode op src0 src1 src2 pin :
  alu_ops_at opcode = Done op ->
  nsrc op = 3 ->
  abs src0 = false -> abs src1 = false -> abs src2 = false ->
  builds_one alu (emit_alu_op3_comp alu opcode src0 src1 src2 pin)
    (op3_built alu opcode src0 src1 src2).
Proof.
  intros Hop Hn Habs0 Habs1 Habs2. split.
  2: { intros i ir m Hbit. unfold emit_alu_op3_comp. rewrite Hbit. reflexivity. }
  intros i ir m Hbit.
  destruct m as [o g w am lm sh].
  unfold emit_alu_op3_comp. rewrite Hbit, Habs0, Habs1, Habs2.
  unfold mbind at 1, on_world at 1; msimpl.
  destruct (vf_dest _ _ _ _) as [d w1]. msimpl.
  unfold mbind at 1, on_world at 1; msimpl.
  destruct (vf_src src0 i w1) as [s0 w2]. msimpl.
  unfold mbind at 1, on_world at 1; msimpl.
  destruct (vf_src src1 i w2) as [s1 w3]. msimpl.
  unfold mbind at 1, on_world at 1; msimpl.
  destruct (vf_src src2 i w3) as [s2 w4]. msimpl.
  destruct (AluInstr_ctor_done (length o) opcode (Some d) [s0; s1; s2] {[ alu_write ]} 1
              w4 op Hop) as (x0 & w5 & Hctor);
    [simpl; lia | lia | intros _; eexists; reflexivity |].
  unfold mbind at 1, new_AluInstr at 1, AluInstr_ctor3; msimpl. rewrite Hctor.
  apply AluInstr_ctor_fields in Hctor as (Hopc & _ & Hsrc & Hslots & Hflags & _).
  cbn [length] in Hflags. rewrite decide_True in Hflags by reflexivity.
  msimpl.
  unfold mbind at 1. rewrite cond_modify_last.
  unfold mbind at 1. rewrite cond_modify_last.
  unfold mbind at 1. rewrite cond_modify_last.
  unfold mbind at 1. rewrite cond_modify_last.
  unfold mbind at 1. rewrite modify_instr_last.
  unfold mbind, emit_instruction, mret. msimpl.
  eexists _, _. split; [reflexivity |]. cbn [objs shader_instrs].
  split; [reflexivity |]. split; [reflexivity |].
  unfold op3_built.
  destruct (negate src0), (negate src1), (negate src2), (saturate (alu_dest alu));
    cbn [set_alu_flag with_alu_flags m_opcode m_alu_slots m_src m_alu_flags];
    rewrite Hopc, Hslots, Hsrc, Hflags;
    (split; [reflexivity |]); (split; [reflexivity |]); (split; [reflexivity |]);
    intros f; rewrite ?elem_of_union, ?elem_of_singleton;
    intuition congruence.
Qed.

(** X24: what [emit_alu_op3] emits when none of the three nir sources it
    is pointed at by [src_shuffle] has the abs modifier: one instruction a
    component the write mask enables, of the opcode, one slot and three
    sources, with the write flag and the three-operand flag; the negate
    flag of source [k] follows nir source [src_shuffle[k]]; the clamp flag
    follows the saturate bit; the last-instruction flag is on the last
    instruction only; and no other flag is set. *)
Theorem emit_alu_op3_flags (alu : nir_alu_instr) (opcode : EAluOp)
    (k0 k1 k2 : Z) (src0 src1 src2 : nir_alu_src) (op : AluOp) (m : Machine) :
  shuffled_src alu k0 = Some src0 ->
  shuffled_src alu k1 = Some src1 ->
  shuffled_src alu k2 = Some src2 ->
  alu_ops_at opcode = Done op ->
  nsrc op = 3 ->
  abs src0 = false -> abs src1 = false -> abs src2 = false ->
  exists m' xs,
    emit_alu_op3 alu opcode (k0, k1, k2) m = Done (true, m') /\
    objs m' = objs m ++ xs /\
    shader_instrs m' = shader_instrs m ++ seq (length (objs m)) (length xs) /\
    length xs = length (enabled_components alu) /\
    forall (j : nat) x,
      xs !! j = Some x ->
      m_opcode x = opcode /\ m_alu_slots x = 1 /\ length (m_src x) = 3%nat /\
      forall f,
        has_alu_flag x f = true <->
        f = alu_write \/ f = alu_op3 \/
        (f = alu_src0_neg /\ negate src0 = true) \/
        (f = alu_src1_neg /\ negate src1 = true) \/
        (f = alu_src2_neg /\ negate src2 = true) \/
        (f = alu_dst_clamp /\ saturate (alu_dest alu) = true) \/
        (f = alu_last_instr /\ S j = length xs).
Proof.
  intros Hs0 Hs1 Hs2 Hop Hn Habs0 Habs1 Habs2.
  pose proof (emit_alu_op3_comp_builds alu opcode op src0 src1 src2
                (pin_for_components alu) Hop Hn Habs0 Habs1 Habs2) as Hb.
  destruct (mark_last_spec alu _ _ m Hb) as (m' & Hrun & xs & Hobjs & Hsh & Hlen & Hxs).
  exists m', xs. split.
  { unfold mark_last in Hrun. rewrite <- Hrun.
    unfold emit_alu_op3. rewrite Hs0, Hs1, Hs2. unfold mbind.
    rewrite emit_alu_op3_loop_eq. reflexivity. }
  split; [exact Hobjs |]. split; [exact Hsh |]. split; [exact Hlen |].
  intros j x Hx. destruct (Hxs j x Hx) as (x0 & (Hopc & Hslots & Hsrc & Hfl) & ->).
  destruct (decide (S j = length xs)) as [Hj | Hj].
  - cbn [set_alu_flag with_alu_flags m_opcode m_alu_slots m_src].
    split; [exact Hopc |]. split; [exact Hslots |]. split; [exact Hsrc |].
    intros f. unfold has_alu_flag. rewrite bool_decide_eq_true.
    cbn [set_alu_flag with_alu_flags m_alu_flags].
    rewrite elem_of_union, elem_of_singleton, Hfl.
    intuition congruence.
  - split; [exact Hopc |]. split; [exact Hslots |]. split; [exact Hsrc |].
    intros f. unfold has_alu_flag. rewrite bool_decide_eq_true, Hfl.
    split; [intuition congruence |].
    intros [-> | [-> | [H | [H | [H | [H | [-> H]]]]]]]; try tauto.
Qed.

Lemma comp_loop_faults alu comp :
  (forall i ir m,
     enabled_bit alu i = true ->
     exists msg, comp i ir m = Fault (AssertFailed msg)) ->
  (forall i ir m, enabled_bit alu i = false -> comp i ir m = Done (ir, m)) ->
  forall (n i0 : nat) (ir : option InstrPtr) (m : Machine),
    List.filter (enabled_bit alu) (map Z.of_nat (seq i0 n)) <> [] ->
    exists msg, comp_loop comp n (Z.of_nat i0) ir m = Fault (AssertFailed msg).
Proof.
  intros Hon Hoff. induction n as [| n IH]; intros i0 ir m Hne.
  - contradiction.
  - cbn [comp_loop]. unfold mbind. cbn [seq map List.filter] in Hne.
    destruct (enabled_bit alu (Z.of_nat i0)) eqn:Hbit.
    + destruct (Hon _ ir m Hbit) as (msg & ->). exists msg. reflexivity.
    + rewrite (Hoff _ _ _ Hbit).
      replace (Z.of_nat i0 + 1) with (Z.of_nat (S i0)) by lia.
      apply IH. exact Hne.
Qed.

(** X25: [emit_alu_op3] fails an assertion when one of the three nir
    sources has the abs modifier and the write mask enables a component;
    with no component enabled nothing is built and it answers true. *)
Theorem emit_alu_op3_abs_asserts (alu : nir_alu_instr) (opcode : EAluOp)
    (k0 k1 k2 : Z) (src0 src1 src2 : nir_alu_src) (op : AluOp) (m : Machine) :
  shuffled_src alu k0 = Some src0 ->
  shuffled_src alu k1 = Some src1 ->
  shuffled_src alu k2 = Some src2 ->
  alu_ops_at opcode = Done op ->
  nsrc op = 3 ->
  abs src0 || abs src1 || abs src2 = true ->
  (enabled_components alu <> [] ->
   exists msg, emit_alu_op3 alu opcode (k0, k1, k2) m = Fault (AssertFailed msg)) /\
  (enabled_components alu = [] ->
   emit_alu_op3 alu opcode (k0, k1, k2) m = Done (true, m)).
Proof.
  intros Hs0 Hs1 Hs2 Hop Hn Habs.
  assert (Hoff : forall i ir m0,
            enabled_bit alu i = false ->
            emit_alu_op3_comp alu opcode src0 src1 src2 (pin_for_components alu)
              i ir m0 = Done (ir, m0)).
  { intros i ir m0 Hbit. unfold emit_alu_op3_comp. rewrite Hbit. reflexivity. }
  unfold emit_alu_op3. rewrite Hs0, Hs1, Hs2. split.
  - intros Hne.
    destruct (comp_loop_faults alu
                (emit_alu_op3_comp alu opcode src0 src1 src2 (pin_for_components alu)))
      with (n := Z.to_nat (num_components (dest (alu_dest alu)))) (i0 := 0%nat)
           (ir := @None nat) (m := m) as (msg & Hrun); [| exact Hoff | exact Hne |].
    + intros i ir m0 Hbit.
      destruct m0 as [o g w am lm sh].
      unfold emit_alu_op3_comp. rewrite Hbit.
      unfold mbind at 1, on_world at 1; msimpl.
      destruct (vf_dest _ _ _ _) as [d w1]. msimpl.
      unfold mbind at 1, on_world at 1; msimpl.
      destruct (vf_src src0 i w1) as [s0 w2]. msimpl.
      unfold mbind at 1, on_world at 1; msimpl.
      destruct (vf_src src1 i w2) as [s1 w3]. msimpl.
      unfold mbind at 1, on_world at 1; msimpl.
      destruct (vf_src src2 i w3) as [s2 w4]. msimpl.
      destruct (AluInstr_ctor_done (length o) opcode (Some d) [s0; s1; s2]
                  {[ alu_write ]} 1 w4 op Hop) as (x0 & w5 & Hctor);
        [simpl; lia | lia | intros _; eexists; reflexivity |].
      unfold mbind at 1, new_AluInstr at 1, AluInstr_ctor3; msimpl. rewrite Hctor.
      msimpl.
      unfold mbind at 1. rewrite cond_modify_last.
      unfold mbind at 1. rewrite cond_modify_last.
      unfold mbind at 1. rewrite cond_modify_last.
      unfold mfault.
      destruct (abs src0); [eexists; reflexivity |].
      destruct (abs src1); [eexists; reflexivity |].
      destruct (abs src2); [eexists; reflexivity | discriminate].
    + exists msg. unfold mbind at 1. rewrite emit_alu_op3_loop_eq.
      change 0 with (Z.of_nat 0) at 1. rewrite Hrun. reflexivity.
  - intros Hnone. unfold mbind at 1. rewrite emit_alu_op3_loop_eq.
    assert (Hloop : forall n i0 ir m0,
              List.filter (enabled_bit alu) (map Z.of_nat (seq i0 n)) = [] ->
              comp_loop
                (emit_alu_op3_comp alu opcode src0 src1 src2 (pin_for_components alu))
                n (Z.of_nat i0) ir m0 = Done (ir, m0)).
    { induction n as [| n IH]; intros i0 ir m0 Hf; [reflexivity |].
      cbn [comp_loop]. unfold mbind. cbn [seq map List.filter] in Hf.
      destruct (enabled_bit alu (Z.of_nat i0)) eqn:Hbit; [discriminate |].
      rewrite (Hoff _ _ _ Hbit).
      replace (Z.of_nat i0 + 1) with (Z.of_nat (S i0)) by lia.
      apply IH. exact Hf. }
    change 0 with (Z.of_nat 0) at 1. rewrite (Hloop _ _ _ _ Hnone). reflexivity.
Qed.

End LoweringMore.

(** * The model at work on the arena instance *)

Section Examples.
Import Arena.

Lemma arena_max_size (n : nat) :
  (n <= 64)%nat -> Z.of_nat n <= SrcValues_max_size.
Proof.
  intros Hn. transitivity 64; [lia |]. vm_compute. discriminate.
Defined.

(** ADD over one source instead of two is refused by the constructor. *)
Lemma ctor_checks_source_count_witness :
  AluInstr_ctor 0%nat ADD (Some (Reg 0 0 false)) [Reg 1 0 false] {[ alu_write ]} 1
    empty_state = Fault (Thrown "Unexpected number of source values").
Proof.
  apply (proj1 (ctor_checks_source_count (V := values) (T := tables) 0%nat ADD (Some (Reg 0 0 false))
                  [Reg 1 0 false] {[ alu_write ]} 1 empty_state (mkAluOp 2 "ADD")
                  eq_refl (arena_max_size 1 ltac:(lia)) ltac:(simpl; lia))).
  simpl. lia.
Defined.

(** [MOV S0.x@chan : S1.x {W}]: a channel pinned destination and an
    unpinned source. *)
Definition mov_dest : Value := Reg 0 0 true.
Definition mov_src : Value := Reg 1 0 true.
Definition mov_state : State := with_pin mov_dest pin_chan empty_state.
Definition mov_instr : AluInstr :=
  mkAluInstr _ _ MOV DS_INVALID (Some mov_dest) [mov_src] {[ alu_write ]}
    alu_vec_unknown cf_alu 1 0 [] None.

Lemma can_propagate_src_spec_witness :
  exists b, can_propagate_src mov_state mov_instr = Done b /\
            (b = true <-> propagate_src_legal mov_state mov_dest mov_src).
Proof.
  apply (proj2 (can_propagate_src_spec (V := values) (T := tables) mov_state mov_instr mov_src eq_refl eq_refl)
           mov_src mov_dest eq_refl eq_refl).
Defined.

Lemma can_propagate_dest_spec_witness :
  exists b, can_propagate_dest mov_state mov_instr = Done b /\
            (b = true <-> propagate_dest_legal mov_state mov_dest mov_src).
Proof.
  apply (proj2 (can_propagate_dest_spec (V := values) (T := tables) mov_state mov_instr mov_src eq_refl eq_refl)
           mov_src mov_dest eq_refl eq_refl).
Defined.

(** An instruction waiting for instruction 7, and a bare NOP. *)
Definition waiting_state : State :=
  mkState ∅ ∅ ∅ [] ∅ {[ 0%nat := [7%nat] ]} [].

Definition nop_instr : AluInstr :=
  mkAluInstr _ _ NOP DS_INVALID None [] ∅ alu_vec_unknown cf_alu 1 0 [] None.

Lemma do_ready_required_and_base_witness :
  do_ready waiting_state 0%nat mov_instr = false /\
  do_ready empty_state 0%nat nop_instr = true.
Proof.
  split.
  - apply (proj1 (do_ready_required_and_base (V := values) (T := tables) waiting_state 0%nat mov_instr)).
    exists 7%nat. split; [| reflexivity].
    change (@required_instr values waiting_state 0%nat) with [7%nat].
    apply list_elem_of_here.
  - apply (proj2 (do_ready_required_and_base (V := values) (T := tables) empty_state 0%nat nop_instr));
      reflexivity.
Defined.

(** [ADD R0.x : R1.x R2.x {W}]: replacing R5.x, which is no source of it,
    is answered with false. *)
Definition add_instr : AluInstr :=
  mkAluInstr _ _ ADD DS_INVALID (Some (Reg 0 0 false))
    [Reg 1 0 false; Reg 2 0 false] {[ alu_write ]}
    alu_vec_unknown cf_alu 1 0 [] None.

Lemma replace_source_false_keeps_sources_witness :
  exists i', objs (machine_with add_instr empty_state) !! 0%nat = Some i' /\
             m_src i' = m_src add_instr.
Proof.
  apply (replace_source_false_keeps_sources (R := readports) 0%nat (Reg 5 0 false) (Reg 6 0 false)
           (machine_with add_instr empty_state)
           (machine_with add_instr empty_state) add_instr eq_refl).
  reflexivity.
Defined.

Lemma split_four_slots_witness :
  exists g m' x0 x1 x2 x3,
    split 0%nat (machine_with dot4_instr empty_state) = Done (Some g, m') /\
    group_members m' g = [x0; x1; x2; x3] /\
    (forall (s : nat) x,
       [x0; x1; x2; x3] !! s = Some x ->
       m_alu_slots x = 1 /\
       m_src x = take 2 (drop (s * 2) dot4_srcs) /\
       (has_alu_flag x alu_write = true <-> Z.of_nat s = 1)) /\
    m_src x0 ++ m_src x1 ++ m_src x2 ++ m_src x3 = dot4_srcs /\
    length (List.filter (fun x => has_alu_flag x alu_write) [x0; x1; x2; x3]) = 1%nat.
Proof.
  apply (split_four_slots (F := factory) 0%nat (machine_with dot4_instr empty_state) dot4_instr
           dot4_dest (mkAluOp 2 "DOT4") eq_refl eq_refl eq_refl
           ltac:(simpl; lia) eq_refl ltac:(simpl; lia) eq_refl
           (arena_max_size 8 ltac:(lia)) eq_refl).
Defined.

(** C4, counterexample: the four-slot instruction carries the
    last-instruction flag and writes channel y, and after [split] none of
    the four instructions carries the flag, the one of slot 1 included;
    the write flag is the one that went to slot 1. *)
Lemma split_last_flag_counterexample :
  has_alu_flag dot4_instr alu_last_instr = true /\
  m_alu_slots dot4_instr = 4 /\
  chan dot4_dest = 1 /\
  split_report alu_last_instr (machine_with dot4_instr empty_state) =
    Done [false; false; false; false] /\
  split_report alu_write (machine_with dot4_instr empty_state) =
    Done [false; true; false; false].
Proof. repeat split; reflexivity. Qed.

Lemma split_sets_no_last_flag_witness :
  exists g m',
    split 0%nat (machine_with dot4_instr empty_state) = Done (Some g, m') /\
    length (group_members m' g) = 4%nat /\
    (forall (s : nat) x,
       group_members m' g !! s = Some x ->
       has_alu_flag x alu_last_instr = false /\
       (has_alu_flag x alu_write = true <-> Z.of_nat s = 1)).
Proof.
  apply (split_sets_no_last_flag (F := factory) 0%nat (machine_with dot4_instr empty_state)
           dot4_instr dot4_dest (mkAluOp 2 "DOT4") 4 eq_refl eq_refl eq_refl
           ltac:(lia) eq_refl eq_refl ltac:(simpl; lia) eq_refl
           (arena_max_size 8 ltac:(lia)) eq_refl).
Defined.

(** [fadd] of a four-component value, components x, y and w written, the
    second source negated and taken absolute. *)
Definition fadd_alu : nir_alu_instr :=
  mk_nir_alu_instr (mk_nir_alu_dest (mk_nir_dest true 4) 11 false)
    [mk_nir_alu_src 2 false false; mk_nir_alu_src 3 true true].

Lemma emit_alu_op2_fadd_neg_abs_witness :
  exists m' xs,
    from_nir_fadd fadd_alu (machine_of empty_state) = Done (true, m') /\
    objs m' = objs (machine_of empty_state) ++ xs /\
    shader_instrs m' =
      shader_instrs (machine_of empty_state) ++
      seq (length (objs (machine_of empty_state))) (length xs) /\
    length xs = length (enabled_components fadd_alu) /\
    forall (j : nat) x,
      xs !! j = Some x ->
      has_alu_flag x alu_src1_neg = true /\
      has_alu_flag x alu_src1_abs = true /\
      has_alu_flag x alu_write = true /\
      (has_alu_flag x alu_last_instr = true <-> S j = length xs).
Proof.
  apply (emit_alu_op2_fadd_neg_abs (V := values) (T := tables) (R := readports)
           (F := factory) fadd_alu
           (mk_nir_alu_src 2 false false) (mk_nir_alu_src 3 true true)
           (mkAluOp 2 "ADD") (machine_of empty_state)
           eq_refl eq_refl eq_refl eq_refl eq_refl eq_refl eq_refl eq_refl).
Defined.

(** [ADD R0.x : R1.x -R2.x {W}] in a world whose factory knows the three
    registers by name. *)
Definition sub_dest : Value := Reg 0 0 false.
Definition sub_src0 : Value := Reg 1 0 false.
Definition sub_src1 : Value := Reg 2 0 false.
Definition sub_state : State := state_knowing [sub_dest; sub_src0; sub_src1].
Definition sub_instr : AluInstr :=
  mkAluInstr _ _ ADD DS_INVALID (Some sub_dest) [sub_src0; sub_src1]
    {[ alu_write; alu_src1_neg ]} alu_vec_unknown cf_alu 1 0 [] None.

(** [LDS READ_RET __.x : R1.x {}], as the address constructor builds it. *)
Definition lds_read_instr : AluInstr :=
  AluInstr_lds_default DS_READ_RET [sub_src0] {[ alu_is_lds ]}.

(** The factory of the arena reads a name by the pins and the values
    known; a world with the same pins and values reads names the same. *)
Definition same_names (a b : State) : Prop :=
  pins b = pins a /\ known b = known a.

Lemma same_names_refl (a : State) : same_names a a.
Proof. split; reflexivity. Defined.

Lemma same_names_trans (a b c : State) :
  same_names a b -> same_names b c -> same_names a c.
Proof. intros [H1 H2] [H3 H4]. split; congruence. Defined.

Lemma sub_state_reads (w1 : State) (v : Value) :
  same_names sub_state w1 ->
  v ∈ [sub_dest; sub_src0; sub_src1] ->
  find_by_text w1 (value_text sub_state v) = Some v.
Proof.
  intros [Hp Hk] Hv. destruct w1 as [p u pl sc po rq kn].
  cbn [pins known] in Hp, Hk. subst p kn.
  apply elem_of_cons in Hv as [-> | Hv]; [reflexivity |].
  apply elem_of_cons in Hv as [-> | Hv]; [reflexivity |].
  apply elem_of_cons in Hv as [-> | Hv]; [reflexivity |].
  apply elem_of_nil in Hv. contradiction.
Defined.

Lemma sub_state_tokens (v : Value) :
  v ∈ [sub_dest; sub_src0; sub_src1] ->
  is_value_token (value_text sub_state v) = true.
Proof.
  intros Hv.
  apply elem_of_cons in Hv as [-> | Hv]; [reflexivity |].
  apply elem_of_cons in Hv as [-> | Hv]; [reflexivity |].
  apply elem_of_cons in Hv as [-> | Hv]; [reflexivity |].
  apply elem_of_nil in Hv. contradiction.
Defined.

Lemma sub_state_back (v : Value) :
  v ∈ [sub_dest; sub_src0; sub_src1] ->
  forall w1 : State, same_names sub_state w1 ->
  exists (v' : Value) (w2 : State),
    (find_by_text w1 (value_text sub_state v), w1) = (Some v', w2) /\
    forall w3 : State, same_names w2 w3 -> bool_decide (v = v') = true.
Proof.
  intros Hv w1 Hw1. exists v, w1. split.
  - rewrite (sub_state_reads w1 v Hw1 Hv). reflexivity.
  - intros w3 _. apply bool_decide_eq_true_2. reflexivity.
Defined.

Lemma print_from_string_round_trip_witness :
  reads_back_equal (machine_of sub_state) sub_instr /\
  reads_back_equal (machine_of sub_state) lds_read_instr.
Proof.
  split.
  - refine (proj1 (print_from_string_round_trip (V := values) (T := tables)
                     (R := readports) (F := factory) same_names
                     same_names_refl same_names_trans _ _ _ _
                     (machine_of sub_state) sub_instr _ _)
              (mkAluOp 2 "ADD") sub_dest "R0.x" 2%nat 0%nat
              eq_refl eq_refl eq_refl _ eq_refl eq_refl _ eq_refl eq_refl
              (arena_max_size 2 _) eq_refl eq_refl eq_refl _ _ _ _ _).
    + intros s a. apply same_names_refl.
    + intros s a. apply same_names_refl.
    + intros r p a. split; reflexivity.
    + intros r p a. split; reflexivity.
    + intros v Hv. apply sub_state_tokens, elem_of_cons. right. exact Hv.
    + intros v Hv. apply sub_state_back, elem_of_cons. right. exact Hv.
    + discriminate.
    + lia.
    + lia.
    + discriminate.
    + discriminate.
    + intros w1 Hw1. exists sub_dest, w1. split.
      * change (dest_from_string "R0.x" w1)
          with (match find_by_text w1 (value_text sub_state sub_dest) with
                | Some v => if is_reg v then Some v else None
                | None => None
                end, w1).
        rewrite (sub_state_reads w1 sub_dest Hw1); [reflexivity |].
        apply elem_of_cons. left. reflexivity.
      * intros w3 _. reflexivity.
    + intros f Hf.
      change (f ∈ ({[ alu_write; alu_src1_neg ]} : AluOpFlags)) in Hf.
      apply elem_of_union in Hf as [Hf | Hf]; apply elem_of_singleton in Hf;
        subst f; reflexivity.
    + intros H. discriminate H.
  - refine (proj2 (print_from_string_round_trip (V := values) (T := tables)
                     (R := readports) (F := factory) same_names
                     same_names_refl same_names_trans _ _ _ _
                     (machine_of sub_state) lds_read_instr _ _)
              (mkLDSOp 1 "READ_RET")
              eq_refl eq_refl eq_refl eq_refl eq_refl _ eq_refl eq_refl eq_refl _).
    + intros s a. apply same_names_refl.
    + intros s a. apply same_names_refl.
    + intros r p a. split; reflexivity.
    + intros r p a. split; reflexivity.
    + intros v Hv. apply sub_state_tokens.
      apply list_elem_of_singleton in Hv. subst v.
      apply elem_of_cons. right. apply elem_of_cons. left. reflexivity.
    + intros v Hv. apply sub_state_back.
      apply list_elem_of_singleton in Hv. subst v.
      apply elem_of_cons. right. apply elem_of_cons. left. reflexivity.
    + cbn. lia.
    + intros f Hf.
      change (f ∈ ({[ alu_is_lds ]} : AluOpFlags)) in Hf.
      apply elem_of_singleton in Hf. subst f. reflexivity.
Defined.

(** C1, counterexample.  The two-source constructor builds
    [ADD R0.x : R1.x R2.x] with the write flag and [alu_is_trans]; it
    prints as [ALU ADD R0.x : R1.x R2.x {W}].  Read from that text,
    [from_string] takes [ALU] for the opcode and [ADD] for the
    destination and fails the assertion on the colon.  Read from the text
    after the keyword it builds an instruction without [alu_is_trans],
    which the text does not carry, and [is_equal_to] answers false.  An
    instruction without destination, built by the opcode-and-channel
    constructor, prints its opcode and the blank destination as the one
    token [NOP__.x], and reading it fails likewise.  An LDS instruction
    built over an address and two sources for an opcode whose row says
    two is read two sources of, and the third is no token of the trailer. *)
Lemma round_trip_counterexample :
  (exists m1 i,
     new_AluInstr
       (fun this w =>
          AluInstr_ctor2 this ADD (Some sub_dest) sub_src0 sub_src1
            {[ alu_write; alu_is_trans ]} w)
       (machine_of sub_state) = Done (0%nat, m1) /\
     objs m1 !! 0%nat = Some i /\
     do_print (world m1) i = Done "ALU ADD R0.x : R1.x R2.x {W}" /\
     from_string "ALU ADD R0.x : R1.x R2.x {W}" None m1 =
       Fault (AssertFailed "*t == colon") /\
     exists m2 i',
       from_string "ADD R0.x : R1.x R2.x {W}" None m1 = Done (Some 1%nat, m2) /\
       objs m2 !! 1%nat = Some i' /\
       is_equal_to (world m2) i i' = false) /\
  (exists m1 i,
     new_AluInstr (fun this w => AluInstr_ctor_chan this NOP 0 w)
       (machine_of sub_state) = Done (0%nat, m1) /\
     objs m1 !! 0%nat = Some i /\
     do_print (world m1) i = Done "ALU NOP__.x :  {}" /\
     from_string "NOP__.x :  {}" None m1 = Fault (AssertFailed "*t == colon")) /\
  (exists m1 i,
     new_AluInstr
       (fun this w =>
          AluInstr_ctor_lds this DS_ADD (Some sub_src1) (Some sub_dest) sub_src0 w)
       (machine_of sub_state) = Done (0%nat, m1) /\
     objs m1 !! 0%nat = Some i /\
     do_print (world m1) i = Done "ALU LDS ADD __.x : R1.x R2.x R0.x {}" /\
     from_string "LDS ADD __.x : R1.x R2.x R0.x {}" None m1 =
       Fault (Unreachable "Unknown tocken in ALU instruction")).
Proof.
  split; [| split].
  - eexists. eexists. split; [reflexivity |]. split; [reflexivity |].
    split; [reflexivity |]. split; [reflexivity |].
    eexists. eexists. split; [reflexivity |]. split; reflexivity.
  - eexists. eexists. split; [reflexivity |]. split; [reflexivity |].
    split; reflexivity.
  - eexists. eexists. split; [reflexivity |]. split; [reflexivity |].
    split; reflexivity.
Qed.

End Examples.

(** * The further members at work on the arena instance *)

Section ExamplesMore.
Import Arena ArenaMore.

(** A Cayman trans instruction of three slots. *)
Definition cayman_instr : AluInstr :=
  mkAluInstr _ _ MULADD DS_INVALID (Some (Reg 0 0 false))
    [Reg 1 0 false; Reg 2 0 false; Reg 3 0 false]
    {[ alu_write; alu_is_cayman_trans ]} alu_vec_unknown cf_alu 3 0 [] None.

Lemma allowed_dest_chan_mask_bits_witness :
  exists mask,
    allowed_dest_chan_mask cayman_instr = Done mask /\
    0 <= mask < 2 ^ 8 /\
    forall c, 0 <= c ->
      Z.testbit mask c =
        (c <? 8) &&
        (if bool_decide (m_alu_slots cayman_instr = 1) then c <? 4
         else has_alu_flag cayman_instr alu_is_cayman_trans &&
              (c <? m_alu_slots cayman_instr)).
Proof.
  apply (allowed_dest_chan_mask_bits (V := values) (T := tables) cayman_instr).
  simpl. lia.
Defined.

(** [MOV R0.x : KC0[4].x] with the uniform indexed by R5.x. *)
Definition indexed_instr : AluInstr :=
  mkAluInstr _ _ MOV DS_INVALID (Some (Reg 0 0 false))
    [Uniform 4 0 (Some (5%nat, 0))] {[ alu_write ]}
    alu_vec_unknown cf_alu 1 0 [] None.

Lemma indirect_addr_flags_witness :
  indirect_addr indexed_instr = Done (Some (Reg 5 0 false), false, true) /\
  (Some (Reg 5 0 false) = None -> false = false /\ true = false) /\
  (false && true = false).
Proof.
  split; [reflexivity |].
  apply (indirect_addr_flags (V := values) (T := tables) (VK := value_kinds)
           indexed_instr (Some (Reg 5 0 false)) false true).
  reflexivity.
Defined.

(** [MOV S0.x@chan : S1.x {W}] at address 0, its destination read by the
    instructions 1 and 2. *)
Definition read_twice_state : State :=
  with_use (fun _ => [1%nat; 2%nat]) mov_dest mov_state.

Lemma replace_dest_false_unchanged_witness :
  replace_dest 0%nat (Reg 5 0 false) 0%nat (machine_with mov_instr read_twice_state) =
    Done (false, machine_with mov_instr read_twice_state) /\
  machine_with mov_instr read_twice_state = machine_with mov_instr read_twice_state.
Proof.
  split; [reflexivity |].
  apply (replace_dest_false_unchanged (V := values) (T := tables) (R := readports)
           0%nat (Reg 5 0 false) 0%nat
           (machine_with mov_instr read_twice_state)
           (machine_with mov_instr read_twice_state)).
  reflexivity.
Defined.

(** The Cayman trans instruction of three slots, moved to R5.w. *)
Lemma replace_dest_true_effect_witness :
  exists m',
    replace_dest 0%nat (Reg 5 3 false) 0%nat (machine_with cayman_instr empty_state) =
      Done (true, m') /\
    exists i',
      objs m' !! 0%nat = Some i' /\
      dest_replaced cayman_instr cayman_instr i' (Reg 5 3 false) /\
      (Z.of_nat (length (m_src cayman_instr)) = m_alu_slots cayman_instr ->
       Z.of_nat (length (m_src i')) = m_alu_slots i').
Proof.
  eexists. split; [reflexivity |].
  apply (replace_dest_true_effect (V := values) (T := tables) (R := readports)
           0%nat (Reg 5 3 false) 0%nat
           (machine_with cayman_instr empty_state) _ cayman_instr cayman_instr
           eq_refl eq_refl).
  reflexivity.
Defined.

(** [INTERP_X S0.x@chan : S1.x S2.x {W}] over the table with the
    interpolation opcodes. *)
Definition interp_instr : @AluInstr values interp_tables :=
  @mkAluInstr values interp_tables INTERP_X DS_INVALID (Some mov_dest)
    [Reg 1 0 true; Reg 2 0 true] {[ alu_write ]}
    alu_vec_unknown cf_alu 1 0 [] None.

Definition interp_machine : @Machine values interp_tables readports :=
  @mkMachine values interp_tables readports [interp_instr] [] mov_state ∅ ∅ [].

Lemma propagate_death_effect_witness :
  exists m',
    @propagate_death values interp_tables readports interp_ops 0%nat interp_machine =
      Done (false, m') /\
    (exists i',
       objs m' !! 0%nat = Some i' /\
       m_src i' = m_src interp_instr /\ m_dest i' = m_dest interp_instr /\
       (m_alu_flags i' = m_alu_flags interp_instr \/
        m_alu_flags i' = m_alu_flags interp_instr ∖ {[ alu_write ]}) /\
       (false = true -> i' = interp_instr)) /\
    (false = false -> world m' = world interp_machine) /\
    (m_dest interp_instr = None -> false = true /\ m' = interp_machine).
Proof.
  eexists. split; [reflexivity |].
  apply (propagate_death_effect (V := values) (T := interp_tables) (R := readports)
           (MO := interp_ops) 0%nat interp_machine _ interp_instr false eq_refl).
  reflexivity.
Defined.

(** The arena keeps the laws of pins and use lists the properties below
    are stated under. *)
Lemma arena_set_pin_same (w : State) (r : Value) (p : Pin) :
  pin w r = pin_free \/ pin w r = pin_group -> pin (set_pin r p w) r = p.
Proof.
  destruct r as [s c ssa | s c a | s c b | v]; cbn.
  - intros _. rewrite lookup_insert_eq. reflexivity.
  - intros [H | H]; discriminate H.
  - intros [H | H]; discriminate H.
  - intros [H | H]; discriminate H.
Qed.

Lemma arena_set_pin_other (w : State) (r r' : Value) (p : Pin) :
  pin (set_pin r p w) r' = pin w r' \/ pin (set_pin r p w) r' = p.
Proof.
  destruct r' as [s c ssa | s c a | s c b | v]; cbn; try (left; reflexivity).
  destruct (decide (key r = (s, c))) as [-> | Hne].
  - right. rewrite lookup_insert_eq. reflexivity.
  - left. rewrite lookup_insert_ne by exact Hne. reflexivity.
Qed.

Lemma arena_add_use_in (w : State) (r : Value) (p : InstrPtr) :
  p ∈ uses (add_use r p w) r.
Proof.
  cbn. rewrite lookup_insert_eq. cbn. apply elem_of_app. right.
  apply list_elem_of_here.
Qed.

Lemma arena_add_use_keeps (w : State) (r r' : Value) (p p' : InstrPtr) :
  p ∈ uses w r -> p ∈ uses (add_use r' p' w) r.
Proof.
  cbn. intros H. destruct (decide (key r' = key r)) as [He | Hne].
  - rewrite He, lookup_insert_eq. cbn. apply elem_of_app. left. exact H.
  - rewrite lookup_insert_ne by exact Hne. exact H.
Qed.

Lemma arena_add_parent_keeps (w : State) (r r' : Value) (p p' : InstrPtr) :
  p ∈ uses w r -> p ∈ uses (add_parent r' p' w) r.
Proof. cbn. intros H. exact H. Qed.

(** [ADD R0.x : R1.x R2.x {W}] with R1.x free and R2.x group pinned. *)
Definition free_state : State :=
  with_pin (Reg 2 0 false) pin_group (with_pin (Reg 1 0 false) pin_free empty_state).

Lemma pin_sources_to_chan_settles_witness :
  pin (pin_sources_to_chan add_instr free_state) (Reg 2 0 false) <> pin_free /\
  pin (pin_sources_to_chan add_instr free_state) (Reg 2 0 false) <> pin_group.
Proof.
  apply (pin_sources_to_chan_settles (V := values) (T := tables)
           arena_set_pin_same arena_set_pin_other
           add_instr free_state (Reg 2 0 false) (Reg 2 0 false)).
  - apply list_elem_of_further, list_elem_of_here.
  - reflexivity.
Defined.

Lemma update_uses_enters_use_lists_witness :
  (0%nat ∈ uses (update_uses 0%nat indexed_instr empty_state) (Reg 5 0 false)).
Proof.
  apply (update_uses_enters_use_lists (V := values) (T := tables)
           arena_add_use_in arena_add_use_keeps arena_add_parent_keeps
           0%nat indexed_instr empty_state (Uniform 4 0 (Some (5%nat, 0)))
           (Reg 5 0 false)).
  - apply list_elem_of_here.
  - right. exists (Uniform 4 0 (Some (5%nat, 0))), (Reg 5 0 false).
    repeat split; reflexivity.
Defined.

Lemma set_sources_effect_witness :
  exists m' i',
    set_sources 0%nat [Reg 7 0 false; Literal 1]
      (machine_with add_instr empty_state) = Done (tt, m') /\
    objs m' !! 0%nat = Some i' /\
    i' = with_src [Reg 7 0 false; Literal 1] add_instr /\
    forall s r,
      s ∈ [Reg 7 0 false; Literal 1] -> as_register s = Some r ->
      0%nat ∈ uses (world m') r.
Proof.
  apply (set_sources_effect (V := values) (T := tables) (R := readports)
           arena_add_use_in arena_add_use_keeps
           0%nat [Reg 7 0 false; Literal 1]
           (machine_with add_instr empty_state) add_instr eq_refl).
Defined.

Lemma replace_source_false_unchanged_witness :
  replace_source 0%nat (Reg 5 0 false) (Reg 6 0 false)
      (machine_with add_instr empty_state) =
    Done (false, machine_with add_instr empty_state) /\
  machine_with add_instr empty_state = machine_with add_instr empty_state.
Proof.
  split; [reflexivity |].
  apply (replace_source_false_unchanged (V := values) (T := tables) (R := readports)
           0%nat (Reg 5 0 false) (Reg 6 0 false)
           (machine_with add_instr empty_state)
           (machine_with add_instr empty_state) add_instr eq_refl eq_refl).
  reflexivity.
Defined.

Lemma replace_source_true_effect_witness :
  exists m',
    replace_source 0%nat (Reg 2 0 false) (Literal 3)
      (machine_with add_instr empty_state) = Done (true, m') /\
    pin (world (machine_with add_instr empty_state)) (Reg 2 0 false) <> pin_array /\
    (exists s, s ∈ m_src add_instr /\
               equal_to (world (machine_with add_instr empty_state))
                 (Reg 2 0 false) s = true) /\
    objs m' !! 0%nat =
      Some (with_src
              (map (fun s =>
                      if equal_to (world (machine_with add_instr empty_state))
                           (Reg 2 0 false) s
                      then Literal 3 else s)
                   (m_src add_instr)) add_instr) /\
    (forall i', objs m' !! 0%nat = Some i' ->
                length (m_src i') = length (m_src add_instr)) /\
    world m' =
      del_use (Reg 2 0 false) 0%nat
        match as_register (Literal 3) with
        | Some r => add_use r 0%nat (world (machine_with add_instr empty_state))
        | None => world (machine_with add_instr empty_state)
        end.
Proof.
  eexists. split; [reflexivity |].
  apply (replace_source_true_effect (V := values) (T := tables) (R := readports)
           0%nat (Reg 2 0 false) (Literal 3)
           (machine_with add_instr empty_state) _ add_instr eq_refl).
  reflexivity.
Defined.

Lemma ctor_invariants_witness :
  exists i w',
    AluInstr_ctor 0%nat MULADD (Some (Reg 0 0 false))
      [Reg 1 0 false; Reg 2 0 false; Reg 3 0 false] {[ alu_write ]} 1 empty_state =
      Done (i, w') /\
    (has_alu_flag i alu_write = true -> is_Some (m_dest i)) /\
    (forall f, has_alu_flag i f = true <->
               f ∈ ({[ alu_write ]} : AluOpFlags) \/
               (f = alu_op3 /\ length (m_src i) = 3%nat)) /\
    m_bank_swizzle i = alu_vec_unknown /\ m_cf_type i = cf_alu.
Proof.
  eexists _, _. split; [reflexivity |].
  eapply (ctor_invariants (V := values) (T := tables) 0%nat MULADD (Some (Reg 0 0 false))
           [Reg 1 0 false; Reg 2 0 false; Reg 3 0 false] {[ alu_write ]} 1
           empty_state _ _).
  reflexivity.
Defined.

(** [add_instr] as the second slot of a group would hold it: another slot
    count, fallback channel and extra dependency. *)
Definition add_instr_elsewhere : AluInstr :=
  mkAluInstr _ _ ADD DS_READ_RET (Some (Reg 0 0 false))
    [Reg 1 0 false; Reg 2 0 false] {[ alu_write ]}
    alu_vec_unknown cf_alu 2 3 [Reg 9 0 false] (Some 0%nat).

Lemma is_equal_to_compared_fields_witness :
  is_equal_to empty_state add_instr add_instr_elsewhere = true.
Proof.
  apply (is_equal_to_compared_fields (V := values) (T := tables) empty_state
           add_instr add_instr_elsewhere eq_refl eq_refl eq_refl eq_refl eq_refl eq_refl).
  - intros v _. cbn. apply bool_decide_eq_true_2. reflexivity.
  - intros d _. cbn. apply bool_decide_eq_true_2. reflexivity.
Defined.

Lemma split_single_slot_witness :
  (m_alu_slots add_instr = 1 ->
   split 0%nat (machine_with add_instr empty_state) =
     Done (None, machine_with add_instr empty_state)) /\
  (split 0%nat (machine_with add_instr empty_state) =
     Done (None, machine_with add_instr empty_state) ->
   m_alu_slots add_instr = 1 /\
   machine_with add_instr empty_state = machine_with add_instr empty_state).
Proof.
  apply (split_single_slot (V := values) (T := tables) (R := readports) (F := factory)
           0%nat (machine_with add_instr empty_state)
           (machine_with add_instr empty_state) add_instr eq_refl).
Defined.

Lemma tokenize_tokens_witness : is_token "MOV" = true.
Proof.
  apply (tokenize_tokens "  MOV R0.x : R1.x " "MOV").
  vm_compute. apply list_elem_of_here.
Defined.

Lemma tokenize_join_tokens_witness :
  tokenize (join_tokens ["ADD"; "R0.x"; ":"; "R1.x"; "-R2.x"; "{W}"]) =
  ["ADD"; "R0.x"; ":"; "R1.x"; "-R2.x"; "{W}"].
Proof.
  apply (tokenize_join_tokens ["ADD"; "R0.x"; ":"; "R1.x"; "-R2.x"; "{W}"]).
  repeat constructor.
Defined.

Lemma from_string_blank_text_witness :
  from_string "   " None (machine_of empty_state) = Fault (Undefined "*t").
Proof.
  apply (from_string_blank_text (V := values) (T := tables) (R := readports)
           (F := factory) "   " None (machine_of empty_state)).
  reflexivity.
Defined.

Lemma from_string_effects_witness :
  exists r m',
    from_string "ADD R0.x : R1.x -R2.x {W}" None (machine_of sub_state) =
      Done (r, m') /\
    (exists i', objs m' = objs (machine_of sub_state) ++ [i']) /\
    r = Some (length (objs (machine_of sub_state))) /\
    shader_instrs m' = shader_instrs (machine_of sub_state) /\
    s_lds_map_by_name m' = s_lds_map_by_name (machine_of sub_state) /\
    (s_alu_map_by_name m' = s_alu_map_by_name (machine_of sub_state) \/
     exists opstr d,
       s_alu_map_by_name m' = <[opstr := d]> (s_alu_map_by_name (machine_of sub_state))).
Proof.
  eexists _, _. split; [reflexivity |].
  eapply (from_string_effects (V := values) (T := tables) (R := readports)
            (F := factory) "ADD R0.x : R1.x -R2.x {W}" None (machine_of sub_state)).
  reflexivity.
Defined.

(** [fsub] of the value of [fadd_alu], whose second source is negated. *)
Lemma emit_alu_op2_flags_witness :
  exists m' xs,
    from_nir_fsub fadd_alu (machine_of empty_state) = Done (true, m') /\
    objs m' = objs (machine_of empty_state) ++ xs /\
    shader_instrs m' =
      shader_instrs (machine_of empty_state) ++
      seq (length (objs (machine_of empty_state))) (length xs) /\
    length xs = length (enabled_components fadd_alu) /\
    forall (j : nat) x,
      xs !! j = Some x ->
      m_opcode x = ADD /\ m_alu_slots x = 1 /\ length (m_src x) = 2%nat /\
      forall f,
        has_alu_flag x f = true <->
        f = alu_write \/
        (f = alu_src0_neg /\ negate (mk_nir_alu_src 2 false false) = true) \/
        (f = alu_src0_abs /\ abs (mk_nir_alu_src 2 false false) = true) \/
        (f = alu_src1_neg /\
         Z.land op2_opt_neg_src1 op2_opt_neg_src1 <>
         Z.b2z (negate (mk_nir_alu_src 3 true true))) \/
        (f = alu_src1_abs /\ abs (mk_nir_alu_src 3 true true) = true) \/
        (f = alu_dst_clamp /\ saturate (alu_dest fadd_alu) = true) \/
        (f = alu_last_instr /\ S j = length xs).
Proof.
  exact (emit_alu_op2_flags (V := values) (T := tables) (R := readports)
           (F := factory) fadd_alu ADD op2_opt_neg_src1
           (mk_nir_alu_src 2 false false) (mk_nir_alu_src 3 true true)
           (mkAluOp 2 "ADD") (machine_of empty_state)
           eq_refl eq_refl eq_refl eq_refl).
Defined.

(** An integer addition of a three-component value, components x and z
    written, with the options asking for the second source negated. *)
Definition iadd_alu : nir_alu_instr :=
  mk_nir_alu_instr (mk_nir_alu_dest (mk_nir_dest true 3) 5 false)
    [mk_nir_alu_src 2 false false; mk_nir_alu_src 3 false false].

Lemma emit_alu_op2_int_flags_witness :
  exists m' xs,
    emit_alu_op2_int iadd_alu ADD op2_opt_neg_src1 (machine_of empty_state) =
      Done (true, m') /\
    objs m' = objs (machine_of empty_state) ++ xs /\
    shader_instrs m' =
      shader_instrs (machine_of empty_state) ++
      seq (length (objs (machine_of empty_state))) (length xs) /\
    length xs = length (enabled_components iadd_alu) /\
    forall (j : nat) x,
      xs !! j = Some x ->
      m_opcode x = ADD /\ m_alu_slots x = 1 /\ length (m_src x) = 2%nat /\
      forall f,
        has_alu_flag x f = true <->
        f = alu_write \/
        (f = alu_src1_neg /\ Z.land op2_opt_neg_src1 op2_opt_neg_src1 <> 0) \/
        (f = alu_dst_clamp /\ saturate (alu_dest iadd_alu) = true) \/
        (f = alu_last_instr /\ S j = length xs).
Proof.
  apply (proj2 (emit_alu_op2_int_flags (V := values) (T := tables) (R := readports)
                  (F := factory) iadd_alu ADD op2_opt_neg_src1
                  (mk_nir_alu_src 2 false false) (mk_nir_alu_src 3 false false)
                  (mkAluOp 2 "ADD") (machine_of empty_state)
                  eq_refl eq_refl eq_refl eq_refl)).
  reflexivity.
Defined.

(** [fneg] of a negated two-component value. *)
Definition fneg_alu : nir_alu_instr :=
  mk_nir_alu_instr (mk_nir_alu_dest (mk_nir_dest true 2) 3 true)
    [mk_nir_alu_src 2 true false].

Lemma emit_alu_op1_flags_witness :
  exists m' xs,
    from_nir_fneg fneg_alu (machine_of empty_state) = Done (true, m') /\
    objs m' = objs (machine_of empty_state) ++ xs /\
    shader_instrs m' =
      shader_instrs (machine_of empty_state) ++
      seq (length (objs (machine_of empty_state))) (length xs) /\
    length xs = length (enabled_components fneg_alu) /\
    forall (j : nat) x,
      xs !! j = Some x ->
      m_opcode x = MOV /\ m_alu_slots x = 1 /\ length (m_src x) = 1%nat /\
      forall f,
        has_alu_flag x f = true <->
        f = alu_write \/
        (f = alu_src0_abs /\
         (alu_src0_abs ∈ ({[ alu_src0_neg ]} : AluOpFlags) \/
          abs (mk_nir_alu_src 2 true false) = true)) \/
        (f = alu_src0_neg /\
         negate (mk_nir_alu_src 2 true false) <>
         bool_decide (alu_src0_neg ∈ ({[ alu_src0_neg ]} : AluOpFlags))) \/
        (f = alu_dst_clamp /\
         (alu_dst_clamp ∈ ({[ alu_src0_neg ]} : AluOpFlags) \/
          saturate (alu_dest fneg_alu) = true)) \/
        (f = alu_last_instr /\ S j = length xs).
Proof.
  apply (emit_alu_op1_flags (V := values) (T := tables) (R := readports)
           (F := factory) (DF := alu_dest_factory) fneg_alu MOV {[ alu_src0_neg ]}
           (mk_nir_alu_src 2 true false) (mkAluOp 1 "MOV") (machine_of empty_state)
           eq_refl eq_refl eq_refl).
Defined.

(** A multiply-add of a three-component value, the third source negated,
    and the same with the first source taken absolute. *)
Definition ffma_alu : nir_alu_instr :=
  mk_nir_alu_instr (mk_nir_alu_dest (mk_nir_dest true 3) 7 false)
    [mk_nir_alu_src 2 false false; mk_nir_alu_src 3 false false;
     mk_nir_alu_src 4 true false].

Definition ffma_abs_alu : nir_alu_instr :=
  mk_nir_alu_instr (mk_nir_alu_dest (mk_nir_dest true 3) 7 false)
    [mk_nir_alu_src 2 false true; mk_nir_alu_src 3 false false;
     mk_nir_alu_src 4 true false].

Lemma emit_alu_op3_flags_witness :
  exists m' xs,
    emit_alu_op3 ffma_alu MULADD (0, 1, 2) (machine_of empty_state) =
      Done (true, m') /\
    objs m' = objs (machine_of empty_state) ++ xs /\
    shader_instrs m' =
      shader_instrs (machine_of empty_state) ++
      seq (length (objs (machine_of empty_state))) (length xs) /\
    length xs = length (enabled_components ffma_alu) /\
    forall (j : nat) x,
      xs !! j = Some x ->
      m_opcode x = MULADD /\ m_alu_slots x = 1 /\ length (m_src x) = 3%nat /\
      forall f,
        has_alu_flag x f = true <->
        f = alu_write \/ f = alu_op3 \/
        (f = alu_src0_neg /\ negate (mk_nir_alu_src 2 false false) = true) \/
        (f = alu_src1_neg /\ negate (mk_nir_alu_src 3 false false) = true) \/
        (f = alu_src2_neg /\ negate (mk_nir_alu_src 4 true false) = true) \/
        (f = alu_dst_clamp /\ saturate (alu_dest ffma_alu) = true) \/
        (f = alu_last_instr /\ S j = length xs).
Proof.
  apply (emit_alu_op3_flags (V := values) (T := tables) (R := readports)
           (F := factory) ffma_alu MULADD 0 1 2
           (mk_nir_alu_src 2 false false) (mk_nir_alu_src 3 false false)
           (mk_nir_alu_src 4 true false) (mkAluOp 3 "MULADD") (machine_of empty_state)
           eq_refl eq_refl eq_refl eq_refl eq_refl eq_refl eq_refl eq_refl).
Defined.

Lemma emit_alu_op3_abs_asserts_witness :
  exists msg,
    emit_alu_op3 ffma_abs_alu MULADD (0, 1, 2) (machine_of empty_state) =
      Fault (AssertFailed msg).
Proof.
  apply (proj1 (emit_alu_op3_abs_asserts (V := values) (T := tables) (R := readports)
                  (F := factory) ffma_abs_alu MULADD 0 1 2
                  (mk_nir_alu_src 2 false true) (mk_nir_alu_src 3 false false)
                  (mk_nir_alu_src 4 true false) (mkAluOp 3 "MULADD")
                  (machine_of empty_state)
                  eq_refl eq_refl eq_refl eq_refl eq_refl eq_refl)).
  vm_compute. discriminate.
Defined.

(** [MULADD R0.x : R1.x R2.x R3.x {W}], with R3.x to be replaced. *)
Definition muladd_instr : AluInstr :=
  mkAluInstr _ _ MULADD DS_INVALID (Some (Reg 0 0 false))
    [Reg 1 0 false; Reg 2 0 false; Reg 3 0 false]
    {[ alu_write; alu_op3 ]} alu_vec_unknown cf_alu 1 0 [] None.

Lemma check_readport_validation_first_swizzle_witness :
  check_readport_validation empty_state muladd_instr (Reg 3 0 false) (Literal 1) =
  first_swizzle_schedules empty_state (m_src muladd_instr) (Reg 3 0 false) (Literal 1)
    (Z.to_nat (nsrc (mkAluOp 3 "MULADD"))) (Z.to_nat (m_alu_slots muladd_instr))
    0 new_reservation.
Proof.
  apply (check_readport_validation_first_swizzle (V := values) (T := tables)
           (R := readports) empty_state muladd_instr (Reg 3 0 false) (Literal 1)
           (mkAluOp 3 "MULADD")).
  - simpl. lia.
  - reflexivity.
  - simpl. lia.
  - simpl. lia.
  - reflexivity.
  - simpl. lia.
Defined.



End ExamplesMore.

